(** * Chapter conversion pipeline of the PDF-to-audiobook converter

    A shallow embedding of [src/hooks/usePdfParser.ts] (outline resolution,
    chunking, the per-chapter conversion state machine), of the audio
    utilities ([decodeAudioData], [concatAudioBuffers], [bufferToWav]) and of
    the bulk scheduler of [src/App.tsx], with the properties of the
    specification stated and proved over it. *)

From Stdlib Require Import ZArith QArith Qround Qminmax Lia Bool String Ascii.
From Stdlib Require SpecFloat.
From stdpp Require Import base tactics option list sorting strings gmap.

Local Open Scope Z_scope.

(** ** JavaScript strings

    A JavaScript string is a sequence of UTF-16 code units; [length] counts
    code units and a regular expression without the [u] flag matches code
    units.  Text is therefore a list of code units. *)

Definition codeunit := N.
Definition text := list codeunit.

(** A string literal of this file as JavaScript text (one code unit per
    character; the literals used below are ASCII). *)
Definition js (s : string) : text :=
  map (fun a : ascii => N_of_ascii a) (list_ascii_of_string s).

(** ** Chunker ([convertChapter], lines 200-211) *)

Module Chunker.

Definition TEXT_CHUNK_SIZE : nat := 4000.

(** The character class [[.!?]] of the sentence pattern. *)
Definition is_terminator (c : codeunit) : bool :=
  ((c =? 46) || (c =? 33) || (c =? 63))%N.

(** [text.match(/[^.!?]+[.!?]*/g)]: every match, left to right.  The scan
    is in one of three phases: [Seek] (no match can start on a terminator,
    so the engine moves on), [Body] (inside the greedy [[^.!?]+]) and
    [Tail] (inside the greedy [[.!?]*]).  [cur] is the match read so far. *)
Inductive phase := Seek | Body | Tail.

Fixpoint scan (ph : phase) (cur : text) (s : text) : list text :=
  match s with
  | [] => match ph with Seek => [] | Body | Tail => [cur] end
  | c :: rest =>
      match ph, is_terminator c with
      | Seek, true => scan Seek [] rest
      | Seek, false => scan Body [c] rest
      | Body, false => scan Body (cur ++ [c]) rest
      | Body, true => scan Tail (cur ++ [c]) rest
      | Tail, true => scan Tail (cur ++ [c]) rest
      | Tail, false => cur :: scan Body [c] rest
      end
  end.

(** The list of matches; the empty list stands for [null]. *)
Definition match_sentences (t : text) : list text := scan Seek [] t.

(** [text.match(...) || [text]] *)
Definition sentences (t : text) : list text :=
  match match_sentences t with
  | [] => [t]
  | m => m
  end.

(** One iteration of [for (const sentence of sentences)]; the state is
    [(textChunks, currentChunk)]. *)
Definition chunk_step (limit : nat) (st : list text * text) (sentence : text)
  : list text * text :=
  let '(textChunks, currentChunk) := st in
  if (limit <? length (currentChunk ++ sentence))%nat
  then (textChunks ++ [currentChunk], sentence)
  else (textChunks, currentChunk ++ sentence).

(** The whole chunker, for a given character limit. *)
Definition chunkText (limit : nat) (t : text) : list text :=
  let '(textChunks, currentChunk) :=
    fold_left (chunk_step limit) (sentences t) ([], []) in
  match currentChunk with
  | [] => textChunks
  | _ :: _ => textChunks ++ [currentChunk]
  end.

(** The text without its leading run of sentence terminators, unless the
    text has nothing but terminators (a statement-side helper). *)
Fixpoint drop_terminators (t : text) : text :=
  match t with
  | [] => []
  | c :: rest => if is_terminator c then drop_terminators rest else t
  end.

Definition surviving_text (t : text) : text :=
  match drop_terminators t with
  | [] => t
  | r => r
  end.

End Chunker.

(** ** Thrown values and fallible calls

    A JavaScript call either returns or throws.  The orchestrator only
    inspects a thrown value through [err instanceof Error ? err.message : ...],
    so a thrown value is an [Error] with its message or something else. *)

Inductive thrown :=
| ErrorObj (message : string)
| NonError.

(** [err instanceof Error ? err.message : fallback] *)
Definition errorMessage (fallback : string) (err : thrown) : string :=
  match err with
  | ErrorObj message => message
  | NonError => fallback
  end.

Inductive result (A : Type) :=
| Throw (e : thrown)
| Ok (a : A).
Arguments Throw {A} e.
Arguments Ok {A} a.

Definition rbind {A B} (m : result A) (k : A -> result B) : result B :=
  match m with
  | Throw e => Throw e
  | Ok a => k a
  end.

Declare Scope result_scope.
Delimit Scope result_scope with R.
Bind Scope result_scope with result.
Notation "x <- m ;; k" := (rbind m (fun x => k))
  (at level 100, m at next level, right associativity) : result_scope.

(** ** Numbers held by audio buffers

    The elements of a [Float32Array] are finite binary fractions, the two
    infinities or [NaN].  Finite values are kept as exact rationals: every
    operation the audio utilities apply to them (division of a 16-bit integer
    by [32768], multiplication of a 32-bit float by [0x8000] or [0x7FFF]) is
    exact in double precision. *)

Inductive sample :=
| Fin (q : Q)
| PInf
| NInf
| NaN.

Module JS.

Definition Qltb (a b : Q) : bool := negb (Qle_bool b a).

(** [Math.min(a, x)] and [Math.max(a, x)] for a finite [a]. *)
Definition Math_min (a : Q) (x : sample) : sample :=
  match x with
  | Fin q => if Qle_bool a q then Fin a else Fin q
  | PInf => Fin a
  | NInf => NInf
  | NaN => NaN
  end.

Definition Math_max (a : Q) (x : sample) : sample :=
  match x with
  | Fin q => if Qle_bool q a then Fin a else Fin q
  | PInf => PInf
  | NInf => Fin a
  | NaN => NaN
  end.

(** [x < 0] *)
Definition is_negative (x : sample) : bool :=
  match x with
  | Fin q => Qltb q 0
  | NInf => true
  | PInf | NaN => false
  end.

(** [x * c] for a positive finite [c]. *)
Definition times (x : sample) (c : Q) : sample :=
  match x with
  | Fin q => Fin (q * c)
  | other => other
  end.

(** Truncation towards zero. *)
Definition Qtrunc (q : Q) : Z := Z.quot (Qnum q) (Zpos (Qden q)).

(** Reduction of an integer to a signed two's complement value of [w] bits. *)
Definition wrap_signed (w : Z) (z : Z) : Z :=
  let m := z mod 2 ^ w in
  if m <? 2 ^ (w - 1) then m else m - 2 ^ w.

(** [x | 0]: [ToInt32]. *)
Definition ToInt32 (x : sample) : Z :=
  match x with
  | Fin q => wrap_signed 32 (Qtrunc q)
  | PInf | NInf | NaN => 0
  end.

End JS.

(** ** Audio buffers of the Web Audio API *)

Module AudioBuffer.

Record t := mk {
  sampleRate : Z;
  length : nat;
  channelData : list (list sample)
}.

Definition numberOfChannels (b : t) : nat := List.length (channelData b).

(** [buffer.duration] *)
Definition duration (b : t) : Q := Z.of_nat (length b) # Z.to_pos (sampleRate b).

(** What the platform guarantees of every buffer it hands out: at least
    one channel and one frame, a positive rate, every channel as long as
    the buffer. *)
Definition wf (b : t) : Prop :=
  (1 <= numberOfChannels b)%nat /\ (1 <= length b)%nat /\ 0 < sampleRate b /\
  Forall (fun ch => List.length ch = length b) (channelData b).

End AudioBuffer.

Module Audio.

Definition NotSupportedError : thrown :=
  ErrorObj "NotSupportedError".
Definition IndexSizeError : thrown :=
  ErrorObj "IndexSizeError".
Definition RangeError : thrown :=
  ErrorObj "RangeError".

(** An [AudioContext], as far as [createBuffer] depends on it: the
    channel counts and the sample rates its implementation takes.  Every
    implementation of the Web Audio API takes up to 32 channels and the
    rates from 8000 to 96000 Hz; the three fields say what this one takes
    beyond that (they count only where they widen the range). *)
Record AudioContext := {
  channelLimit : nat;
  lowestRate : Z;
  highestRate : Z
}.

Definition maxChannels (ctx : AudioContext) : nat := Nat.max 32 (channelLimit ctx).
Definition minRate (ctx : AudioContext) : Z := Z.min 8000 (lowestRate ctx).
Definition maxRate (ctx : AudioContext) : Z := Z.max 96000 (highestRate ctx).

(** The channel count and the rate are in the nominal range of [ctx]. *)
Definition supports (ctx : AudioContext) (numberOfChannels : nat) (sampleRate : Z)
  : bool :=
  (1 <=? numberOfChannels)%nat && (numberOfChannels <=? maxChannels ctx)%nat
  && (0 <? sampleRate) && (minRate ctx <=? sampleRate) && (sampleRate <=? maxRate ctx).

(** [ctx.createBuffer(numberOfChannels, length, sampleRate)] of the
    platform.  [length] is an [unsigned long]: a fractional argument is
    truncated and reduced modulo [2^32].  The call throws
    [NotSupportedError] when an argument is zero, negative or outside its
    nominal range; the buffer it returns is silent. *)
Definition createBuffer (ctx : AudioContext) (numberOfChannels : nat) (length : Q)
    (sampleRate : Z) : result AudioBuffer.t :=
  let frames := Z.to_nat (Qfloor length mod 2 ^ 32) in
  if negb (supports ctx numberOfChannels sampleRate) || (frames =? 0)%nat
  then Throw NotSupportedError
  else Ok (AudioBuffer.mk sampleRate frames
             (replicate numberOfChannels (replicate frames (Fin 0)))).

(** [buffer.getChannelData(channel)] *)
Definition getChannelData (b : AudioBuffer.t) (channel : nat)
  : result (list sample) :=
  match AudioBuffer.channelData b !! channel with
  | Some ch => Ok ch
  | None => Throw IndexSizeError
  end.

(** [buffer.getChannelData(channel)[i] = v]: the channel is a live view,
    and a typed array ignores a store outside its bounds. *)
Definition setSample (b : AudioBuffer.t) (channel i : nat) (v : sample)
  : AudioBuffer.t :=
  AudioBuffer.mk (AudioBuffer.sampleRate b) (AudioBuffer.length b)
    (alter (fun ch => <[i := v]> ch) channel (AudioBuffer.channelData b)).

(** *** [decode] (part_003, lines 1-9)

    [atob] belongs to the platform: it throws on malformed base64 and
    otherwise returns a binary string.  Each of its code units is stored
    into a [Uint8Array], which keeps the low eight bits. *)
Definition decode (atob : text -> result text) (base64 : text)
  : result (list Z) :=
  (binaryString <- atob base64 ;;
   Ok (map (fun c : codeunit => Z.of_N c mod 256) binaryString))%R.

(** *** [decodeAudioData] (part_003, lines 11-28) *)

Definition to_int16 (u : Z) : Z := if u <? 32768 then u else u - 65536.

Fixpoint int16_elements (data : list Z) : list Z :=
  match data with
  | lo :: hi :: rest => to_int16 (lo + 256 * hi) :: int16_elements rest
  | _ => []
  end.

(** [new Int16Array(data.buffer)]: a [RangeError] unless the byte length
    is a multiple of two; elements are read in the byte order of the
    platform, little-endian on every platform that runs a browser. *)
Definition Int16Array_of (data : list Z) : result (list Z) :=
  if Nat.even (List.length data) then Ok (int16_elements data)
  else Throw RangeError.

(** [dataInt16[k] / 32768.0]; an index past the end reads [undefined],
    and [undefined / 32768.0] is [NaN]. *)
Definition read_sample (dataInt16 : list Z) (k : nat) : sample :=
  match dataInt16 !! k with
  | Some v => Fin (v # 32768)
  | None => NaN
  end.

(** [dataInt16.length / numChannels] is a division of Numbers, so
    [frameCount] may be fractional; [for (i = 0; i < frameCount; i++)]
    then runs once per natural number below it.  With no channel the
    quotient is infinite or [NaN], and [createBuffer] has thrown before it
    is used. *)
Definition decodeAudioData (data : list Z) (ctx : AudioContext) (sampleRate : Z)
    (numChannels : nat) : result AudioBuffer.t :=
  (dataInt16 <- Int16Array_of data ;;
   let frameCount : Q := Z.of_nat (List.length dataInt16) # Pos.of_nat numChannels in
   buffer <- createBuffer ctx numChannels frameCount sampleRate ;;
   Ok (fold_left
         (fun buffer channel =>
            fold_left
              (fun buffer i =>
                 setSample buffer channel i
                   (read_sample dataInt16 (i * numChannels + channel)))
              (seq 0 (Z.to_nat (Qceiling frameCount))) buffer)
         (seq 0 numChannels) buffer))%R.

(** Sequencing of a fallible loop body over a list. *)
Fixpoint rfold {A B} (f : B -> A -> result B) (l : list A) (b : B) : result B :=
  match l with
  | [] => Ok b
  | x :: rest => (b' <- f b x ;; rfold f rest b')%R
  end.

(** *** [concatAudioBuffers] (part_003, lines 30-49) *)

(** [context.sampleRate] of [new AudioContext({ sampleRate: 24000 })] *)
Definition context_sampleRate : Z := 24000.

(** [target.set(source, offset)] of a typed array: a [RangeError] when the
    source does not fit. *)
Definition typed_set (target source : list sample) (offset : nat)
  : result (list sample) :=
  if (offset + List.length source <=? List.length target)%nat
  then Ok (take offset target ++ source
             ++ drop (offset + List.length source) target)
  else Throw RangeError.

(** The channel views of an [AudioBuffer] are live: storing into the view
    [getChannelData] returned changes the buffer. *)
Definition setChannelData (b : AudioBuffer.t) (channel : nat) (ch : list sample)
  : AudioBuffer.t :=
  AudioBuffer.mk (AudioBuffer.sampleRate b) (AudioBuffer.length b)
    (<[channel := ch]> (AudioBuffer.channelData b)).

Definition concatAudioBuffers (buffers : list AudioBuffer.t)
    (context : AudioContext) : result AudioBuffer.t :=
  match buffers with
  | [] => createBuffer context 1 1 context_sampleRate
  | [only] => Ok only
  | first :: _ =>
      let totalLength :=
        fold_left (fun acc buffer => (acc + AudioBuffer.length buffer)%nat)
          buffers 0%nat in
      let numberOfChannels := AudioBuffer.numberOfChannels first in
      let sampleRate := AudioBuffer.sampleRate first in
      (result <- createBuffer context numberOfChannels
                   (inject_Z (Z.of_nat totalLength)) sampleRate ;;
       rfold
         (fun result channel =>
            channelData <- getChannelData result channel ;;
            filled <-
              rfold
                (fun '(channelData, offset) buffer =>
                   source <- getChannelData buffer channel ;;
                   channelData <- typed_set channelData source offset ;;
                   Ok (channelData, (offset + AudioBuffer.length buffer)%nat))
                buffers (channelData, 0%nat) ;;
            Ok (setChannelData result channel (fst filled)))
         (seq 0 numberOfChannels) result)%R
  end.

(** *** [bufferToWav] (part_003, lines 53-103)

    The [DataView] is the list of its bytes; every store checks its bounds
    first and throws a [RangeError] outside them. *)

Fixpoint le_bytes (n : nat) (v : Z) : list Z :=
  match n with
  | O => []
  | S n' => v mod 256 :: le_bytes n' (v / 256)
  end.

Fixpoint store (view : list Z) (pos : nat) (bytes : list Z) : list Z :=
  match bytes with
  | [] => view
  | b :: rest => store (<[pos := b]> view) (S pos) rest
  end.

Definition set_le (n : nat) (view : list Z) (pos : nat) (v : Z)
  : result (list Z) :=
  if (pos + n <=? List.length view)%nat
  then Ok (store view pos (le_bytes n v))
  else Throw RangeError.

Definition setUint8 (view : list Z) (pos : nat) (v : Z) := set_le 1 view pos (v mod 2 ^ 8).
Definition setUint16 (view : list Z) (pos : nat) (v : Z) := set_le 2 view pos (v mod 2 ^ 16).
Definition setUint32 (view : list Z) (pos : nat) (v : Z) := set_le 4 view pos (v mod 2 ^ 32).
Definition setInt16 (view : list Z) (pos : nat) (v : Z) := set_le 2 view pos (v mod 2 ^ 16).

(** The helper [writeString]. *)
Definition writeString (view : list Z) (offset : nat) (s : text)
  : result (list Z) :=
  rfold (fun view i =>
           match s !! i with
           | Some c => setUint8 view (offset + i) (Z.of_N c)
           | None => Ok view
           end)
    (seq 0 (List.length s)) view.

(** [channels[i][offset]]; [undefined] outside the channel, which
    [Math.min] turns into [NaN]. *)
Definition channel_sample (channels : list (list sample)) (i offset : nat)
  : sample :=
  match channels !! i with
  | Some ch => match ch !! offset with Some s => s | None => NaN end
  | None => NaN
  end.

(** Lines 95-96: clamp, scale, convert to a 32-bit integer. *)
Definition quantize (s : sample) : Z :=
  let sample := JS.Math_max (-1) (JS.Math_min 1 s) in
  JS.ToInt32 (if JS.is_negative sample
              then JS.times sample 32768
              else JS.times sample 32767).

(** [while (pos < length) { for (i ...) {...} offset++ }].  The recursion
    is on [fuel]; [None] is the answer of a loop that has not finished
    when the fuel is spent. *)
Fixpoint write_samples (fuel : nat) (channels : list (list sample))
    (numOfChan length : nat) (view : list Z) (pos offset : nat)
  : option (result (list Z)) :=
  match fuel with
  | O => None
  | S fuel' =>
      if (pos <? length)%nat then
        match rfold
                (fun '(view, pos) i =>
                   view <- setInt16 view pos (quantize (channel_sample channels i offset)) ;;
                   Ok (view, (pos + 2)%nat))%R
                (seq 0 numOfChan) (view, pos) with
        | Throw e => Some (Throw e)
        | Ok (view', pos') =>
            write_samples fuel' channels numOfChan length view' pos' (S offset)
        end
      else Some (Ok view)
  end.

Definition wav_header (buffer : AudioBuffer.t) (numOfChan length : nat)
    (bufferView : list Z) : result (list Z * nat) :=
  (let pos := 0%nat in
   v <- writeString bufferView pos (js "RIFF") ;; let pos := (pos + 4)%nat in
   v <- setUint32 v pos (Z.of_nat length - 8) ;; let pos := (pos + 4)%nat in
   v <- writeString v pos (js "WAVE") ;; let pos := (pos + 4)%nat in
   v <- writeString v pos (js "fmt ") ;; let pos := (pos + 4)%nat in
   v <- setUint32 v pos 16 ;; let pos := (pos + 4)%nat in
   v <- setUint16 v pos 1 ;; let pos := (pos + 2)%nat in
   v <- setUint16 v pos (Z.of_nat numOfChan) ;; let pos := (pos + 2)%nat in
   v <- setUint32 v pos (AudioBuffer.sampleRate buffer) ;; let pos := (pos + 4)%nat in
   v <- setUint32 v pos (AudioBuffer.sampleRate buffer * 2 * Z.of_nat numOfChan) ;;
   let pos := (pos + 4)%nat in
   v <- setUint16 v pos (Z.of_nat numOfChan * 2) ;; let pos := (pos + 2)%nat in
   v <- setUint16 v pos 16 ;; let pos := (pos + 2)%nat in
   v <- writeString v pos (js "data") ;; let pos := (pos + 4)%nat in
   v <- setUint32 v pos (Z.of_nat length - Z.of_nat pos - 4) ;; let pos := (pos + 4)%nat in
   Ok (v, pos))%R.

(** The bytes of the [Blob] returned. *)
Definition bufferToWav (buffer : AudioBuffer.t) : option (result (list Z)) :=
  let numOfChan := AudioBuffer.numberOfChannels buffer in
  let length := (AudioBuffer.length buffer * numOfChan * 2 + 44)%nat in
  let bufferView := replicate length 0 in
  match wav_header buffer numOfChan length bufferView with
  | Throw e => Some (Throw e)
  | Ok (v, pos) =>
      let channels := AudioBuffer.channelData buffer in
      write_samples (S (AudioBuffer.length buffer)) channels numOfChan length v pos 0
  end.

(** *** Reading a WAV header back (the statement side of the round trip) *)

Definition read_le (n : nat) (bytes : list Z) (pos : nat) : option Z :=
  let field := take n (drop pos bytes) in
  if (List.length field =? n)%nat
  then Some (foldr (fun b acc => b + 256 * acc) 0 field)
  else None.

Record WavHeader := {
  wav_riffSize : Z;      (* bytes after the size field of the RIFF chunk *)
  wav_channels : Z;
  wav_sampleRate : Z;
  wav_byteRate : Z;
  wav_blockAlign : Z;
  wav_bitsPerSample : Z;
  wav_dataSize : Z;
  wav_sampleCount : Z;   (* samples over all channels *)
  wav_frames : Z         (* samples per channel *)
}.

(** The reader of a canonical header: the four tags in their places, a
    format chunk of 16 bytes, the PCM format; every field is read. *)
Definition parseWavHeader (bytes : list Z) : option WavHeader :=
  if negb (bool_decide (take 4 bytes = map Z.of_N (js "RIFF"))) then None
  else if negb (bool_decide (take 4 (drop 8 bytes) = map Z.of_N (js "WAVE"))) then None
  else if negb (bool_decide (take 4 (drop 12 bytes) = map Z.of_N (js "fmt "))) then None
  else if negb (bool_decide (take 4 (drop 36 bytes) = map Z.of_N (js "data"))) then None
  else
    riffSize ← read_le 4 bytes 4;
    fmtSize ← read_le 4 bytes 16;
    format ← read_le 2 bytes 20;
    channels ← read_le 2 bytes 22;
    rate ← read_le 4 bytes 24;
    byteRate ← read_le 4 bytes 28;
    blockAlign ← read_le 2 bytes 32;
    bits ← read_le 2 bytes 34;
    dataSize ← read_le 4 bytes 40;
    if negb (fmtSize =? 16) || negb (format =? 1) then None
    else Some {| wav_riffSize := riffSize;
                 wav_channels := channels;
                 wav_sampleRate := rate;
                 wav_byteRate := byteRate;
                 wav_blockAlign := blockAlign;
                 wav_bitsPerSample := bits;
                 wav_dataSize := dataSize;
                 wav_sampleCount := dataSize / (bits / 8);
                 wav_frames := dataSize / blockAlign |}.

End Audio.

(** ** Double-precision arithmetic of the progress percentage

    [Math.round(((i + 1) / textChunks.length) * 100)] is computed on
    Numbers, that is in IEEE 754 binary64 with rounding to nearest, ties to
    even.  Only positive values in the normal range occur (a quotient of two
    positive array indices, then its product by 100), so a double is kept as
    a mantissa and an exponent, and each operation is the exact rational
    result rounded to 53 significant bits. *)

Module Float64.

(** The positive double [mant * 2 ^ expo]. *)
Record t := mk { mant : Z; expo : Z }.

(** Its value as the fraction [num / den]. *)
Definition num (x : t) : Z := mant x * 2 ^ Z.max 0 (expo x).
Definition den (x : t) : Z := 2 ^ Z.max 0 (- expo x).

(** The integer nearest to [a / b], ties to even ([0 <= a], [0 < b]). *)
Definition round_half_even (a b : Z) : Z :=
  let q := a / b in
  let r := a mod b in
  if 2 * r <? b then q
  else if b <? 2 * r then q + 1
  else if Z.even q then q else q + 1.

(** The exponent [g] with [2 ^ g <= a / b < 2 ^ (g + 1)] ([0 < a], [0 < b]). *)
Definition binade (a b : Z) : Z :=
  let d := Z.log2 a - Z.log2 b in
  if a * 2 ^ Z.max 0 (- d) <? b * 2 ^ Z.max 0 d then d - 1 else d.

(** The double nearest to [a / b]: 53 significant bits. *)
Definition nearest (a b : Z) : t :=
  let e := binade a b - 52 in
  mk (round_half_even (a * 2 ^ Z.max 0 (- e)) (b * 2 ^ Z.max 0 e)) e.

(** An integer as a Number (exact below [2 ^ 53]). *)
Definition of_int (z : Z) : t := nearest z 1.

Definition div (x y : t) : t := nearest (num x * den y) (den x * num y).
Definition mul (x y : t) : t := nearest (num x * num y) (den x * den y).

(** [Math.round]: the nearest integer, ties towards positive infinity. *)
Definition Math_round (x : t) : Z := (2 * num x + den x) / (2 * den x).

(** [Math.round((completed / total) * 100)] *)
Definition percent (completed total : nat) : Z :=
  Math_round (mul (div (of_int (Z.of_nat completed)) (of_int (Z.of_nat total)))
                (of_int 100)).

(** [round(100 * completed / total)] on exact rationals, ties upwards
    (the statement side). *)
Definition exact_percent (completed total : nat) : Z :=
  (2 * 100 * Z.of_nat completed + Z.of_nat total) / (2 * Z.of_nat total).

End Float64.

(** ** Chapters *)

Module Status.
Inductive t := pending | converting | ready | error.

#[global] Instance eq_dec : EqDecision t.
Proof. solve_decision. Defined.
End Status.

Record Chapter := {
  id : string;
  title : string;
  pageNumber : Z;
  endPageNumber : Z;
  status : Status.t;
  audioBuffer : option AudioBuffer.t;
  error : option string;
  progress : option Z;
  duration : option Q
}.

(** ** Outline resolution ([processOutline] and [setupChapters]) *)

Module Outline.

(** A reference to a page object. *)
Record PDFRef := { num : Z; gen : Z }.

(** An explicit destination is an array whose element 0 should be the
    reference of the target page; [None] is a missing or falsy element. *)
Definition destination := list (option PDFRef).

(** [dest: string | any[] | null] *)
Inductive Dest :=
| Named (name : string)
| Explicit (d : destination).

#[warnings="-register-all"] Inductive OutlineItem :=
| Item (title : string) (dest : option Dest) (items : list OutlineItem).

(** What the parsing backend answers for one document. *)
Record PDFDocumentProxy := {
  numPages : Z;
  getOutline : result (option (list OutlineItem));
  getDestination : string -> result (option destination);
  getPageIndex : PDFRef -> result Z
}.

(** Lines 42-57: the page number of an entry, or [null]. *)
Definition resolvePageNumber (pdf : PDFDocumentProxy) (dest : option Dest)
  : option Z :=
  match dest with
  | None | Some (Named EmptyString) => None
  | Some d =>
      let attempt : result (option Z) :=
        (destination <- match d with
                        | Named name => getDestination pdf name
                        | Explicit arr => Ok (Some arr)
                        end ;;
         match destination with
         | Some (Some pageRef :: _) =>
             pageIndex <- getPageIndex pdf pageRef ;;
             Ok (Some (pageIndex + 1))
         | _ => Ok None
         end)%R in
      match attempt with
      | Ok pageNumber => pageNumber
      | Throw _ => None
      end
  end.

(** [processOutline]: the entries with a page, depth first, in the order
    of the outline. *)
Fixpoint processItem (pdf : PDFDocumentProxy) (item : OutlineItem)
  : list (string * Z) :=
  match item with
  | Item title dest items =>
      let own :=
        match resolvePageNumber pdf dest with
        | Some pageNumber => [(title, pageNumber)]
        | None => []
        end in
      own ++ (fix processItems (l : list OutlineItem) : list (string * Z) :=
                match l with
                | [] => []
                | sub :: rest => processItem pdf sub ++ processItems rest
                end) items
  end.

Definition processOutline (pdf : PDFDocumentProxy) (outlineItems : list OutlineItem)
  : list (string * Z) :=
  flat_map (processItem pdf) outlineItems.

(** Lines 164-166. *)
Definition computeEndPage (numPages : Z) (processedOutline : list (string * Z))
    (index : nat) : Z :=
  match processedOutline !! S index with
  | Some next => snd next - 1
  | None => numPages
  end.

(** Lines 163-173.  [uuid index] is the value [crypto.randomUUID()]
    returns at the call for the entry [index]. *)
Definition chapterList (uuid : nat -> string) (numPages : Z)
    (processedOutline : list (string * Z)) : list Chapter :=
  filter (fun ch => pageNumber ch <= endPageNumber ch)
    (imap (fun index chapter =>
             {| id := uuid index;
                title := fst chapter;
                pageNumber := snd chapter;
                endPageNumber := computeEndPage numPages processedOutline index;
                status := Status.pending;
                audioBuffer := None;
                error := None;
                progress := None;
                duration := None |})
       processedOutline).

Definition NoOutlineMessage : string :=
  "Ce PDF n'a pas de plan (table des matières). Impossible de le diviser en chapitres.".

(** [setupChapters] once the document is open: the error shown, or the
    chapter list. *)
Definition setupChapters (uuid : nat -> string) (pdf : PDFDocumentProxy)
  : string + list Chapter :=
  match getOutline pdf with
  | Throw err =>
      inl (errorMessage "Une erreur est survenue lors de l'analyse du PDF." err)
  | Ok None | Ok (Some []) => inl NoOutlineMessage
  | Ok (Some rawOutline) =>
      inr (chapterList uuid (numPages pdf) (processOutline pdf rawOutline))
  end.

End Outline.

(** ** The conversion orchestrator ([convertChapter], lines 188-245) *)

Module Orchestrator.

(** What the collaborators answer.  The text extraction and the speech
    backend are asked over time and may answer differently each time:
    their answer is a function of the number of calls made before.
    [atob] is a function of its argument.  [refsReady] tells that the
    document, the speech client and the audio context are in place
    (the guard of line 189); [audioContext] is that audio context. *)
Record Env := {
  refsReady : bool;
  audioContext : Audio.AudioContext;
  getTextForPageRange : nat -> Z -> Z -> result text;
  generateContent : nat -> text -> result (option text);
  atob : text -> result text
}.

(** What can be observed of a run, in order: an attempt starting, a call
    to the extraction, a request to the speech backend, a state of the
    chapter list committed by [setChapters]. *)
Inductive event :=
| Started (chapterId : string)
| Extracted (startPageNum endPageNum : Z)
| Requested (prompt : text)
| Rendered (chapters : list Chapter).

Record World := {
  chapters : list Chapter;
  clock : nat;
  trace : list event
}.

(** Computations that read and change the world and may throw; what was
    done before a throw stays done. *)
Definition M (A : Type) : Type := World -> result A * World.

Definition ret {A} (a : A) : M A := fun w => (Ok a, w).
Definition throw {A} (e : thrown) : M A := fun w => (Throw e, w).
Definition lift {A} (r : result A) : M A := fun w => (r, w).
Definition bind {A B} (m : M A) (k : A -> M B) : M B :=
  fun w =>
    match m w with
    | (Ok a, w') => k a w'
    | (Throw e, w') => (Throw e, w')
    end.

Declare Scope io_scope.
Delimit Scope io_scope with IO.
Notation "x <- m ;; k" := (bind m (fun x => k))
  (at level 100, m at next level, right associativity) : io_scope.
Notation "m ;; k" := (bind m (fun _ => k))
  (at level 100, right associativity) : io_scope.

Definition record (e : event) : M unit :=
  fun w => (Ok tt, {| chapters := chapters w; clock := clock w; trace := trace w ++ [e] |}).

(** One call to a collaborator: its answer is that of the current clock. *)
Definition ask {A} (answer : nat -> result A) : M A :=
  fun w =>
    (answer (clock w),
     {| chapters := chapters w; clock := S (clock w); trace := trace w |}).

(** [setChapters(prev => f(prev))] *)
Definition setChapters (f : list Chapter -> list Chapter) : M unit :=
  fun w =>
    (Ok tt,
     {| chapters := f (chapters w);
        clock := clock w;
        trace := trace w ++ [Rendered (f (chapters w))] |}).

(** [prev.map(c => c.id === chapterId ? f(c) : c)] *)
Definition updateChapter (chapterId : string) (f : Chapter -> Chapter)
    (prev : list Chapter) : list Chapter :=
  map (fun c => if decide (id c = chapterId) then f c else c) prev.

(** The four object spreads of [convertChapter]. *)
Definition markConverting (c : Chapter) : Chapter :=
  {| id := id c; title := title c; pageNumber := pageNumber c;
     endPageNumber := endPageNumber c;
     status := Status.converting;
     audioBuffer := audioBuffer c;
     error := None;
     progress := Some 0;
     duration := duration c |}.

Definition markReady (buffer : option AudioBuffer.t) (seconds : Q) (c : Chapter)
  : Chapter :=
  {| id := id c; title := title c; pageNumber := pageNumber c;
     endPageNumber := endPageNumber c;
     status := Status.ready;
     audioBuffer := buffer;
     error := error c;
     progress := progress c;
     duration := Some seconds |}.

Definition markProgress (percent : Z) (c : Chapter) : Chapter :=
  {| id := id c; title := title c; pageNumber := pageNumber c;
     endPageNumber := endPageNumber c;
     status := status c;
     audioBuffer := audioBuffer c;
     error := error c;
     progress := Some percent;
     duration := duration c |}.

Definition markError (errorMessage : string) (c : Chapter) : Chapter :=
  {| id := id c; title := title c; pageNumber := pageNumber c;
     endPageNumber := endPageNumber c;
     status := Status.error;
     audioBuffer := audioBuffer c;
     error := Some errorMessage;
     progress := progress c;
     duration := duration c |}.

(** [String.prototype.trim] strips white space and line terminators. *)
Definition is_whitespace (c : codeunit) : bool :=
  (((9 <=? c) && (c <=? 13)) || (c =? 32) || (c =? 160) || (c =? 5760)
   || ((8192 <=? c) && (c <=? 8202)) || (c =? 8232) || (c =? 8233)
   || (c =? 8239) || (c =? 8287) || (c =? 12288) || (c =? 65279))%N.

Fixpoint trimStart (t : text) : text :=
  match t with
  | [] => []
  | c :: rest => if is_whitespace c then trimStart rest else t
  end.

Definition trim (t : text) : text :=
  reverse (trimStart (reverse (trimStart t))).

(** The template literal of line 217, in code units ([224] and [231] are
    the accented letters, [34] the double quote). *)
Definition prompt (chunk : text) : text :=
  js "Lis ce texte " ++ [224%N] ++ js " voix haute en fran" ++ [231%N]
    ++ js "ais avec une intonation naturelle : " ++ [34%N] ++ chunk ++ [34%N].

Definition NoAudioData : thrown :=
  ErrorObj "No audio data received from API for chunk.".

(** Lines 228-231 for one answer of the backend: the audio of one chunk,
    or what is thrown. *)
Definition audioOfResponse (env : Env) (response : result (option text))
  : result AudioBuffer.t :=
  (inlineData <- response ;;
   base64Audio <- match inlineData with
                  | None | Some [] => Throw NoAudioData
                  | Some data => Ok data
                  end ;;
   bytes <- Audio.decode (atob env) base64Audio ;;
   Audio.decodeAudioData bytes (audioContext env) 24000 1)%R.

(** The loop of lines 215-235, from chunk [i] on. *)
Fixpoint synthesizeChunks (env : Env) (chapterId : string) (total : nat)
    (i : nat) (chunks : list text) (audioBuffers : list AudioBuffer.t)
  : M (list AudioBuffer.t) :=
  match chunks with
  | [] => ret audioBuffers
  | chunk :: rest =>
      (record (Requested (prompt chunk)) ;;
       audioBuffer <-
         ask (fun now => audioOfResponse env (generateContent env now (prompt chunk))) ;;
       setChapters
         (updateChapter chapterId (markProgress (Float64.percent (S i) total))) ;;
       synthesizeChunks env chapterId total (S i) rest (audioBuffers ++ [audioBuffer]))%IO
  end.

Definition optionOfResult {A} (r : result A) : option A :=
  match r with
  | Ok a => Some a
  | Throw _ => None
  end.

(** The [try] block, lines 194-238. *)
Definition tryBlock (env : Env) (chapter : Chapter) : M unit :=
  (record (Extracted (pageNumber chapter) (endPageNumber chapter)) ;;
   text <- ask (fun now =>
                  getTextForPageRange env now (pageNumber chapter) (endPageNumber chapter)) ;;
   match trim text with
   | [] =>
       setChapters
         (updateChapter (id chapter)
            (markReady
               (optionOfResult (Audio.createBuffer (audioContext env) 1 1 24000)) 0))
   | _ :: _ =>
       let textChunks := Chunker.chunkText Chunker.TEXT_CHUNK_SIZE text in
       audioBuffers <-
         synthesizeChunks env (id chapter) (List.length textChunks) 0 textChunks [] ;;
       finalBuffer <- lift (Audio.concatAudioBuffers audioBuffers (audioContext env)) ;;
       setChapters
         (updateChapter (id chapter)
            (markReady (Some finalBuffer) (AudioBuffer.duration finalBuffer)))
   end)%IO.

(** [convertChapter] from its call to its end, when nothing else happens
    meanwhile: the guard, the first update, the [try] block and its
    [catch]. *)
Definition convertChapter (env : Env) (chapter : Chapter) (w : World) : World :=
  if negb (refsReady env) then w
  else
    let '(_, w) := record (Started (id chapter)) w in
    let '(_, w) := setChapters (updateChapter (id chapter) markConverting) w in
    match tryBlock env chapter w with
    | (Ok _, w) => w
    | (Throw err, w) =>
        let message := errorMessage "An unknown error occurred." err in
        snd (setChapters (updateChapter (id chapter) (markError message)) w)
    end.

End Orchestrator.

(** ** The bulk scheduler and the retry button ([src/App.tsx]) *)

Module Scheduler.
Import Orchestrator.

(** [Array.prototype.sort] with [(a, b) => a.pageNumber - b.pageNumber]:
    a stable sort by page number.  Insertion from the right, a new
    element going before the first one that is not smaller, is stable. *)
Fixpoint insertByPage (c : Chapter) (sorted : list Chapter) : list Chapter :=
  match sorted with
  | [] => [c]
  | d :: rest =>
      if pageNumber c <=? pageNumber d then c :: sorted
      else d :: insertByPage c rest
  end.

Fixpoint sortByPage (l : list Chapter) : list Chapter :=
  match l with
  | [] => []
  | c :: rest => insertByPage c (sortByPage rest)
  end.

(** Lines 109-111. *)
Definition chaptersToConvert (chapters : list Chapter)
    (selectedChapterIds : gset string) : list Chapter :=
  sortByPage (filter (fun c => id c ∈ selectedChapterIds) chapters).

(** The test of line 114, on the chapter object of the queue. *)
Definition convertible (chapter : Chapter) : bool :=
  match status chapter with
  | Status.ready | Status.converting => false
  | Status.pending | Status.error => true
  end.

(** The loop of lines 113-117, when nothing else happens meanwhile: each
    [await] lets the attempt run to its end before the next iteration. *)
Definition convertQueue (env : Env) (queue : list Chapter) (w : World) : World :=
  fold_left
    (fun w chapter => if convertible chapter then convertChapter env chapter w else w)
    queue w.

(** [handleConvertSelected]; [chapters] is the list the handler closed
    over, the one of the last render. *)
Definition handleConvertSelected (env : Env) (selectedChapterIds : gset string)
    (w : World) : World :=
  convertQueue env (chaptersToConvert (chapters w) selectedChapterIds) w.

(** [handleRetry] *)
Definition handleRetry (env : Env) (chapterId : string) (w : World) : World :=
  match List.find (fun c => bool_decide (id c = chapterId)) (chapters w) with
  | Some chapter => convertChapter env chapter w
  | None => w
  end.

(** What the user can do to start conversions.  The retry button of a
    chapter is rendered only while its status is [error]
    ([PlayerControls.tsx], lines 66-78); any set of ids may be selected
    when the bulk button is pressed. *)
Inductive action :=
| Retry (chapterId : string)
| ConvertSelected (selectedChapterIds : gset string).

Definition retryOffered (chapterId : string) (w : World) : bool :=
  bool_decide (Exists (fun c => id c = chapterId /\ status c = Status.error) (chapters w)).

Definition perform (env : Env) (a : action) (w : World) : World :=
  match a with
  | Retry chapterId =>
      if retryOffered chapterId w then handleRetry env chapterId w else w
  | ConvertSelected selectedChapterIds =>
      handleConvertSelected env selectedChapterIds w
  end.

(** The handlers run one after the other, each to its end before the next
    button is pressed (overlapping handlers are those of [Session] below). *)
Definition run (env : Env) (actions : list action) (w : World) : World :=
  fold_left (fun w a => perform env a w) actions w.

Definition loaded (chapterList : list Chapter) : World :=
  {| chapters := chapterList; clock := 0; trace := [Rendered chapterList] |}.

(** The chapter lists committed along a trace. *)
Definition rendered (tr : list event) : list (list Chapter) :=
  omap (fun e => match e with Rendered chs => Some chs | _ => None end) tr.

(** The requests made to the speech backend along a trace. *)
Definition requested (tr : list event) : list text :=
  omap (fun e => match e with Requested p => Some p | _ => None end) tr.

(** The attempts started along a trace. *)
Definition started (tr : list event) : list string :=
  omap (fun e => match e with Started i => Some i | _ => None end) tr.

End Scheduler.

(** ** Handlers in flight

    [convertChapter] and [handleConvertSelected] are asynchronous: at each
    [await] of a collaborator (the text of line 194, the speech of line 219)
    the handler is suspended, and the user may press another button before
    it resumes.  The bulk button is disabled while a bulk run is in flight
    ([PlayerControls.tsx], line 151); the retry buttons are not.  The
    [await] of [decodeAudioData], which resumes without waiting for anything
    from outside, is not a point of suspension here. *)

Module Session.
Import Orchestrator Scheduler.

(** Where an attempt is suspended: before the text arrives, or before the
    speech of the chunk [i] does, [rest] being the chunks still to come. *)
Inductive attempt :=
| AwaitText (chapter : Chapter)
| AwaitSpeech (chapterId : string) (total i : nat) (chunk : text)
    (rest : list text) (audioBuffers : list AudioBuffer.t).

Definition note (e : event) (w : World) : World := snd (record e w).

Definition commit (chapterId : string) (f : Chapter -> Chapter) (w : World)
  : World :=
  snd (setChapters (updateChapter chapterId f) w).

(** The [catch] block. *)
Definition caught (chapterId : string) (err : thrown) (w : World) : World :=
  commit chapterId (markError (errorMessage "An unknown error occurred." err)) w.

(** The head of the loop of lines 215-235 and what follows the loop: the
    request for the next chunk is sent and the attempt suspended, or the
    buffers are joined and the attempt is over. *)
Definition nextChunk (env : Env) (chapterId : string) (total i : nat)
    (chunks : list text) (audioBuffers : list AudioBuffer.t) (w : World)
  : option attempt * World :=
  match chunks with
  | [] =>
      (None,
       match Audio.concatAudioBuffers audioBuffers (audioContext env) with
       | Ok finalBuffer =>
           commit chapterId
             (markReady (Some finalBuffer) (AudioBuffer.duration finalBuffer)) w
       | Throw err => caught chapterId err w
       end)
  | chunk :: rest =>
      (Some (AwaitSpeech chapterId total i chunk rest audioBuffers),
       note (Requested (prompt chunk)) w)
  end.

(** [convertChapter] up to its first [await]. *)
Definition start (env : Env) (chapter : Chapter) (w : World)
  : option attempt * World :=
  if negb (refsReady env) then (None, w)
  else
    (Some (AwaitText chapter),
     note (Extracted (pageNumber chapter) (endPageNumber chapter))
       (commit (id chapter) markConverting (note (Started (id chapter)) w))).

(** [convertChapter] from the answer it was waiting for to its next
    [await], or to its end. *)
Definition resume (env : Env) (a : attempt) (w : World) : option attempt * World :=
  match a with
  | AwaitText chapter =>
      match ask (fun now =>
                   getTextForPageRange env now (pageNumber chapter)
                     (endPageNumber chapter)) w with
      | (Ok text, w) =>
          match trim text with
          | [] =>
              (None,
               commit (id chapter)
                 (markReady
                    (optionOfResult (Audio.createBuffer (audioContext env) 1 1 24000))
                    0) w)
          | _ :: _ =>
              let textChunks := Chunker.chunkText Chunker.TEXT_CHUNK_SIZE text in
              nextChunk env (id chapter) (List.length textChunks) 0 textChunks [] w
          end
      | (Throw err, w) => (None, caught (id chapter) err w)
      end
  | AwaitSpeech chapterId total i chunk rest audioBuffers =>
      match ask (fun now =>
                   audioOfResponse env (generateContent env now (prompt chunk))) w with
      | (Ok audioBuffer, w) =>
          nextChunk env chapterId total (S i) rest (audioBuffers ++ [audioBuffer])
            (commit chapterId (markProgress (Float64.percent (S i) total)) w)
      | (Throw err, w) => (None, caught chapterId err w)
      end
  end.

(** A handler in flight: the attempt of a retry, or a bulk run with its
    current attempt and the chapters of its queue still to come.  The
    queue holds the chapter objects of the render the handler closed over:
    their status is the one they had when the button was pressed. *)
Inductive handler :=
| RetryTask (a : attempt)
| BulkTask (a : attempt) (queue : list Chapter).

(** The loop of [handleConvertSelected] from one [await] to the next. *)
Fixpoint nextInQueue (env : Env) (queue : list Chapter) (w : World)
  : option handler * World :=
  match queue with
  | [] => (None, w)
  | chapter :: rest =>
      if convertible chapter then
        match start env chapter w with
        | (Some a, w) => (Some (BulkTask a rest), w)
        | (None, w) => nextInQueue env rest w
        end
      else nextInQueue env rest w
  end.

Record t := {
  world : World;
  inFlight : list handler
}.

(** What happens next: the user presses a button, or the answer the
    handler [k] in flight is waiting for arrives. *)
Inductive input :=
| Press (a : action)
| Resolve (k : nat).

Definition isBulkConverting (s : t) : bool :=
  existsb (fun handler => match handler with BulkTask _ _ => true | RetryTask _ => false end)
    (inFlight s).

Definition settle (k : nat) (next : option handler) (s : list handler) : list handler :=
  match next with
  | Some handler => <[k := handler]> s
  | None => delete k s
  end.

Definition step (env : Env) (s : t) (i : input) : t :=
  match i with
  | Press (Retry chapterId) =>
      if retryOffered chapterId (world s) then
        match List.find (fun c => bool_decide (id c = chapterId))
                (chapters (world s)) with
        | Some chapter =>
            match start env chapter (world s) with
            | (Some a, w) => {| world := w; inFlight := inFlight s ++ [RetryTask a] |}
            | (None, w) => {| world := w; inFlight := inFlight s |}
            end
        | None => s
        end
      else s
  | Press (ConvertSelected selectedChapterIds) =>
      if isBulkConverting s then s
      else
        match nextInQueue env
                (chaptersToConvert (chapters (world s)) selectedChapterIds)
                (world s) with
        | (Some handler, w) => {| world := w; inFlight := inFlight s ++ [handler] |}
        | (None, w) => {| world := w; inFlight := inFlight s |}
        end
  | Resolve k =>
      match inFlight s !! k with
      | None => s
      | Some (RetryTask a) =>
          match resume env a (world s) with
          | (next, w) =>
              {| world := w;
                 inFlight := settle k (RetryTask <$> next) (inFlight s) |}
          end
      | Some (BulkTask a queue) =>
          match resume env a (world s) with
          | (Some a, w) =>
              {| world := w; inFlight := <[k := BulkTask a queue]> (inFlight s) |}
          | (None, w) =>
              match nextInQueue env queue w with
              | (next, w) => {| world := w; inFlight := settle k next (inFlight s) |}
              end
          end
      end
  end.

Definition play (env : Env) (inputs : list input) (s : t) : t :=
  fold_left (step env) inputs s.

Definition opened (chapterList : list Chapter) : t :=
  {| world := loaded chapterList; inFlight := [] |}.

End Session.

(** ** A sample session

    A document of 12 pages whose outline, with one nested entry, resolves to
    the pages 1, 5 and 10; the first chapter has no text, the second three
    long sentences (three chunks), the third two short ones.  The speech
    backend answers every request but the one made at the time [failAt]. *)

Module Samples.
Import Outline Orchestrator Scheduler Session.

Definition sample_pdf : PDFDocumentProxy :=
  {| numPages := 12;
     getOutline :=
       Ok (Some [Item "Un" (Some (Explicit [Some {| num := 1; gen := 0 |}]))
                   [Item "Deux" (Some (Named "deux")) []];
                 Item "Trois" (Some (Explicit [Some {| num := 10; gen := 0 |}])) []]);
     getDestination := fun _ => Ok (Some [Some {| num := 5; gen := 0 |}]);
     getPageIndex := fun pageRef => Ok (num pageRef - 1) |}.

Definition sample_outline : list OutlineItem :=
  match getOutline sample_pdf with
  | Ok (Some items) => items
  | _ => []
  end.

(** Identifiers that differ from one call to the next. *)
Fixpoint sample_uuid (index : nat) : string :=
  match index with
  | O => "x"
  | S n => String "i" (sample_uuid n)
  end.

Definition sample_chapters : list Chapter :=
  chapterList sample_uuid (numPages sample_pdf)
    (processOutline sample_pdf sample_outline).

Definition chapter_at (index : nat) : Chapter :=
  match sample_chapters !! index with
  | Some c => c
  | None =>
      {| id := ""; title := ""; pageNumber := 0; endPageNumber := 0;
         status := Status.pending; audioBuffer := None; error := None;
         progress := None; duration := None |}
  end.

(** Four pages without text: the extraction ends every page with a line
    feed. *)
Definition blank_pages : text := [10%N; 10%N; 10%N; 10%N].

(** A sentence of 3000 characters, and a page of three of them. *)
Definition long_sentence : text := replicate 2999 97%N ++ [46%N].

Definition long_text : text :=
  long_sentence ++ long_sentence ++ long_sentence ++ [10%N].

(** An implementation that takes the rates from 3000 to 768000 Hz and no
    more than 32 channels. *)
Definition sample_context : Audio.AudioContext :=
  {| Audio.channelLimit := 32; Audio.lowestRate := 3000;
     Audio.highestRate := 768000 |}.

Definition sample_env (failAt : nat) : Env :=
  {| refsReady := true;
     audioContext := sample_context;
     getTextForPageRange :=
       fun _ startPageNum _ =>
         if startPageNum =? 1 then Ok blank_pages
         else if startPageNum =? 5 then Ok long_text
         else Ok (js "Bonjour. Au revoir." ++ [10%N]);
     generateContent :=
       fun now _ => if (now =? failAt)%nat then Ok None else Ok (Some (js "AID/fw=="));
     atob := fun _ => Ok [0%N; 128%N; 255%N; 127%N] |}.

Definition sample_world : World := loaded sample_chapters.

(** Forty sentences of 2001 characters, no two of which fit in a chunk,
    and a backend that reads all of them. *)
Definition forty_sentences : text :=
  concat (replicate 40 (replicate 2000 97%N ++ [46%N])).

Definition long_env : Env :=
  {| refsReady := true;
     audioContext := sample_context;
     getTextForPageRange := fun _ _ _ => Ok forty_sentences;
     generateContent := fun _ _ => Ok (Some (js "AID/fw=="));
     atob := fun _ => Ok [0%N; 128%N; 255%N; 127%N] |}.

(** The third chapter fails in a first bulk run (the backend has no audio
    for the request made at the time 1).  It is then selected again with
    the first one; while the first one is converted, its retry button is
    pressed and its conversion succeeds; the bulk run then comes to it. *)
Definition overlapping_presses : list input :=
  [Press (ConvertSelected {["iix"]}); Resolve 0; Resolve 0;
   Press (ConvertSelected {["x"; "iix"]});
   Press (Retry "iix"); Resolve 1; Resolve 1;
   Resolve 0].

End Samples.

(** * Vocabulary of the properties *)

Module ChunkerDefs.
Import Chunker.

(** What a chunk may be: within the limit, or one sentence on its own. *)
Definition chunk_ok (limit : nat) (ss : list text) (chunk : text) : Prop :=
  (length chunk <= limit)%nat \/ (chunk ∈ ss /\ (limit < length chunk)%nat).

End ChunkerDefs.

Module OutlineDefs.
Import Outline.

(** The chapter made of the entry [index], before the filter. *)
Definition candidate (uuid : nat -> string) (numPages : Z)
    (entries : list (string * Z)) (index : nat) (entry : string * Z) : Chapter :=
  {| id := uuid index;
     title := fst entry;
     pageNumber := snd entry;
     endPageNumber :=
       match entries !! S index with
       | Some next => snd next - 1
       | None => numPages
       end;
     status := Status.pending;
     audioBuffer := None;
     error := None;
     progress := None;
     duration := None |}.

(** The page-ordered list of the specification: the entries in ascending
    order of page, entries on the same page in the order of the outline. *)
Fixpoint insertEntry (entry : string * Z) (sorted : list (string * Z))
  : list (string * Z) :=
  match sorted with
  | [] => [entry]
  | e :: rest =>
      if snd entry <=? snd e then entry :: sorted
      else e :: insertEntry entry rest
  end.

Definition pageOrdered (entries : list (string * Z)) : list (string * Z) :=
  foldr insertEntry [] entries.

(** What the specification says of a chapter: its title, its first page
    and its last page. *)
Definition span (c : Chapter) : string * Z * Z :=
  (title c, pageNumber c, endPageNumber c).

(** A document of 12 pages whose outline goes to the pages 5, 10 and 1,
    in this order. *)
Definition unordered_pdf : PDFDocumentProxy :=
  {| numPages := 12;
     getOutline :=
       Ok (Some [Item "A" (Some (Explicit [Some {| num := 5; gen := 0 |}])) [];
                 Item "B" (Some (Explicit [Some {| num := 10; gen := 0 |}])) [];
                 Item "C" (Some (Explicit [Some {| num := 1; gen := 0 |}])) []]);
     getDestination := fun _ => Ok None;
     getPageIndex := fun pageRef => Ok (num pageRef - 1) |}.

Definition unordered_outline : list OutlineItem :=
  match getOutline unordered_pdf with
  | Ok (Some items) => items
  | _ => []
  end.

End OutlineDefs.

Module DecoderDefs.
Import Audio.

(** The signed 16-bit little-endian value at sample position [k] of the
    bytes (the statement side). *)
Definition int16_at (data : list Z) (k : nat) : Z :=
  match data !! (2 * k)%nat, data !! (2 * k + 1)%nat with
  | Some lo, Some hi => to_int16 (lo + 256 * hi)
  | _, _ => 0
  end.

(** The buffer of [frames] frames read off the bytes, de-interleaved. *)
Definition deinterleaved (data : list Z) (sampleRate : Z)
    (numChannels frames : nat) : AudioBuffer.t :=
  AudioBuffer.mk sampleRate frames
    (map (fun channel =>
            map (fun i => Fin (int16_at data (i * numChannels + channel) # 32768))
              (seq 0 frames))
       (seq 0 numChannels)).

(** The stores of the inner loop, on the channel they go to. *)
Definition fill (v : nat -> sample) (n : nat) (c : list sample) : list sample :=
  fold_left (fun c i => <[i := v i]> c) (seq 0 n) c.

End DecoderDefs.

Module WavDefs.
Import Audio.

(** The 44 bytes of the canonical header, field by field: the tag
    [RIFF], the size of what follows it, the tags [WAVE] and [fmt ], the
    size 16 of the format chunk, the format 1 (PCM), the channel count, the
    sample rate, the byte rate (kept to its low 32 bits), the block
    alignment, 16 bits per sample, the tag [data] and the size of the
    data; numbers are little-endian. *)
Definition canonical_header (channels sampleRate dataSize : Z) : list Z :=
  map Z.of_N (js "RIFF") ++ le_bytes 4 (36 + dataSize)
    ++ map Z.of_N (js "WAVE")
    ++ map Z.of_N (js "fmt ") ++ le_bytes 4 16 ++ le_bytes 2 1
    ++ le_bytes 2 channels
    ++ le_bytes 4 sampleRate
    ++ le_bytes 4 ((sampleRate * channels * 2) mod 2 ^ 32)
    ++ le_bytes 2 (channels * 2)
    ++ le_bytes 2 16
    ++ map Z.of_N (js "data") ++ le_bytes 4 dataSize.

(** The container as the stores of [bufferToWav] build it, with every
    field reduced to its width. *)
Definition sample_bytes (s : sample) : list Z :=
  le_bytes 2 (quantize s mod 2 ^ 16).

Definition frame_bytes (channels : list (list sample)) (numOfChan offset : nat)
  : list Z :=
  flat_map (fun i => sample_bytes (channel_sample channels i offset))
    (seq 0 numOfChan).

Definition wav_header_bytes (sampleRate channels dataSize : Z) : list Z :=
  map Z.of_N (js "RIFF") ++ le_bytes 4 ((36 + dataSize) mod 2 ^ 32)
    ++ map Z.of_N (js "WAVE")
    ++ map Z.of_N (js "fmt ") ++ le_bytes 4 16 ++ le_bytes 2 1
    ++ le_bytes 2 (channels mod 2 ^ 16)
    ++ le_bytes 4 (sampleRate mod 2 ^ 32)
    ++ le_bytes 4 ((sampleRate * 2 * channels) mod 2 ^ 32)
    ++ le_bytes 2 ((channels * 2) mod 2 ^ 16)
    ++ le_bytes 2 16
    ++ map Z.of_N (js "data") ++ le_bytes 4 (dataSize mod 2 ^ 32).

Definition wav_bytes (b : AudioBuffer.t) : list Z :=
  let numOfChan := AudioBuffer.numberOfChannels b in
  wav_header_bytes (AudioBuffer.sampleRate b) (Z.of_nat numOfChan)
    (Z.of_nat (AudioBuffer.length b * numOfChan * 2))
    ++ flat_map (frame_bytes (AudioBuffer.channelData b) numOfChan)
         (seq 0 (AudioBuffer.length b)).

(** The quantization of the specification on a finite sample: clamp to
    [[-1, 1]], scale by 32768 below zero and by 32767 otherwise, drop the
    fraction. *)
Definition quantize_spec (q : Q) : Z :=
  let clamped := Qmax (-1) (Qmin 1 q) in
  let scaled :=
    (if Qlt_le_dec clamped 0 then clamped * 32768 else clamped * 32767)%Q in
  if Qlt_le_dec scaled 0 then Qceiling scaled else Qfloor scaled.

(** Two stereo frames: the left channel holds [1/2] and [-3/2], the right
    one [1] and [-1/4]. *)
Definition stereo_buffer : AudioBuffer.t :=
  AudioBuffer.mk 24000 2 [[Fin (1 # 2); Fin (-3 # 2)]; [Fin 1; Fin (-1 # 4)]].

End WavDefs.

Module Float64Defs.
Import Float64.

(** The powers of two a double's exponent stands for, above and below
    the point. *)
Definition up (e : Z) : Z := 2 ^ Z.max 0 e.
Definition dn (e : Z) : Z := 2 ^ Z.max 0 (- e).

(** [a / b] is at least [2 ^ g]; [a / b] is below [2 ^ g]. *)
Definition ge_pow (a b g : Z) : Prop := b * up g <= a * dn g.
Definition lt_pow (a b g : Z) : Prop := a * dn g < b * up g.

Definition normal (x : t) : Prop := 2 ^ 52 <= mant x <= 2 ^ 53.
Definition le (x y : t) : Prop := num x * den y <= num y * den x.

(** The same two operations in the binary64 format of the Standard
    Library's specification of IEEE 754 arithmetic, to compare with. *)
Definition ieee (m e : Z) : SpecFloat.spec_float :=
  SpecFloat.binary_normalize 53 1024 m e false.

Definition ieee_product (k n : Z) : SpecFloat.spec_float :=
  SpecFloat.SFmul 53 1024 (SpecFloat.SFdiv 53 1024 (ieee k 0) (ieee n 0))
    (ieee 100 0).

Definition agrees_with_ieee (k n : Z) : bool :=
  let x := mul (div (of_int k) (of_int n)) (of_int 100) in
  SpecFloat.SFeqb (ieee_product k n) (ieee (mant x) (expo x)).

End Float64Defs.

Module AttemptDefs.
Import Orchestrator Scheduler.

(** The updates [fs] applied in turn to the chapter [cid], and the chapter
    lists committed on the way. *)
Definition applyAll (cid : string) (fs : list (Chapter -> Chapter))
    (chs : list Chapter) : list Chapter :=
  fold_left (fun chs f => updateChapter cid f chs) fs chs.

Fixpoint states (cid : string) (fs : list (Chapter -> Chapter))
    (chs : list Chapter) : list (list Chapter) :=
  match fs with
  | [] => []
  | f :: rest =>
      let chs' := updateChapter cid f chs in
      chs' :: states cid rest chs'
  end.

(** What the speech backend and the decoder make of one chunk when asked
    at the time [now]. *)
Definition chunkOutcome (env : Env) (now : nat) (chunk : text)
  : result AudioBuffer.t :=
  audioOfResponse env (generateContent env now (prompt chunk)).

(** The progress updates after the chunks [i + 1] to [i + k] of [total]. *)
Definition progressUpdates (total i k : nat) : list (Chapter -> Chapter) :=
  map (fun j => markProgress (Float64.percent (i + j) total)) (seq 1 k).

Inductive outcome :=
| ExtractionFailed (e : thrown)
| Blank
| ChunkFailed (completed : nat) (e : thrown)
| Converted (finalBuffer : AudioBuffer.t)
| ConcatFailed (e : thrown).

Definition unknownError : string := "An unknown error occurred.".

(** The placeholder of line 196: one silent frame, mono, at 24000 Hz
    (every audio context makes it, see [createBuffer_placeholder]). *)
Definition placeholder : option AudioBuffer.t :=
  Some (AudioBuffer.mk 24000 1 [[Fin 0]]).

(** The updates of the chapter an outcome comes with, [total] being the
    number of chunks. *)
Definition updatesOf (total : nat) (o : outcome) : list (Chapter -> Chapter) :=
  markConverting ::
  match o with
  | ExtractionFailed e => [markError (errorMessage unknownError e)]
  | Blank => [markReady placeholder 0]
  | ChunkFailed completed e =>
      progressUpdates total 0 completed
        ++ [markError (errorMessage unknownError e)]
  | Converted finalBuffer =>
      progressUpdates total 0 total
        ++ [markReady (Some finalBuffer) (AudioBuffer.duration finalBuffer)]
  | ConcatFailed e =>
      progressUpdates total 0 total ++ [markError (errorMessage unknownError e)]
  end.

(** The requests to the speech backend an outcome comes with. *)
Definition requestsOf (chunks : list text) (o : outcome) : list text :=
  match o with
  | ExtractionFailed _ | Blank => []
  | ChunkFailed completed _ => map prompt (take (S completed) chunks)
  | Converted _ | ConcatFailed _ => map prompt chunks
  end.

(** The first [k] chunks are synthesized and decoded, from the time
    [now] on, into [buffers]. *)
Definition synthesized (env : Env) (now : nat) (chunks : list text) (k : nat)
    (buffers : list AudioBuffer.t) : Prop :=
  length buffers = k /\
  forall j, (j < k)%nat ->
    exists chunk b,
      chunks !! j = Some chunk /\ buffers !! j = Some b /\
      chunkOutcome env (now + j) chunk = Ok b.

(** When an outcome arises: what the collaborators must have answered to
    an attempt on [chapter] that starts at the time [now]. *)
Inductive arises (env : Env) (chapter : Chapter) (now : nat)
  : list text -> outcome -> Prop :=
| arises_extraction e :
    getTextForPageRange env now (pageNumber chapter) (endPageNumber chapter)
      = Throw e ->
    arises env chapter now [] (ExtractionFailed e)
| arises_blank t :
    getTextForPageRange env now (pageNumber chapter) (endPageNumber chapter)
      = Ok t ->
    trim t = [] ->
    arises env chapter now [] Blank
| arises_chunk t k buffers chunk e :
    getTextForPageRange env now (pageNumber chapter) (endPageNumber chapter)
      = Ok t ->
    trim t <> [] ->
    synthesized env (S now) (Chunker.chunkText Chunker.TEXT_CHUNK_SIZE t) k buffers ->
    Chunker.chunkText Chunker.TEXT_CHUNK_SIZE t !! k = Some chunk ->
    chunkOutcome env (S now + k) chunk = Throw e ->
    arises env chapter now (Chunker.chunkText Chunker.TEXT_CHUNK_SIZE t)
      (ChunkFailed k e)
| arises_converted t buffers finalBuffer :
    getTextForPageRange env now (pageNumber chapter) (endPageNumber chapter)
      = Ok t ->
    trim t <> [] ->
    synthesized env (S now) (Chunker.chunkText Chunker.TEXT_CHUNK_SIZE t)
      (length (Chunker.chunkText Chunker.TEXT_CHUNK_SIZE t)) buffers ->
    Audio.concatAudioBuffers buffers (audioContext env) = Ok finalBuffer ->
    arises env chapter now (Chunker.chunkText Chunker.TEXT_CHUNK_SIZE t)
      (Converted finalBuffer)
| arises_concat t buffers e :
    getTextForPageRange env now (pageNumber chapter) (endPageNumber chapter)
      = Ok t ->
    trim t <> [] ->
    synthesized env (S now) (Chunker.chunkText Chunker.TEXT_CHUNK_SIZE t)
      (length (Chunker.chunkText Chunker.TEXT_CHUNK_SIZE t)) buffers ->
    Audio.concatAudioBuffers buffers (audioContext env) = Throw e ->
    arises env chapter now (Chunker.chunkText Chunker.TEXT_CHUNK_SIZE t)
      (ConcatFailed e).

Definition fail (chapter : Chapter) (e : thrown) (w : World) : World :=
  snd (setChapters
         (updateChapter (id chapter) (markError (errorMessage unknownError e))) w).

(** [s] agrees with [base] on every chapter whose id is not [cid]. *)
Definition agrees_off (cid : string) (base s : list Chapter) : Prop :=
  length s = length base /\
  forall i d, base !! i = Some d -> id d <> cid -> s !! i = Some d.

Definition applyTo (fs : list (Chapter -> Chapter)) (d : Chapter) : Chapter :=
  fold_left (fun d f => f d) fs d.

Definition keeps_id (f : Chapter -> Chapter) : Prop := forall d, id (f d) = id d.

Definition keeps_audio (f : Chapter -> Chapter) : Prop :=
  forall d, audioBuffer (f d) = audioBuffer d.

(** The chapter with a given id, as [chapters.find] gives it, and its
    progress. *)
Definition lookupChapter (cid : string) (chs : list Chapter) : option Chapter :=
  List.find (fun c => bool_decide (id c = cid)) chs.

Definition progressOf (cid : string) (chs : list Chapter) : option Z :=
  lookupChapter cid chs ≫= progress.

(** The progress of a chapter after each of the updates [fs]. *)
Fixpoint progressLog (fs : list (Chapter -> Chapter)) (d : Chapter)
  : list (option Z) :=
  match fs with
  | [] => []
  | f :: rest => progress (f d) :: progressLog rest (f d)
  end.

(** The progress once [k] chunks of [total] are through. *)
Definition progressAfter (total k : nat) : Z :=
  match k with
  | O => 0
  | S _ => Float64.percent k total
  end.

(** The events of the chunks that go through, in order: the request for
    each chunk, followed by the chapter list committed once the chunk is
    decoded. *)
Definition completions (chunks : list text) (committed : list (list Chapter))
  : list event :=
  concat (zip_with (fun chunk chs => [Requested (prompt chunk); Rendered chs])
            chunks committed).

(** The request for the chunk that fails, when there is one. *)
Definition failingRequest (chunks : list text) (k : nat) : list event :=
  match chunks !! k with
  | Some chunk => [Requested (prompt chunk)]
  | None => []
  end.

(** The number of chunks an outcome leaves completed. *)
Definition completedOf (total : nat) (o : outcome) : nat :=
  match o with
  | ExtractionFailed _ | Blank => 0
  | ChunkFailed completed _ => completed
  | Converted _ | ConcatFailed _ => total
  end.

End AttemptDefs.

Module SchedulerDefs.
Import Orchestrator Scheduler AttemptDefs.

Definition byPage (a b : Chapter) : Prop := pageNumber a <= pageNumber b.

(** What the stretch of one attempt on [c] looks like: it has the one
    start of an attempt, that of [c], and the last chapter list it commits
    has [c] ready or in error. *)
Definition attempt_segment (c : Chapter) (seg : list event) : Prop :=
  started seg = [id c] /\
  exists final,
    last (rendered seg) = Some final /\
    forall d, d ∈ final -> id d = id c ->
              status d = Status.ready \/ status d = Status.error.

Definition good (c : Chapter) : Prop :=
  is_Some (audioBuffer c) <-> status c = Status.ready.

Definition keeps_status_audio (f : Chapter -> Chapter) : Prop :=
  forall d, status (f d) = status d /\ audioBuffer (f d) = audioBuffer d.

(** What every world of a session satisfies. *)
Definition session_invariant (w : World) : Prop :=
  NoDup (map id (chapters w)) /\
  Forall good (chapters w) /\
  Forall (Forall good) (rendered (trace w)).

End SchedulerDefs.

Module SessionDefs.
Import Orchestrator Scheduler Session.

(** What holds of a chapter however the handlers overlap. *)
Definition ready_has_audio (c : Chapter) : Prop :=
  status c = Status.ready -> is_Some (audioBuffer c).

Definition keeps_ready_audio (f : Chapter -> Chapter) : Prop :=
  forall d, ready_has_audio d -> ready_has_audio (f d).

Definition sound (w : World) : Prop :=
  Forall ready_has_audio (chapters w) /\
  Forall (Forall ready_has_audio) (rendered (trace w)).

(** An attempt resumed [n] times in a row, nothing else happening in
    between. *)
Fixpoint finish (env : Env) (n : nat) (a : attempt) (w : World)
  : option attempt * World :=
  match n with
  | O => (Some a, w)
  | S n =>
      match resume env a w with
      | (Some a, w) => finish env n a w
      | (None, w) => (None, w)
      end
  end.

Definition ending (env : Env) (p : option attempt * World) (n : nat)
  : option attempt * World :=
  match p with
  | (Some a, w) => finish env n a w
  | (None, w) => (None, w)
  end.

(** What [convertChapter] does once the loop over the chunks is left. *)
Definition closing (env : Env) (chapterId : string)
    (run : result (list AudioBuffer.t) * World) : World :=
  match fst run with
  | Throw e => caught chapterId e (snd run)
  | Ok audioBuffers =>
      match Audio.concatAudioBuffers audioBuffers (audioContext env) with
      | Throw e => caught chapterId e (snd run)
      | Ok finalBuffer =>
          commit chapterId
            (markReady (Some finalBuffer) (AudioBuffer.duration finalBuffer))
            (snd run)
      end
  end.

(** The one handler in flight is resumed [n] times. *)
Definition alone (n : nat) : list input := replicate n (Resolve 0).

Definition install (p : option handler * World) : Session.t :=
  {| world := snd p; inFlight := option_list (fst p) |}.

End SessionDefs.

(** * The rest of the pipeline

    The functions around the ones above: the text extraction of the hook,
    and the handlers of [src/App.tsx] that select, download and play
    chapters. *)

(** ** Text extraction ([getTextForPageRange], lines 71-108) *)

Module TextExtraction.
Import Orchestrator.

(** Coordinates and page heights are Numbers: IEEE 754 binary64, here the
    Standard Library's specification of it (a finite value is held with
    its 53-bit mantissa). *)
Definition number := SpecFloat.spec_float.

(** The literal [0.1]: the double [0x1.999999999999ap-4]. *)
Definition tenth : number := SpecFloat.S754_finite false 7205759403792794 (-56).

Definition Number_mul : number -> number -> number := SpecFloat.SFmul 53 1024.
Definition Number_lt : number -> number -> bool := SpecFloat.SFltb.

(** An element of [content.items]: a text item with its string and the
    element 5 of its transform matrix, or marked content, which has no
    [str]. *)
Inductive TextContentItem :=
| TextItem (str : text) (transform5 : number)
| TextMarkedContent.

(** A page: the height of its viewport at scale 1 and what
    [getTextContent] answers. *)
Record PDFPageProxy := {
  viewportHeight : number;
  getTextContent : result (list TextContentItem)
}.

(** The part of the document the extraction uses. *)
Record PDFDocumentProxy := {
  numPages : Z;
  getPage : Z -> result PDFPageProxy
}.

Definition is_digit (c : codeunit) : bool := ((48 <=? c) && (c <=? 57))%N.

(** [/^\d+$/.test(text)] *)
Definition isNumeric (t : text) : bool :=
  match t with
  | [] => false
  | _ :: _ => forallb is_digit t
  end.

(** The callback of [content.items.filter], lines 79-100. *)
Definition keep (pageHeight : number) (item : TextContentItem) : bool :=
  match item with
  | TextMarkedContent => false
  | TextItem str y =>
      let text := trim str in
      match text with
      | [] => false
      | _ :: _ =>
          if negb (isNumeric text) then true
          else
            let isFooter := Number_lt y (Number_mul pageHeight tenth) in
            if isFooter then false else true
      end
  end.

(** ['str' in item ? item.str : ''] *)
Definition str_of (item : TextContentItem) : text :=
  match item with
  | TextItem str _ => str
  | TextMarkedContent => []
  end.

(** [Array.prototype.join] *)
Fixpoint join (separator : text) (l : list text) : text :=
  match l with
  | [] => []
  | [x] => x
  | x :: rest => x ++ separator ++ join separator rest
  end.

Definition pageText (pageHeight : number) (items : list TextContentItem) : text :=
  join (js " ") (map str_of (List.filter (keep pageHeight) items)).

(** One iteration of the loop over the pages: the page is fetched, its
    text content read, and the text of the page appended with a line
    feed. *)
Definition appendPage (pdf : PDFDocumentProxy) (fullText : text) (i : Z)
  : result text :=
  (page <- getPage pdf i ;;
   content <- getTextContent page ;;
   Ok (fullText ++ pageText (viewportHeight page) content ++ [10%N]))%R.

Definition getTextForPageRange (pdf : PDFDocumentProxy)
    (startPageNum endPageNum : Z) : result text :=
  let endPage := Z.min endPageNum (numPages pdf) in
  Audio.rfold (appendPage pdf) (seqZ startPageNum (endPage - startPageNum + 1)) [].

(** The collaborators of the orchestrator when the text comes from the
    document [pdf]. *)
Definition envOf (pdf : PDFDocumentProxy) (context : Audio.AudioContext)
    (generateContent : nat -> text -> result (option text))
    (atob : text -> result text) : Env :=
  {| refsReady := true;
     audioContext := context;
     Orchestrator.getTextForPageRange := fun _ => getTextForPageRange pdf;
     Orchestrator.generateContent := generateContent;
     Orchestrator.atob := atob |}.

End TextExtraction.

Module TextExtractionDefs.
Import Orchestrator TextExtraction.

(** What makes the filter drop an item: no string, a blank string, or
    digits only in the bottom tenth of the page. *)
Definition dropped (pageHeight : number) (item : TextContentItem) : Prop :=
  match item with
  | TextMarkedContent => True
  | TextItem str y =>
      forallb is_whitespace str = true \/
      (isNumeric (trim str) = true /\
       Number_lt y (Number_mul pageHeight tenth) = true)
  end.

(** The pages [first] to [last] can be read and show nothing the filter
    keeps. *)
Definition silent (pdf : PDFDocumentProxy) (first last : Z) : Prop :=
  forall i, first <= i <= last ->
    exists page items,
      getPage pdf i = Ok page /\ getTextContent page = Ok items /\
      Forall (dropped (viewportHeight page)) items.

(** The page [i] can be read; reading it throws [e]. *)
Definition readable (pdf : PDFDocumentProxy) (i : Z) : Prop :=
  exists page items, getPage pdf i = Ok page /\ getTextContent page = Ok items.

Definition unreadable (pdf : PDFDocumentProxy) (i : Z) (e : thrown) : Prop :=
  getPage pdf i = Throw e \/
  exists page, getPage pdf i = Ok page /\ getTextContent page = Throw e.

(** A page of 792 points with the page number 7 in its footer, and a
    page with a title, the number 1984 in the body and marked content. *)
Definition points (n : Z) : number := SpecFloat.binary_normalize 53 1024 n 0 false.

Definition footer_only : PDFPageProxy :=
  {| viewportHeight := points 792;
     getTextContent := Ok [TextItem (js "7") (points 40); TextItem (js "  ") (points 300)] |}.

Definition body_page : PDFPageProxy :=
  {| viewportHeight := points 792;
     getTextContent :=
       Ok [TextItem (js "Chapitre") (points 700); TextMarkedContent;
           TextItem (js "1984") (points 400); TextItem (js "12") (points 30)] |}.

Definition sample_document : PDFDocumentProxy :=
  {| numPages := 3;
     getPage := fun i =>
       if i =? 1 then Ok footer_only
       else if i =? 2 then Ok body_page
       else if i =? 3 then Ok footer_only
       else Throw (ErrorObj "Invalid page request.") |}.

(** The same document with its first page unreadable. *)
Definition damaged_document : PDFDocumentProxy :=
  {| numPages := 3;
     getPage := fun i =>
       if i =? 1 then Throw (ErrorObj "Page 1 is damaged.")
       else getPage sample_document i |}.

(** A chapter on the first page of the sample document. *)
Definition first_page_chapter : Chapter :=
  {| id := "a"; title := "Couverture"; pageNumber := 1; endPageNumber := 1;
     status := Status.pending; audioBuffer := None; error := None;
     progress := None; duration := None |}.

End TextExtractionDefs.

(** ** The chapters and the pages of the document *)

Module ChapterRangesDefs.
Import Outline TextExtraction.

(** The entries of an outline, depth first: each item before its
    sub-items, in the order of the outline. *)
Fixpoint preorder (item : OutlineItem) : list (string * option Dest) :=
  match item with
  | Item title dest items =>
      (title, dest) ::
      (fix preorders (l : list OutlineItem) : list (string * option Dest) :=
         match l with
         | [] => []
         | sub :: rest => preorder sub ++ preorders rest
         end) items
  end.

Definition entryOf (pdf : Outline.PDFDocumentProxy) (entry : string * option Dest)
  : option (string * Z) :=
  pageNumber ← resolvePageNumber pdf (snd entry); Some (fst entry, pageNumber).

(** The page ranges made of a list of start pages, as [setupChapters]
    makes them. *)
Fixpoint ranges (numPages : Z) (pages : list Z) : list (Z * Z) :=
  match pages with
  | [] => []
  | p :: rest =>
      let e := match rest with q :: _ => q - 1 | [] => numPages end in
      (if bool_decide (p <= e) then [(p, e)] else []) ++ ranges numPages rest
  end.

Definition range (c : Chapter) : Z * Z := (pageNumber c, endPageNumber c).

(** Each range starts on the page after the one before it ends on. *)
Definition contiguous (rs : list (Z * Z)) : Prop :=
  forall i a b, rs !! i = Some a -> rs !! S i = Some b -> snd a + 1 = fst b.

(** The text of the chapters, one after the other. *)
Definition chapterTexts (pdf : TextExtraction.PDFDocumentProxy)
    (chs : list Chapter) : result text :=
  Audio.rfold
    (fun fullText c =>
       t <- getTextForPageRange pdf (pageNumber c) (endPageNumber c) ;;
       Ok (fullText ++ t))%R
    chs [].

(** An outline with a part, its two chapters and an appendix whose
    destination is unknown. *)
Definition nested_outline : list OutlineItem :=
  [Item "Partie" (Some (Explicit [Some {| num := 1; gen := 0 |}]))
     [Item "Un" (Some (Explicit [Some {| num := 1; gen := 0 |}])) [];
      Item "Deux" (Some (Explicit [Some {| num := 2; gen := 0 |}])) []];
   Item "Annexe" (Some (Named "annexe")) [];
   Item "Fin" (Some (Explicit [Some {| num := 3; gen := 0 |}])) []].

Definition nested_pdf : Outline.PDFDocumentProxy :=
  {| Outline.numPages := 3;
     getOutline := Ok (Some nested_outline);
     getDestination := fun _ => Throw (ErrorObj "Unknown destination.");
     getPageIndex := fun pageRef => Ok (num pageRef - 1) |}.

End ChapterRangesDefs.

(** ** Decoded audio, exported *)

Module ExportDefs.
Import Audio.

(** An element of a [Uint8Array]. *)
Definition byte (b : Z) : Prop := 0 <= b < 256.

(** What a 16-bit sample of the speech backend becomes in the WAV file:
    the division by 32768 and the scaling back by 32767 lose one unit on
    every positive sample. *)
Definition exported (v : Z) : Z := if v <=? 0 then v else v - 1.

(** The samples 1, 32767, -32768 and -1, little-endian, and the buffer
    they decode to. *)
Definition sample_pcm : list Z := [1; 0; 255; 127; 0; 128; 255; 255].

Definition sample_decoded : AudioBuffer.t :=
  AudioBuffer.mk 24000 4
    [[Fin (1 # 32768); Fin (32767 # 32768); Fin (-32768 # 32768); Fin (-1 # 32768)]].

End ExportDefs.

(** ** Concatenation *)

Module ConcatDefs.
Import Audio.

(** The samples of a channel of a buffer. *)
Definition channelOf (b : AudioBuffer.t) (channel : nat) : list sample :=
  default [] (AudioBuffer.channelData b !! channel).

Definition totalLength (buffers : list AudioBuffer.t) : nat :=
  sum_list (map AudioBuffer.length buffers).

(** A buffer that can follow [first]: it has the channels of [first] at
    least, each as long as the buffer says. *)
Definition follows (first b : AudioBuffer.t) : Prop :=
  (AudioBuffer.numberOfChannels first <= AudioBuffer.numberOfChannels b)%nat /\
  Forall (fun ch => length ch = AudioBuffer.length b) (AudioBuffer.channelData b).

Definition two_frames (x y : Q) : AudioBuffer.t :=
  AudioBuffer.mk 24000 2 [[Fin x; Fin y]].

End ConcatDefs.

(** ** The download ([handleDownload], [src/App.tsx], lines 65-76) *)

Module Download.

Definition is_lower (c : codeunit) : bool := ((97 <=? c) && (c <=? 122))%N.
Definition is_upper (c : codeunit) : bool := ((65 <=? c) && (c <=? 90))%N.
Definition is_digit (c : codeunit) : bool := ((48 <=? c) && (c <=? 57))%N.

(** A code unit the class [[a-z0-9]] matches under the flag [i].  Without
    the flag [u] a code unit above 127 is never folded to an ASCII letter,
    so these are the ASCII letters and digits. *)
Definition is_alnum (c : codeunit) : bool := is_lower c || is_upper c || is_digit c.

(** [title.replace(/[^a-z0-9]/gi, '_')] *)
Definition replace_others (title : text) : text :=
  map (fun c => if is_alnum c then c else 95%N) title.

(** [String.prototype.toLowerCase] on ASCII letters, digits and
    underscores, which is all it is applied to here. *)
Definition toLowerCase (t : text) : text :=
  map (fun c => if is_upper c then (c + 32)%N else c) t.

(** The name the file is downloaded under. *)
Definition fileName (title : text) : text :=
  toLowerCase (replace_others title) ++ js ".wav".

(** [handleDownload]: nothing without a buffer; otherwise the name of the
    file and the bytes of the [Blob].  The title of a chapter is held with
    one character per code unit. *)
Definition handleDownload (chapter : Chapter)
  : option (text * option (result (list Z))) :=
  match audioBuffer chapter with
  | None => None
  | Some buffer => Some (fileName (js (title chapter)), Audio.bufferToWav buffer)
  end.

End Download.

Module DownloadDefs.
Import Download.

(** What a file name is made of before its extension. *)
Definition plain (c : codeunit) : bool := is_lower c || is_digit c || (c =? 95)%N.

(** What is left of a code unit in the file name. *)
Definition folded (c : codeunit) : codeunit :=
  if is_alnum c then (if is_upper c then c + 32 else c)%N else 95%N.

End DownloadDefs.

(** ** Empty chunks *)

Module ChunkShapeDefs.
Import Chunker.

(** The first sentence alone is longer than the limit. *)
Definition long_start (limit : nat) (t : text) : Prop :=
  exists s rest, sentences t = s :: rest /\ (limit < length s)%nat.

(** A text whose only sentence has 4002 code units, and collaborators
    that hand it out. *)
Definition long_opening : text := replicate 4001 97%N ++ [46%N].

Definition long_opening_env : Orchestrator.Env :=
  {| Orchestrator.refsReady := true;
     Orchestrator.audioContext := Samples.sample_context;
     Orchestrator.getTextForPageRange := fun _ _ _ => Ok long_opening;
     Orchestrator.generateContent := fun _ _ => Ok None;
     Orchestrator.atob := fun _ => Ok [] |}.

End ChunkShapeDefs.

(** ** The selection ([src/App.tsx], lines 85-105, and the header of
    [PlayerControls.tsx]) *)

Module Selection.

(** [handleToggleChapter] *)
Definition handleToggleChapter (chapterId : string) (prev : gset string)
  : gset string :=
  if decide (chapterId ∈ prev) then prev ∖ {[chapterId]} else prev ∪ {[chapterId]}.

(** [c.status === 'pending' || c.status === 'error'] *)
Definition selectable (c : Chapter) : Prop :=
  status c = Status.pending \/ status c = Status.error.

#[global] Instance selectable_dec c : Decision (selectable c).
Proof. unfold selectable. apply _. Defined.

Definition selectableChapters (chapters : list Chapter) : list Chapter :=
  filter selectable chapters.

(** [handleToggleSelectAll] *)
Definition handleToggleSelectAll (chapters : list Chapter)
    (selectedChapterIds : gset string) : gset string :=
  if (size selectedChapterIds =? length (selectableChapters chapters))%nat
  then ∅
  else list_to_set (map id (selectableChapters chapters)).

(** The header of the list: whether the box is checked, and whether the
    bulk button is disabled. *)
Definition allSelected (chapters : list Chapter) (selectedChapterIds : gset string)
  : bool :=
  let selectableCount := length (selectableChapters chapters) in
  let numSelected := size selectedChapterIds in
  (0 <? selectableCount)%nat && (numSelected =? selectableCount)%nat.

Definition convertDisabled (selectedChapterIds : gset string)
    (isBulkConverting : bool) : bool :=
  (size selectedChapterIds =? 0)%nat || isBulkConverting.

End Selection.

Module SelectionDefs.
Import Selection.

(** The ids of the chapters that can be selected. *)
Definition selectableIds (chapters : list Chapter) : gset string :=
  list_to_set (map id (selectableChapters chapters)).

(** Four chapters, one of each status. *)
Definition chapter_with (i : string) (p : Z) (s : Status.t)
    (b : option AudioBuffer.t) : Chapter :=
  {| id := i; title := i; pageNumber := p; endPageNumber := p; status := s;
     audioBuffer := b; error := None; progress := None; duration := None |}.

Definition mixed_chapters : list Chapter :=
  [chapter_with "a" 1 Status.error None;
   chapter_with "b" 2 Status.converting None;
   chapter_with "c" 3 Status.ready (Some (AudioBuffer.mk 24000 1 [[Fin 0]]));
   chapter_with "d" 4 Status.pending None].

End SelectionDefs.

(** ** Playback ([stopPlayback] and [handlePlay], [src/App.tsx], lines 27-63) *)

Module Playback.

(** The state of the player.  A source node is named by the number of
    sources created before it.  [sounding] holds the sources that were
    started and have neither been stopped nor reached the end of their
    buffer, each with the id of the chapter whose buffer it plays;
    [listening] holds the sources whose [onended] is still set. *)
Record Player := {
  currentlyPlayingId : option string;
  currentSourceRef : option nat;
  created : nat;
  sounding : list (nat * string);
  listening : list nat
}.

Definition initial : Player :=
  {| currentlyPlayingId := None; currentSourceRef := None; created := 0;
     sounding := []; listening := [] |}.

Definition stopPlayback (p : Player) : Player :=
  match currentSourceRef p with
  | Some source =>
      {| currentlyPlayingId := None;
         currentSourceRef := None;
         created := created p;
         sounding := filter (fun s => fst s <> source) (sounding p);
         listening := filter (fun s => s <> source) (listening p) |}
  | None =>
      {| currentlyPlayingId := None;
         currentSourceRef := None;
         created := created p;
         sounding := sounding p;
         listening := listening p |}
  end.

(** [handlePlay]; [contextReady] tells that the audio context of the
    component is in place. *)
Definition handlePlay (contextReady : bool) (chapter : Chapter) (p : Player)
  : Player :=
  match audioBuffer chapter with
  | None => p
  | Some _ =>
      if negb contextReady then p
      else if decide (currentlyPlayingId p = Some (id chapter)) then stopPlayback p
      else
        let p := stopPlayback p in
        let source := created p in
        {| currentlyPlayingId := Some (id chapter);
           currentSourceRef := Some source;
           created := S (created p);
           sounding := (source, id chapter) :: sounding p;
           listening := source :: listening p |}
  end.

(** The buffer of a source runs out: the source sounds no more. *)
Definition runsOut (source : nat) (p : Player) : Player :=
  {| currentlyPlayingId := currentlyPlayingId p;
     currentSourceRef := currentSourceRef p;
     created := created p;
     sounding := filter (fun s => fst s <> source) (sounding p);
     listening := listening p |}.

(** The [ended] event of a source is delivered, which happens only once
    the source sounds no more: its [onended], if still set, runs. *)
Definition ended (source : nat) (p : Player) : Player :=
  if decide (source ∈ map fst (sounding p)) then p
  else if decide (source ∈ listening p /\ currentSourceRef p = Some source) then
    {| currentlyPlayingId := None;
       currentSourceRef := None;
       created := created p;
       sounding := sounding p;
       listening := listening p |}
  else p.

(** What happens to the player: a press on the play button of a chapter,
    a buffer running out, the delivery of an [ended] event, the choice of
    another file.  Each is handled on the render that follows the one
    before, so that [handlePlay] reads the [currentlyPlayingId] last set. *)
Inductive event :=
| Play (chapter : Chapter)
| RunsOut (source : nat)
| Ended (source : nat)
| FileSelect.

Definition react (contextReady : bool) (p : Player) (e : event) : Player :=
  match e with
  | Play chapter => handlePlay contextReady chapter p
  | RunsOut source => runsOut source p
  | Ended source => ended source p
  | FileSelect => stopPlayback p
  end.

Definition run (contextReady : bool) (events : list event) : Player :=
  fold_left (react contextReady) events initial.

End Playback.

Module PlaybackDefs.
Import Playback.

(** What sounds is what the player holds: nothing sounds unless the player
    holds a source, and then at most that source, playing the chapter
    shown as playing. *)
Definition coherent (p : Player) : Prop :=
  match currentSourceRef p with
  | None => currentlyPlayingId p = None /\ sounding p = []
  | Some source =>
      exists chapterId,
        currentlyPlayingId p = Some chapterId /\
        (sounding p = [(source, chapterId)] \/ sounding p = []) /\
        source ∈ listening p /\ (source < created p)%nat
  end.

(** A converted chapter of one page. *)
Definition ready_chapter (chapterId : string) (page : Z) : Chapter :=
  SelectionDefs.chapter_with chapterId page Status.ready
    (Some (AudioBuffer.mk 24000 1 [[Fin 0]])).

End PlaybackDefs.

(** ** What a session leaves alone *)

Module IdentityDefs.
Import Orchestrator Scheduler Session.

(** What a chapter is, whatever its conversion does. *)
Definition identity (c : Chapter) : string * string * Z * Z :=
  (id c, title c, pageNumber c, endPageNumber c).

Definition keeps_identity (f : Chapter -> Chapter) : Prop :=
  forall d, identity (f d) = identity d.

Definition same_chapters (base : list Chapter) (w : World) : Prop :=
  map identity (chapters w) = map identity base /\
  Forall (fun chs => map identity chs = map identity base) (rendered (trace w)).

End IdentityDefs.

(** * Properties *)

(** ** The chunker *)

Module ChunkerFacts.
Import Chunker ChunkerDefs.

(** Once a match has started, nothing of the rest of the text is lost. *)
Lemma scan_concat ph cur s :
  ph <> Seek -> concat (scan ph cur s) = cur ++ s.
Proof.
  revert ph cur. induction s as [|c rest IH]; intros ph cur Hph.
  - destruct ph; [done| |]; simpl; by rewrite !app_nil_r.
  - destruct ph; [done| |]; simpl; destruct (is_terminator c); simpl;
      rewrite IH by done; by rewrite <- ?app_assoc.
Qed.

Lemma match_sentences_concat t :
  concat (match_sentences t) = drop_terminators t.
Proof.
  unfold match_sentences. induction t as [|c rest IH]; [done|].
  simpl. destruct (is_terminator c); [done|].
  by rewrite scan_concat.
Qed.

Lemma scan_started_nonempty ph cur s :
  ph <> Seek -> scan ph cur s <> [].
Proof.
  revert ph cur. induction s as [|c rest IH]; intros ph cur Hph.
  - by destruct ph.
  - destruct ph; [done| |]; simpl; destruct (is_terminator c); try done;
      by apply IH.
Qed.

Lemma match_sentences_nil t :
  match_sentences t = [] <-> drop_terminators t = [].
Proof.
  unfold match_sentences. induction t as [|c rest IH]; [done|].
  simpl. destruct (is_terminator c); [done|].
  split; [|done]. intros H. by apply scan_started_nonempty in H.
Qed.

Lemma sentences_concat t : concat (sentences t) = surviving_text t.
Proof.
  unfold sentences, surviving_text.
  pose proof (match_sentences_concat t) as Hc.
  pose proof (match_sentences_nil t) as Hn.
  destruct (match_sentences t) as [|m ms] eqn:Hm.
  - rewrite (proj1 Hn eq_refl). simpl. by rewrite app_nil_r.
  - rewrite <- Hc. destruct (drop_terminators t) eqn:Hd; [|by rewrite Hc].
    by destruct Hn as [_ Hn]; specialize (Hn eq_refl).
Qed.

(** A text that does not begin with a terminator survives whole. *)
Lemma surviving_text_no_leading_terminator c rest :
  is_terminator c = false -> surviving_text (c :: rest) = c :: rest.
Proof. intros H. unfold surviving_text. simpl. by rewrite H. Qed.

(** The loop keeps the text read so far in [textChunks] and
    [currentChunk] together. *)
Lemma chunk_fold_concat limit ss textChunks currentChunk :
  let '(tc, cc) := fold_left (chunk_step limit) ss (textChunks, currentChunk) in
  concat tc ++ cc = concat textChunks ++ currentChunk ++ concat ss.
Proof.
  revert textChunks currentChunk.
  induction ss as [|s ss IH]; intros textChunks currentChunk; simpl.
  - by rewrite app_nil_r.
  - destruct (limit <? length (currentChunk ++ s))%nat.
    + specialize (IH (textChunks ++ [currentChunk]) s).
      destruct (fold_left _ ss _) as [tc cc]. rewrite IH.
      rewrite concat_app. simpl. by rewrite app_nil_r, <- !app_assoc.
    + specialize (IH textChunks (currentChunk ++ s)).
      destruct (fold_left _ ss _) as [tc cc]. rewrite IH.
      by rewrite <- !app_assoc.
Qed.

Lemma chunkText_concat limit t :
  concat (chunkText limit t) = concat (sentences t).
Proof.
  unfold chunkText.
  pose proof (chunk_fold_concat limit (sentences t) [] []) as H.
  destruct (fold_left _ _ _) as [tc cc]. simpl in H.
  destruct cc as [|c cc].
  - by rewrite app_nil_r in H.
  - by rewrite concat_app; simpl; rewrite app_nil_r.
Qed.

Lemma chunk_fold_ok limit all ss textChunks currentChunk :
  Forall (fun s => s ∈ all) ss ->
  Forall (chunk_ok limit all) textChunks ->
  chunk_ok limit all currentChunk ->
  let '(tc, cc) := fold_left (chunk_step limit) ss (textChunks, currentChunk) in
  Forall (chunk_ok limit all) tc /\ chunk_ok limit all cc.
Proof.
  revert textChunks currentChunk.
  induction ss as [|s ss IH]; intros textChunks currentChunk Hin Htc Hcc; simpl.
  - done.
  - apply Forall_cons in Hin as [Hs Hin].
    destruct (limit <? length (currentChunk ++ s))%nat eqn:Hcmp.
    + apply IH; [done| |].
      * apply Forall_app. split; [done|]. by apply Forall_singleton.
      * destruct (decide (length s <= limit)%nat); [by left|].
        right. split; [done|lia].
    + apply IH; [done..|]. left. apply Nat.ltb_ge in Hcmp. done.
Qed.

Lemma chunkText_ok limit t :
  Forall (chunk_ok limit (sentences t)) (chunkText limit t).
Proof.
  unfold chunkText.
  pose proof (chunk_fold_ok limit (sentences t) (sentences t) [] []) as H.
  destruct (fold_left _ _ _) as [tc cc].
  destruct H as [Htc Hcc].
  - apply Forall_forall. auto.
  - constructor.
  - left. simpl. lia.
  - destruct cc; [done|]. apply Forall_app. split; [done|].
    by apply Forall_singleton.
Qed.

(** C1, as stated, fails: a text that begins with a sentence terminator
    loses it, so the chunks of ["?Oui."] concatenate to ["Oui."]. *)
Lemma chunker_drops_leading_terminator :
  concat (chunkText TEXT_CHUNK_SIZE (js "?Oui.")) <> js "?Oui.".
Proof. vm_compute. discriminate. Qed.

(** C1 (amended): for every text and every limit, concatenating the chunks
    yields the text without its leading run of sentence terminators (the
    whole text when it has no such run or consists of terminators only),
    and every chunk is within the limit unless it is a single sentence that
    itself exceeds the limit. *)
Theorem chunker_concat_and_bound (limit : nat) (t : text) :
  concat (chunkText limit t) = surviving_text t /\
  Forall (fun chunk =>
            (length chunk <= limit)%nat \/
            (chunk ∈ sentences t /\ (limit < length chunk)%nat))
    (chunkText limit t).
Proof.
  split.
  - by rewrite chunkText_concat, sentences_concat.
  - apply chunkText_ok.
Qed.

End ChunkerFacts.

(** ** Outline resolution *)

Module OutlineFacts.
Import Outline OutlineDefs.

Lemma chapterList_filter uuid numPages entries :
  chapterList uuid numPages entries =
  filter (fun ch => pageNumber ch <= endPageNumber ch)
    (imap (candidate uuid numPages entries) entries).
Proof. reflexivity. Qed.

Lemma chapterList_range uuid numPages entries :
  Forall (fun ch => pageNumber ch <= endPageNumber ch)
    (chapterList uuid numPages entries).
Proof.
  apply Forall_forall. intros ch Hch.
  unfold chapterList in Hch. by apply list_elem_of_filter in Hch as [? _].
Qed.

(** The scenario of the specification, for any entries on those pages. *)
Lemma chapterList_scenario uuid entries :
  map snd entries = [1; 5; 10] ->
  map endPageNumber (chapterList uuid 12 entries) = [4; 9; 12].
Proof.
  intros H.
  destruct entries as [|[t1 p1] [|[t2 p2] [|[t3 p3] [|? ?]]]]; try discriminate.
  simpl in H. injection H as -> -> ->. reflexivity.
Qed.

Lemma pageOrdered_sorted entries :
  Sorted Z.le (map snd entries) -> pageOrdered entries = entries.
Proof.
  induction entries as [|e rest IH]; intros Hsorted; [done|].
  cbn [map] in Hsorted. apply Sorted_inv in Hsorted as [Hrest Hhead].
  cbn [pageOrdered foldr]. fold (pageOrdered rest). rewrite (IH Hrest).
  destruct rest as [|e' rest']; [done|].
  cbn [insertEntry]. apply HdRel_inv in Hhead.
  by destruct (Z.leb_spec (snd e) (snd e')); [|lia].
Qed.

(** The chapters of the unordered outline, as the code makes them and as
    the page-ordered list would give them. *)
Lemma unordered_outline_chapters :
  let entries := processOutline unordered_pdf unordered_outline in
  entries = [("A", 5); ("B", 10); ("C", 1)] /\
  map span (chapterList Samples.sample_uuid 12 entries) =
    [("A", 5, 9); ("C", 1, 12)] /\
  map span (chapterList Samples.sample_uuid 12 (pageOrdered entries)) =
    [("C", 1, 4); ("A", 5, 9); ("B", 10, 12)].
Proof. by vm_compute. Qed.

(** C3, as stated, fails: the outline is not put in page order.  With
    entries on the pages 5, 10 and 1 of a document of 12 pages, the
    chapter of page 1 ends on page 12 and not on page 4, and the entry of
    page 10, whose successor in the outline is on page 1, is dropped: the
    chapters are not those of the page-ordered list. *)
Lemma outline_order_is_not_page_order :
  ~ (map span
       (chapterList Samples.sample_uuid (numPages unordered_pdf)
          (processOutline unordered_pdf unordered_outline)) =
     map span
       (chapterList Samples.sample_uuid (numPages unordered_pdf)
          (pageOrdered (processOutline unordered_pdf unordered_outline)))).
Proof. vm_compute. discriminate. Qed.

(** C3 (amended): the end page of entry [i] of the flattened outline,
    taken in the order of the outline (the code does not sort it; it is the
    page-ordered list whenever the pages never decrease along the
    outline), is the page of entry [i + 1] minus one, or the last page of
    the document for the final entry; the chapter list is exactly the
    entries whose end page is not before their page, in order, so
    [pageNumber <= endPageNumber] holds of every chapter; and start pages
    [1, 5, 10] in a document of 12 pages give the end pages [4, 9, 12]. *)
Theorem outline_end_pages (uuid : nat -> string) (pdf : PDFDocumentProxy)
    (outlineItems : list OutlineItem) :
  let entries := processOutline pdf outlineItems in
  let result := chapterList uuid (numPages pdf) entries in
  (exists candidates : list Chapter,
      length candidates = length entries /\
      (forall i entry, entries !! i = Some entry ->
         exists ch, candidates !! i = Some ch /\
           title ch = fst entry /\ pageNumber ch = snd entry /\
           status ch = Status.pending /\
           (forall next, entries !! S i = Some next ->
              endPageNumber ch = snd next - 1) /\
           (S i = length entries -> endPageNumber ch = numPages pdf)) /\
      result = filter (fun ch => pageNumber ch <= endPageNumber ch) candidates) /\
  Forall (fun ch => pageNumber ch <= endPageNumber ch) result /\
  (Sorted Z.le (map snd entries) -> pageOrdered entries = entries) /\
  (map snd entries = [1; 5; 10] -> numPages pdf = 12 ->
   map endPageNumber result = [4; 9; 12]).
Proof.
  intros entries result. split; [|split; [|split]].
  - exists (imap (candidate uuid (numPages pdf) entries) entries).
    split; [apply length_imap|]. split; [|apply chapterList_filter].
    intros i entry Hi. eexists. split.
    { rewrite list_lookup_imap, Hi. reflexivity. }
    simpl. repeat split; try done.
    + intros next Hn. by rewrite Hn.
    + intros Hlast. rewrite (proj2 (lookup_ge_None entries (S i))); [done|lia].
  - apply chapterList_range.
  - apply pageOrdered_sorted.
  - intros Hpages Hn. subst result. rewrite Hn.
    by apply chapterList_scenario.
Qed.

Lemma outline_end_pages_witness :
  map endPageNumber
    (chapterList Samples.sample_uuid (numPages Samples.sample_pdf)
       (processOutline Samples.sample_pdf Samples.sample_outline)) = [4; 9; 12].
Proof.
  apply (outline_end_pages Samples.sample_uuid Samples.sample_pdf
           Samples.sample_outline); reflexivity.
Defined.

End OutlineFacts.

(** ** The audio decoder *)

Module DecoderFacts.
Import Audio DecoderDefs.

Lemma half_length_cons2 (lo hi : Z) rest :
  (length (lo :: hi :: rest) / 2 = S (length rest / 2))%nat.
Proof.
  change (length (lo :: hi :: rest)) with (1 * 2 + length rest)%nat.
  rewrite (Nat.add_comm (1 * 2)), Nat.div_add by done. lia.
Qed.

Lemma int16_elements_length data :
  length (int16_elements data) = (length data / 2)%nat.
Proof.
  induction data as [data IH] using (induction_ltof1 _ (@length Z)).
  unfold ltof in IH.
  destruct data as [|lo [|hi rest]]; [done..|].
  rewrite half_length_cons2. simpl int16_elements.
  change (length (?x :: ?l)) with (S (length l)).
  rewrite IH; [done|]. change (length (lo :: hi :: rest)) with (S (S (length rest))). lia.
Qed.

Lemma int16_elements_lookup data k :
  (k < length data / 2)%nat ->
  int16_elements data !! k = Some (int16_at data k).
Proof.
  revert data. induction k as [|k IH]; intros data Hk.
  - destruct data as [|lo [|hi rest]]; [by compute in Hk; lia..|done].
  - destruct data as [|lo [|hi rest]]; [by compute in Hk; lia..|].
    rewrite half_length_cons2 in Hk.
    simpl int16_elements.
    change ((?x :: ?l) !! S k) with (l !! k).
    rewrite IH by lia.
    unfold int16_at.
    replace (2 * S k)%nat with (S (S (2 * k))) by lia.
    replace (S (S (2 * k)) + 1)%nat with (S (S (2 * k + 1))) by lia.
    done.
Qed.

Lemma fill_length v n c : length (fill v n c) = length c.
Proof.
  unfold fill. induction n as [|n IH]; [done|].
  rewrite seq_S, fold_left_app. simpl. by rewrite length_insert.
Qed.

(** Case analysis on a [decide] of the goal. *)
Ltac goal_decide :=
  match goal with
  | |- context [decide ?P] => destruct (decide P)
  end.

Lemma fill_lookup v n c i :
  fill v n c !! i =
  if decide (i < n /\ i < length c)%nat then Some (v i) else c !! i.
Proof.
  induction n as [|n IH].
  - goal_decide; [lia|done].
  - unfold fill. rewrite seq_S, fold_left_app.
    change (fold_left _ (seq 0 n) c) with (fill v n c).
    cbn [fold_left Nat.add].
    destruct (decide (n = i)) as [->|Hne].
    + destruct (decide (i < length c)%nat) as [Hlt|Hge].
      * rewrite list_lookup_insert_eq by (by rewrite fill_length).
        goal_decide; [done|lia].
      * rewrite list_insert_ge by (rewrite fill_length; lia).
        rewrite IH. repeat goal_decide; try lia; done.
    + rewrite list_lookup_insert_ne by done. rewrite IH.
      repeat goal_decide; try lia; done.
Qed.

Lemma fill_replicate v n frames z :
  (frames <= n)%nat ->
  fill v n (replicate frames z) = map v (seq 0 frames).
Proof.
  intros Hn. apply list_eq. intros i.
  rewrite fill_lookup, length_replicate.
  change (map v (seq 0 frames)) with (v <$> seq 0 frames).
  rewrite list_lookup_fmap.
  destruct (decide (i < frames)%nat) as [Hi|Hi].
  - rewrite lookup_seq_lt by done. goal_decide; [done|lia].
  - rewrite lookup_seq_ge by lia. goal_decide; [lia|].
    apply lookup_replicate_None. lia.
Qed.

(** The inner loop changes one channel. *)
Lemma inner_loop_alter (v : nat -> sample) channel l b :
  fold_left (fun b i => setSample b channel i (v i)) l b =
  AudioBuffer.mk (AudioBuffer.sampleRate b) (AudioBuffer.length b)
    (alter (fun c => fold_left (fun c i => <[i := v i]> c) l c) channel
       (AudioBuffer.channelData b)).
Proof.
  revert b. induction l as [|i l IH]; intros [sr len cd]; simpl.
  - by rewrite list_alter_id.
  - rewrite IH. simpl. by rewrite list_alter_alter_eq.
Qed.

(** The two loops of [decodeAudioData] on a fresh buffer. *)
Lemma loops_fill (v : nat -> nat -> sample) sr frames n numChannels z :
  (frames <= n)%nat ->
  fold_left
    (fun b channel =>
       fold_left (fun b i => setSample b channel i (v channel i)) (seq 0 n) b)
    (seq 0 numChannels)
    (AudioBuffer.mk sr frames (replicate numChannels (replicate frames z))) =
  AudioBuffer.mk sr frames
    (map (fun channel => map (v channel) (seq 0 frames)) (seq 0 numChannels)).
Proof.
  intros Hn.
  assert (forall m, (m <= numChannels)%nat ->
    fold_left
      (fun b channel =>
         fold_left (fun b i => setSample b channel i (v channel i)) (seq 0 n) b)
      (seq 0 m)
      (AudioBuffer.mk sr frames (replicate numChannels (replicate frames z))) =
    AudioBuffer.mk sr frames
      (map (fun channel => map (v channel) (seq 0 frames)) (seq 0 m)
         ++ replicate (numChannels - m) (replicate frames z))) as H.
  { induction m as [|m IH]; intros Hm.
    - simpl. by rewrite Nat.sub_0_r.
    - rewrite seq_S, fold_left_app. simpl. rewrite IH by lia.
      rewrite inner_loop_alter. simpl. f_equal.
      assert (length (map (fun channel => map (v channel) (seq 0 frames)) (seq 0 m)) = m)
        as Hlen by (by rewrite length_map, length_seq).
      rewrite map_app. simpl. rewrite <- app_assoc. simpl.
      replace (numChannels - m)%nat with (S (numChannels - S m)) by lia.
      simpl.
      rewrite <- (Nat.add_0_r m) at 1. rewrite <- Hlen at 1.
      rewrite alter_app_r. simpl. f_equal. f_equal.
      apply (fill_replicate (v m) n frames z Hn). }
  rewrite H by done. by rewrite Nat.sub_diag, app_nil_r.
Qed.

Lemma read_samples_spec data numChannels frames :
  (frames * numChannels <= length data / 2)%nat ->
  map (fun channel =>
         map (fun i => read_sample (int16_elements data) (i * numChannels + channel))
           (seq 0 frames))
    (seq 0 numChannels) =
  AudioBuffer.channelData (deinterleaved data 0 numChannels frames).
Proof.
  intros Hfit. simpl. apply map_ext_in. intros channel Hc.
  apply in_seq in Hc. apply map_ext_in. intros i Hi. apply in_seq in Hi.
  unfold read_sample. rewrite int16_elements_lookup; [done|nia].
Qed.

Lemma floor_le_ceiling (a : Z) (b : positive) :
  Qfloor (a # b) <= Qceiling (a # b).
Proof.
  unfold Qceiling, Qfloor. simpl.
  pose proof (Z.mul_div_le a (Zpos b) eq_refl).
  pose proof (Z.mul_div_le (- a) (Zpos b) eq_refl).
  nia.
Qed.

(** What every audio context supports. *)
Lemma supports_guaranteed ctx numChannels sampleRate :
  (1 <= numChannels <= 32)%nat -> 8000 <= sampleRate <= 96000 ->
  supports ctx numChannels sampleRate = true.
Proof.
  intros Hc Hr. unfold supports, maxChannels, minRate, maxRate.
  repeat (apply andb_true_intro; split);
    first [apply Nat.leb_le|apply Z.leb_le|apply Z.ltb_lt]; lia.
Qed.

Lemma supports_spec ctx numChannels sampleRate :
  supports ctx numChannels sampleRate = false <->
  numChannels = 0%nat \/ (maxChannels ctx < numChannels)%nat \/ sampleRate <= 0
  \/ sampleRate < minRate ctx \/ maxRate ctx < sampleRate.
Proof.
  unfold supports.
  destruct (Nat.leb_spec 1 numChannels), (Nat.leb_spec numChannels (maxChannels ctx)),
    (Z.ltb_spec 0 sampleRate), (Z.leb_spec (minRate ctx) sampleRate),
    (Z.leb_spec sampleRate (maxRate ctx)); cbn [andb]; split;
    try done; try lia; intros; lia.
Qed.

Lemma createBuffer_placeholder ctx :
  createBuffer ctx 1 1 24000 = Ok (AudioBuffer.mk 24000 1 [[Fin 0]]).
Proof.
  unfold createBuffer. rewrite supports_guaranteed by lia. reflexivity.
Qed.

(** What [decodeAudioData] does with fewer than [2 ^ 32] bytes. *)
Lemma decodeAudioData_spec data ctx sampleRate numChannels :
  Z.of_nat (length data) < 2 ^ 32 ->
  decodeAudioData data ctx sampleRate numChannels =
  if Nat.odd (length data) then Throw RangeError
  else
    let frames := (length data / 2 / numChannels)%nat in
    if negb (supports ctx numChannels sampleRate) || (frames =? 0)%nat
    then Throw NotSupportedError
    else Ok (deinterleaved data sampleRate numChannels frames).
Proof.
  intros Hsize. unfold decodeAudioData, Int16Array_of.
  rewrite <- Nat.negb_even. destruct (Nat.even (length data)); [|done].
  cbn [negb rbind]. rewrite int16_elements_length.
  destruct numChannels as [|n]; [done|].
  set (numChannels := S n). set (samples := (length data / 2)%nat).
  assert (Zpos (Pos.of_nat numChannels) = Z.of_nat numChannels) as Hpos by lia.
  assert (Qfloor (Z.of_nat samples # Pos.of_nat numChannels)
          = Z.of_nat (samples / numChannels)) as Hfloor.
  { unfold Qfloor. rewrite Hpos. by rewrite Nat2Z.inj_div. }
  assert (samples <= length data)%nat as Hsamples.
  { unfold samples. apply Nat.Div0.div_le_upper_bound. lia. }
  assert (samples / numChannels <= samples)%nat as Hframes.
  { apply Nat.Div0.div_le_upper_bound. unfold numChannels. nia. }
  unfold createBuffer. rewrite Hfloor.
  rewrite Z.mod_small by lia. rewrite Nat2Z.id.
  destruct (negb (supports ctx numChannels sampleRate)
            || (samples / numChannels =? 0)%nat); [done|].
  cbn [rbind]. f_equal.
  rewrite (loops_fill
             (fun channel i =>
                read_sample (int16_elements data) (i * numChannels + channel))).
  - unfold deinterleaved. f_equal.
    rewrite read_samples_spec; [done|].
    fold samples. rewrite Nat.mul_comm. apply Nat.Div0.mul_div_le.
  - pose proof (floor_le_ceiling (Z.of_nat samples) (Pos.of_nat numChannels)) as Hle.
    rewrite Hfloor in Hle. lia.
Qed.

(** C9, as stated, fails: six bytes are not a whole number of stereo
    frames, and yet the decoder returns a buffer (of one frame). *)
Lemma decoder_accepts_partial_frame :
  ~ ((length [1; 0; 2; 0; 3; 0] mod (2 * 2) <> 0)%nat <->
     exists e,
       decodeAudioData [1; 0; 2; 0; 3; 0] Samples.sample_context 24000 2 = Throw e).
Proof.
  intros [H _]. destruct H as [e He]; [by vm_compute|].
  vm_compute in He. discriminate.
Qed.

(** C9 (amended): on fewer than [2 ^ 32] bytes the decoder fails exactly
    when the byte length is odd (the 16-bit view cannot be made, a
    [RangeError]) or the platform refuses the buffer (a
    [NotSupportedError]): no channel or more channels than it supports, no
    whole frame, a rate that is not positive or is outside the range it
    supports.  Every platform supports 1 to 32 channels and the rates from
    8000 to 96000 Hz, so with these the decoder fails exactly when the
    length is odd or there is no whole frame.  Otherwise it returns a
    buffer at the target rate, with the given channels and as many frames
    as the samples hold whole frames, the sample count divided by the
    channel count rounded down, where sample [i] of channel [c] is the
    signed 16-bit little-endian value at position [i * channels + c]
    divided by 32768. *)
Theorem decodeAudioData_outcome (data : list Z) (ctx : AudioContext)
    (sampleRate : Z) (numChannels : nat) :
  Z.of_nat (length data) < 2 ^ 32 ->
  let frames := (length data / 2 / numChannels)%nat in
  ((exists e, decodeAudioData data ctx sampleRate numChannels = Throw e) <->
   Nat.odd (length data) = true \/ numChannels = 0%nat
   \/ (maxChannels ctx < numChannels)%nat \/ frames = 0%nat
   \/ sampleRate <= 0 \/ sampleRate < minRate ctx \/ maxRate ctx < sampleRate) /\
  (Nat.odd (length data) = true ->
   decodeAudioData data ctx sampleRate numChannels = Throw RangeError) /\
  (Nat.odd (length data) = false ->
   (exists e, decodeAudioData data ctx sampleRate numChannels = Throw e) ->
   decodeAudioData data ctx sampleRate numChannels = Throw NotSupportedError) /\
  ((1 <= numChannels <= 32)%nat -> 8000 <= sampleRate <= 96000 ->
   ((exists e, decodeAudioData data ctx sampleRate numChannels = Throw e) <->
    Nat.odd (length data) = true \/ frames = 0%nat)) /\
  (forall buffer, decodeAudioData data ctx sampleRate numChannels = Ok buffer ->
     AudioBuffer.sampleRate buffer = sampleRate /\
     AudioBuffer.numberOfChannels buffer = numChannels /\
     AudioBuffer.length buffer = frames /\
     forall channel i, (channel < numChannels)%nat -> (i < frames)%nat ->
       AudioBuffer.channelData buffer !! channel ≫= (.!! i) =
       Some (Fin (int16_at data (i * numChannels + channel) # 32768))).
Proof.
  intros Hsize frames.
  pose proof (decodeAudioData_spec data ctx sampleRate numChannels Hsize) as Hspec.
  cbv zeta in Hspec. fold frames in Hspec.
  destruct (Nat.odd (length data)) eqn:Hodd.
  { rewrite Hspec. split; [|split; [|split; [|split]]]; try done.
    - split; eauto.
    - intros _ _. split; eauto. }
  destruct (supports ctx numChannels sampleRate) eqn:Hsup.
  2:{ rewrite Hspec. cbn [negb orb].
      split; [|split; [|split; [|split]]]; try done.
      - apply supports_spec in Hsup. split; [|eauto].
        intros _. right. destruct Hsup as [?|[?|[?|[?|?]]]]; auto 10.
      - intros Hc Hr. by rewrite supports_guaranteed in Hsup. }
  destruct (frames =? 0)%nat eqn:Hfr.
  { apply Nat.eqb_eq in Hfr. rewrite Hspec. cbn [negb orb].
    split; [|split; [|split; [|split]]]; try done.
    - split; [|eauto]. auto 10.
    - intros _ _. split; eauto. }
  apply Nat.eqb_neq in Hfr.
  assert (supports ctx numChannels sampleRate <> false) as Hyes by (by rewrite Hsup).
  rewrite supports_spec in Hyes.
  cbn [negb orb] in Hspec. rewrite Hspec.
  split; [|split; [|split; [|split]]]; try done.
  - split; [intros [e He]; discriminate|].
    intros [?|[?|[?|[?|[?|[?|?]]]]]]; try done; exfalso; apply Hyes; auto 10.
  - intros _ [e He]. discriminate.
  - intros _ _. split; [intros [e He]; discriminate|]. by intros [?|?].
  - intros buffer [= <-]. unfold deinterleaved, AudioBuffer.numberOfChannels.
    simpl. rewrite length_map, length_seq. repeat split.
    intros channel i Hc Hi.
    change (map ?f ?l) with (f <$> l).
    rewrite list_lookup_fmap, lookup_seq_lt by done. simpl.
    change (map ?f ?l) with (f <$> l).
    by rewrite list_lookup_fmap, lookup_seq_lt by done.
Qed.

(** Two stereo frames, one channel per column; three bytes; and a rate
    the sample context does not take. *)
Lemma decodeAudioData_outcome_witness :
  decodeAudioData [0; 128; 255; 127; 1; 0; 2; 0] Samples.sample_context 24000 2 =
  Ok (AudioBuffer.mk 24000 2
        [[Fin (-32768 # 32768); Fin (1 # 32768)];
         [Fin (32767 # 32768); Fin (2 # 32768)]]) /\
  decodeAudioData [0; 128; 255] Samples.sample_context 24000 1 = Throw RangeError /\
  decodeAudioData [0; 128; 255; 127] Samples.sample_context 1000 1 =
    Throw NotSupportedError.
Proof.
  split; [reflexivity|]. split.
  - destruct (decodeAudioData_outcome [0; 128; 255] Samples.sample_context
                24000 1) as (_ & Hodd & _); [reflexivity|].
    apply Hodd. reflexivity.
  - destruct (decodeAudioData_outcome [0; 128; 255; 127] Samples.sample_context
                1000 1) as (Hfails & _ & Hrefused & _); [reflexivity|].
    apply Hrefused; [reflexivity|]. apply Hfails.
    do 5 right. left. reflexivity.
Defined.

End DecoderFacts.

(** ** The WAV encoder *)

Module WavFacts.
Import Audio WavDefs.

Lemma le_bytes_length n v : length (le_bytes n v) = n.
Proof. revert v. induction n as [|n IH]; intros v; simpl; [done|by rewrite IH]. Qed.

Lemma store_zeros (w : list Z) pos bytes n :
  length w = pos -> (length bytes <= n)%nat ->
  store (w ++ replicate n 0) pos bytes =
  (w ++ bytes) ++ replicate (n - length bytes) 0.
Proof.
  revert w pos n. induction bytes as [|b rest IH]; intros w pos n Hw Hn.
  - simpl. by rewrite app_nil_r, Nat.sub_0_r.
  - simpl in Hn. destruct n as [|n]; [lia|].
    cbn [store]. rewrite <- Hw, <- (Nat.add_0_r (length w)), insert_app_r.
    cbn [replicate]. simpl insert.
    change (w ++ b :: replicate n 0) with (w ++ [b] ++ replicate n 0).
    rewrite app_assoc, Nat.add_0_r.
    rewrite IH; [|rewrite length_app; simpl; lia|lia].
    by rewrite <- !app_assoc.
Qed.

Lemma set_le_zeros n (w : list Z) pos v m :
  length w = pos -> (n <= m)%nat ->
  set_le n (w ++ replicate m 0) pos v =
  Ok ((w ++ le_bytes n v) ++ replicate (m - n) 0).
Proof.
  intros Hw Hn. unfold set_le.
  rewrite length_app, length_replicate.
  destruct (Nat.leb_spec (pos + n) (length w + m)); [|lia].
  rewrite store_zeros; [|done|by rewrite le_bytes_length].
  by rewrite le_bytes_length.
Qed.

Lemma writeString_from (w : list Z) pos (pre rest : text) m :
  length w = (pos + length pre)%nat -> (length rest <= m)%nat ->
  rfold (fun view i =>
           match (pre ++ rest) !! i with
           | Some c => setUint8 view (pos + i) (Z.of_N c)
           | None => Ok view
           end)
    (seq (length pre) (length rest)) (w ++ replicate m 0) =
  Ok ((w ++ map (fun c : codeunit => Z.of_N c mod 2 ^ 8 mod 256) rest)
        ++ replicate (m - length rest) 0).
Proof.
  revert w pre m. induction rest as [|c rest IH]; intros w pre m Hw Hm.
  - simpl. by rewrite app_nil_r, Nat.sub_0_r.
  - cbn [length seq rfold]. rewrite list_lookup_middle by done.
    simpl in Hm.
    unfold setUint8 at 1. rewrite set_le_zeros; [|lia|lia].
    cbn [rbind le_bytes].
    replace (pre ++ c :: rest) with ((pre ++ [c]) ++ rest)
      by (by rewrite <- app_assoc).
    replace (S (length pre)) with (length (pre ++ [c]))
      by (rewrite length_app; simpl; lia).
    rewrite IH.
    + simpl. rewrite <- !app_assoc. simpl.
      by replace (m - 1 - length rest)%nat with (m - S (length rest))%nat by lia.
    + rewrite !length_app. simpl. lia.
    + lia.
Qed.

Lemma writeString_zeros (w : list Z) pos (s : text) m :
  length w = pos -> (length s <= m)%nat ->
  writeString (w ++ replicate m 0) pos s =
  Ok ((w ++ map (fun c : codeunit => Z.of_N c mod 2 ^ 8 mod 256) s)
        ++ replicate (m - length s) 0).
Proof.
  intros Hw Hm. unfold writeString.
  apply (writeString_from w pos [] s m); simpl; lia.
Qed.

(** One store of the header on a view whose written part is [w]. *)
Ltac header_store :=
  first
    [ rewrite writeString_zeros
    | unfold setUint32 at 1; rewrite set_le_zeros
    | unfold setUint16 at 1; rewrite set_le_zeros ];
  [ cbn [rbind]
  | by rewrite ?length_app, ?length_map, ?le_bytes_length
  | simpl; lia ].

Lemma wav_header_zeros (b : AudioBuffer.t) numOfChan body :
  wav_header b numOfChan (body + 44) (replicate (body + 44) 0) =
  Ok (wav_header_bytes (AudioBuffer.sampleRate b) (Z.of_nat numOfChan)
        (Z.of_nat body) ++ replicate body 0, 44%nat).
Proof.
  unfold wav_header.
  change (replicate (body + 44) 0) with ([] ++ replicate (body + 44) 0).
  do 13 header_store.
  f_equal. apply pair_equal_spec. split; [|reflexivity].
  f_equal; [|f_equal; simpl; lia].
  unfold wav_header_bytes.
  change (map (fun c : codeunit => Z.of_N c mod 2 ^ 8 mod 256) (js "RIFF"))
    with (map Z.of_N (js "RIFF")).
  change (map (fun c : codeunit => Z.of_N c mod 2 ^ 8 mod 256) (js "WAVE"))
    with (map Z.of_N (js "WAVE")).
  change (map (fun c : codeunit => Z.of_N c mod 2 ^ 8 mod 256) (js "fmt "))
    with (map Z.of_N (js "fmt ")).
  change (map (fun c : codeunit => Z.of_N c mod 2 ^ 8 mod 256) (js "data"))
    with (map Z.of_N (js "data")).
  replace (Z.of_nat (body + 44) - 8) with (36 + Z.of_nat body) by lia.
  match goal with
  | |- context [Z.of_nat (body + 44) - Z.of_nat ?p - 4] =>
      replace (Z.of_nat (body + 44) - Z.of_nat p - 4) with (Z.of_nat body)
        by (simpl; lia)
  end.
  rewrite app_nil_l, <- !app_assoc. reflexivity.
Qed.

Lemma wav_header_bytes_length sampleRate channels dataSize :
  length (wav_header_bytes sampleRate channels dataSize) = 44%nat.
Proof.
  unfold wav_header_bytes.
  by rewrite !length_app, !length_map, !le_bytes_length.
Qed.

(** The [for] loop over the channels of one frame. *)
Lemma frame_store_from channels offset i0 m (w : list Z) pos r :
  length w = pos ->
  rfold
    (fun '(view, pos) i =>
       view <- setInt16 view pos (quantize (channel_sample channels i offset)) ;;
       Ok (view, (pos + 2)%nat))%R
    (seq i0 m) (w ++ replicate (2 * m + r) 0, pos) =
  Ok ((w ++ flat_map (fun i => sample_bytes (channel_sample channels i offset))
              (seq i0 m)) ++ replicate r 0, (pos + 2 * m)%nat).
Proof.
  revert i0 w pos. induction m as [|m IH]; intros i0 w pos Hw.
  - simpl. by rewrite app_nil_r, Nat.add_0_r.
  - cbn [seq rfold flat_map]. unfold setInt16 at 1.
    rewrite set_le_zeros; [|done|lia]. cbn [rbind].
    replace (2 * S m + r - 2)%nat with (2 * m + r)%nat by lia.
    rewrite IH by (rewrite length_app, le_bytes_length; lia).
    unfold sample_bytes. rewrite <- !app_assoc.
    by replace (pos + 2 + 2 * m)%nat with (pos + 2 * S m)%nat by lia.
Qed.

Lemma write_samples_S fuel channels numOfChan length view pos offset :
  write_samples (S fuel) channels numOfChan length view pos offset =
  if (pos <? length)%nat then
    match rfold
            (fun '(view, pos) i =>
               view <- setInt16 view pos (quantize (channel_sample channels i offset)) ;;
               Ok (view, (pos + 2)%nat))%R
            (seq 0 numOfChan) (view, pos) with
    | Throw e => Some (Throw e)
    | Ok (view', pos') =>
        write_samples fuel channels numOfChan length view' pos' (S offset)
    end
  else Some (Ok view).
Proof. reflexivity. Qed.

(** The [while] loop, with one unit of fuel per frame left and one for
    the test that ends it. *)
Lemma write_samples_frames channels numOfChan length k :
  forall offset (w : list Z) pos,
    (1 <= numOfChan)%nat -> List.length w = pos ->
    (pos + 2 * numOfChan * k = length)%nat ->
    write_samples (S k) channels numOfChan length
      (w ++ replicate (2 * numOfChan * k) 0) pos offset =
    Some (Ok (w ++ flat_map (frame_bytes channels numOfChan) (seq offset k))).
Proof.
  induction k as [|k IH]; intros offset w pos Hn Hw Hlen.
  - rewrite write_samples_S. destruct (Nat.ltb_spec pos length); [lia|].
    by rewrite Nat.mul_0_r.
  - rewrite write_samples_S. destruct (Nat.ltb_spec pos length); [|nia].
    replace (2 * numOfChan * S k)%nat
      with (2 * numOfChan + 2 * numOfChan * k)%nat by lia.
    rewrite frame_store_from by done.
    assert (List.length (frame_bytes channels numOfChan offset)
            = (2 * numOfChan)%nat) as Hframe.
    { unfold frame_bytes.
      rewrite (flat_map_constant_length (c := 2%nat)), length_seq; [lia|].
      intros i _. apply le_bytes_length. }
    fold (frame_bytes channels numOfChan offset).
    rewrite IH; [|done|rewrite length_app; lia|lia].
    cbn [seq flat_map]. by rewrite <- app_assoc.
Qed.

Lemma flat_map_nil {A B} (l : list A) : flat_map (fun _ : A => @nil B) l = [].
Proof. by induction l. Qed.

(** The stores of [bufferToWav] build the canonical container, and the
    loop ends within its fuel. *)
Lemma bufferToWav_bytes (b : AudioBuffer.t) :
  bufferToWav b = Some (Ok (wav_bytes b)).
Proof.
  unfold bufferToWav, wav_bytes.
  set (numOfChan := AudioBuffer.numberOfChannels b).
  set (frames := AudioBuffer.length b).
  rewrite wav_header_zeros.
  destruct (decide (numOfChan = 0%nat)) as [Hz|Hnz].
  - rewrite Hz, Nat.mul_0_r. cbn [Nat.mul Nat.add replicate].
    rewrite write_samples_S. cbn [Nat.ltb Nat.leb].
    do 3 f_equal. symmetry. apply (flat_map_nil (seq 0 frames)).
  - replace (frames * numOfChan * 2)%nat with (2 * numOfChan * frames)%nat by lia.
    apply write_samples_frames; [lia|apply wav_header_bytes_length|lia].
Qed.

(** *** Reading the header back *)

Lemma le_bytes_value n v :
  0 <= v < 256 ^ Z.of_nat n ->
  foldr (fun b acc => b + 256 * acc) 0 (le_bytes n v) = v.
Proof.
  revert v. induction n as [|n IH]; intros v Hv.
  - simpl in *. lia.
  - cbn [le_bytes foldr]. rewrite IH.
    + pose proof (Z.div_mod v 256). lia.
    + rewrite Nat2Z.inj_succ, Z.pow_succ_r in Hv by lia.
      split; [apply Z.div_pos; lia|apply Z.div_lt_upper_bound; lia].
Qed.

Lemma field_skip {A} n (x rest : list A) pos :
  (length x <= pos)%nat ->
  take n (drop pos (x ++ rest)) = take n (drop (pos - length x) rest).
Proof. intros H. by rewrite drop_app_ge. Qed.

Lemma field_here {A} n (x rest : list A) :
  length x = n -> take n (drop 0 (x ++ rest)) = x.
Proof.
  intros <-. change (drop 0 (x ++ rest)) with (x ++ rest).
  apply take_app_length.
Qed.

Lemma read_le_field n bytes pos v :
  take n (drop pos bytes) = le_bytes n v ->
  0 <= v < 256 ^ Z.of_nat n ->
  read_le n bytes pos = Some v.
Proof.
  intros Hf Hv. unfold read_le. rewrite Hf, le_bytes_length, Nat.eqb_refl.
  by rewrite le_bytes_value.
Qed.

(** Walk over the fields before the position looked at, then take the
    field found there. *)
Ltac find_field :=
  unfold wav_header_bytes; rewrite <- ?app_assoc;
  repeat (rewrite field_skip
            by (rewrite ?length_map, ?le_bytes_length; simpl; lia);
          rewrite ?length_map, ?le_bytes_length; simpl (_ - _)%nat);
  apply field_here; by rewrite ?length_map, ?le_bytes_length.

Section Header.
Variables (sampleRate channels dataSize : Z) (body : list Z).

Let bytes := wav_header_bytes sampleRate channels dataSize ++ body.

Lemma header_riff : take 4 (drop 0 bytes) = map Z.of_N (js "RIFF").
Proof. subst bytes. find_field. Qed.

Lemma header_wave : take 4 (drop 8 bytes) = map Z.of_N (js "WAVE").
Proof. subst bytes. find_field. Qed.

Lemma header_fmt : take 4 (drop 12 bytes) = map Z.of_N (js "fmt ").
Proof. subst bytes. find_field. Qed.

Lemma header_data : take 4 (drop 36 bytes) = map Z.of_N (js "data").
Proof. subst bytes. find_field. Qed.

Lemma header_riffSize : read_le 4 bytes 4 = Some ((36 + dataSize) mod 2 ^ 32).
Proof.
  apply read_le_field; [subst bytes; find_field|].
  apply Z.mod_pos_bound. lia.
Qed.

Lemma header_fmtSize : read_le 4 bytes 16 = Some 16.
Proof. apply read_le_field; [subst bytes; find_field|simpl; lia]. Qed.

Lemma header_byteRate :
  read_le 4 bytes 28 = Some ((sampleRate * 2 * channels) mod 2 ^ 32).
Proof.
  apply read_le_field; [subst bytes; find_field|].
  apply Z.mod_pos_bound. lia.
Qed.

Lemma header_format : read_le 2 bytes 20 = Some 1.
Proof. apply read_le_field; [subst bytes; find_field|simpl; lia]. Qed.

Lemma header_channels : read_le 2 bytes 22 = Some (channels mod 2 ^ 16).
Proof.
  apply read_le_field; [subst bytes; find_field|].
  apply Z.mod_pos_bound. lia.
Qed.

Lemma header_rate : read_le 4 bytes 24 = Some (sampleRate mod 2 ^ 32).
Proof.
  apply read_le_field; [subst bytes; find_field|].
  apply Z.mod_pos_bound. lia.
Qed.

Lemma header_blockAlign :
  read_le 2 bytes 32 = Some ((channels * 2) mod 2 ^ 16).
Proof.
  apply read_le_field; [subst bytes; find_field|].
  apply Z.mod_pos_bound. lia.
Qed.

Lemma header_bits : read_le 2 bytes 34 = Some 16.
Proof. apply read_le_field; [subst bytes; find_field|simpl; lia]. Qed.

Lemma header_dataSize : read_le 4 bytes 40 = Some (dataSize mod 2 ^ 32).
Proof.
  apply read_le_field; [subst bytes; find_field|].
  apply Z.mod_pos_bound. lia.
Qed.

Lemma parse_header_bytes :
  parseWavHeader bytes =
  Some {| wav_riffSize := (36 + dataSize) mod 2 ^ 32;
          wav_channels := channels mod 2 ^ 16;
          wav_sampleRate := sampleRate mod 2 ^ 32;
          wav_byteRate := (sampleRate * 2 * channels) mod 2 ^ 32;
          wav_blockAlign := (channels * 2) mod 2 ^ 16;
          wav_bitsPerSample := 16;
          wav_dataSize := dataSize mod 2 ^ 32;
          wav_sampleCount := dataSize mod 2 ^ 32 / 2;
          wav_frames := dataSize mod 2 ^ 32 / ((channels * 2) mod 2 ^ 16) |}.
Proof.
  unfold parseWavHeader.
  change (take 4 bytes) with (take 4 (drop 0 bytes)).
  rewrite header_riff, header_wave, header_fmt, header_data.
  rewrite !bool_decide_eq_true_2 by done. cbn [negb].
  rewrite header_riffSize, header_fmtSize, header_format, header_channels,
    header_rate, header_byteRate, header_blockAlign, header_bits, header_dataSize.
  reflexivity.
Qed.
End Header.

(** *** Quantization *)

Lemma wrap_signed_small z :
  - 2 ^ 31 <= z < 2 ^ 31 -> JS.wrap_signed 32 z = z.
Proof.
  intros Hz. unfold JS.wrap_signed. cbv zeta.
  destruct (Z.neg_nonneg_cases z) as [Hneg|Hpos].
  - assert (z mod 2 ^ 32 = z + 2 ^ 32) as ->.
    { symmetry. apply (Z.mod_unique_pos _ _ (-1)); lia. }
    destruct (Z.ltb_spec (z + 2 ^ 32) (2 ^ (32 - 1))); lia.
  - rewrite Z.mod_small by lia.
    destruct (Z.ltb_spec z (2 ^ (32 - 1))); lia.
Qed.

Lemma Qtrunc_floor q : (0 <= q)%Q -> JS.Qtrunc q = Qfloor q.
Proof.
  intros Hq. unfold JS.Qtrunc, Qfloor. destruct q as [n d].
  unfold Qle in Hq. simpl in *. apply Z.quot_div_nonneg; lia.
Qed.

Lemma Qtrunc_ceiling q : (q < 0)%Q -> JS.Qtrunc q = Qceiling q.
Proof.
  intros Hq. unfold JS.Qtrunc, Qceiling, Qfloor. destruct q as [n d].
  unfold Qlt in Hq. simpl in *.
  rewrite <- (Z.opp_involutive n) at 1.
  rewrite Z.quot_opp_l by lia. rewrite Z.quot_div_nonneg by lia. done.
Qed.

Lemma Qle_bool_false (a b : Q) : Qle_bool a b = false -> (b < a)%Q.
Proof.
  intros H. apply Qnot_le_lt. intros Hle.
  apply Qle_bool_iff in Hle. congruence.
Qed.

Lemma Qmin_cases a q : Qmin a q = if Qle_bool a q then a else q.
Proof.
  unfold Qmin, GenericMinMax.gmin.
  destruct (Qle_bool a q) eqn:H.
  - apply Qle_bool_iff in H. pose proof (proj1 (Qle_alt a q) H) as Hc.
    destruct (a ?= q)%Q; congruence.
  - apply Qle_bool_false in H. by rewrite (proj1 (Qgt_alt a q) H).
Qed.

Lemma Qmax_cases a q : Qmax a q = if Qle_bool q a then a else q.
Proof.
  unfold Qmax, GenericMinMax.gmax.
  destruct (Qle_bool q a) eqn:H.
  - apply Qle_bool_iff in H. pose proof (proj1 (Qle_alt q a) H) as Hle.
    destruct (a ?= q)%Q eqn:Hc; try done.
    pose proof (proj1 (Qgt_alt q a) (proj2 (Qlt_alt a q) Hc)). congruence.
  - apply Qle_bool_false in H. by rewrite (proj1 (Qlt_alt a q) H).
Qed.

(** The clamped sample of line 95, for a finite sample. *)
Lemma clamp_spec q :
  JS.Math_max (-1) (JS.Math_min 1 (Fin q)) = Fin (Qmax (-1) (Qmin 1 q)).
Proof.
  unfold JS.Math_min, JS.Math_max. rewrite Qmax_cases, Qmin_cases.
  by destruct (Qle_bool 1 q); destruct (Qle_bool _ (-1)).
Qed.

Lemma clamp_range q : (-1 <= Qmax (-1) (Qmin 1 q) <= 1)%Q.
Proof.
  split; [apply Q.le_max_l|].
  apply Q.max_lub; [done|apply Q.le_min_l].
Qed.

Lemma quantize_finite q : quantize (Fin q) = quantize_spec q.
Proof.
  unfold quantize, quantize_spec. rewrite clamp_spec. cbv zeta.
  pose proof (clamp_range q) as [Hlo Hhi].
  set (c := Qmax (-1) (Qmin 1 q)) in *.
  unfold JS.is_negative, JS.Qltb.
  destruct (Qlt_le_dec c 0) as [Hneg|Hpos].
  - assert (Qle_bool 0 c = false) as ->.
    { destruct (Qle_bool 0 c) eqn:H; [|done].
      apply Qle_bool_iff in H. by apply Qle_not_lt in H. }
    cbn [negb JS.times JS.ToInt32].
    assert (c * 32768 < 0)%Q as Hs.
    { rewrite <- (Qmult_0_l 32768). by apply Qmult_lt_compat_r. }
    destruct (Qlt_le_dec (c * 32768) 0) as [_|Hc]; [|by apply Qle_not_lt in Hc].
    rewrite Qtrunc_ceiling by done. apply wrap_signed_small.
    assert (-32768 <= c * 32768)%Q as Hb.
    { change (-32768)%Q with ((-1) * 32768)%Q. by apply Qmult_le_compat_r. }
    apply Qceiling_resp_le in Hb.
    apply Qlt_le_weak in Hs. apply Qceiling_resp_le in Hs.
    change (Qceiling (-32768)) with (-32768) in Hb.
    change (Qceiling 0) with 0 in Hs. lia.
  - assert (Qle_bool 0 c = true) as -> by (by apply Qle_bool_iff).
    cbn [negb JS.times JS.ToInt32].
    assert (0 <= c * 32767)%Q as Hs.
    { rewrite <- (Qmult_0_l 32767). by apply Qmult_le_compat_r. }
    destruct (Qlt_le_dec (c * 32767) 0) as [Hc|_]; [by apply Qle_not_lt in Hs|].
    rewrite Qtrunc_floor by done. apply wrap_signed_small.
    assert (c * 32767 <= 32767)%Q as Hb.
    { change 32767%Q with (1 * 32767)%Q at 2. by apply Qmult_le_compat_r. }
    apply Qfloor_resp_le in Hb. apply Qfloor_resp_le in Hs.
    change (Qfloor 32767) with 32767 in Hb.
    change (Qfloor 0) with 0 in Hs. lia.
Qed.

Lemma quantize_range s : -32768 <= quantize s <= 32767.
Proof.
  destruct s as [q| | |]; [|by vm_compute..].
  rewrite quantize_finite. unfold quantize_spec. cbv zeta.
  pose proof (clamp_range q) as [Hlo Hhi].
  set (c := Qmax (-1) (Qmin 1 q)) in *.
  assert (-32768 <= c * 32768)%Q as Hb1.
  { change (-32768)%Q with ((-1) * 32768)%Q. by apply Qmult_le_compat_r. }
  assert (c * 32767 <= 32767)%Q as Hb2.
  { change 32767%Q with (1 * 32767)%Q at 2. by apply Qmult_le_compat_r. }
  destruct (Qlt_le_dec c 0) as [Hneg|Hpos].
  - destruct (Qlt_le_dec (c * 32768) 0) as [Hs|Hs].
    + apply Qceiling_resp_le in Hb1.
      apply Qlt_le_weak in Hs. apply Qceiling_resp_le in Hs.
      change (Qceiling (-32768)) with (-32768) in Hb1.
      change (Qceiling 0) with 0 in Hs. lia.
    + exfalso. apply (Qle_not_lt _ _ Hs).
      rewrite <- (Qmult_0_l 32768). by apply Qmult_lt_compat_r.
  - destruct (Qlt_le_dec (c * 32767) 0) as [Hs|Hs].
    + exfalso. apply (Qlt_not_le _ _ Hs).
      rewrite <- (Qmult_0_l 32767). by apply Qmult_le_compat_r.
    + apply Qfloor_resp_le in Hb2. apply Qfloor_resp_le in Hs.
      change (Qfloor 32767) with 32767 in Hb2.
      change (Qfloor 0) with 0 in Hs. lia.
Qed.

(** The two bytes of a sample read back as a signed 16-bit integer. *)
Lemma sample_bytes_value s :
  to_int16 (foldr (fun b acc => b + 256 * acc) 0 (sample_bytes s)) = quantize s.
Proof.
  unfold sample_bytes.
  rewrite le_bytes_value by (apply Z.mod_pos_bound; lia).
  pose proof (quantize_range s) as Hr. unfold to_int16.
  destruct (Z.neg_nonneg_cases (quantize s)) as [Hneg|Hpos].
  - assert (quantize s mod 2 ^ 16 = quantize s + 2 ^ 16) as ->.
    { symmetry. apply (Z.mod_unique_pos _ _ (-1)); lia. }
    destruct (Z.ltb_spec (quantize s + 2 ^ 16) 32768); lia.
  - rewrite Z.mod_small by lia.
    destruct (Z.ltb_spec (quantize s) 32768); lia.
Qed.

Lemma wav_bytes_length (b : AudioBuffer.t) :
  length (wav_bytes b) =
  (44 + 2 * (AudioBuffer.length b * AudioBuffer.numberOfChannels b))%nat.
Proof.
  unfold wav_bytes. cbv zeta.
  rewrite length_app, wav_header_bytes_length.
  rewrite (flat_map_constant_length
             (c := (2 * AudioBuffer.numberOfChannels b)%nat)), length_seq; [lia|].
  intros frame _. unfold frame_bytes.
  rewrite (flat_map_constant_length (c := 2%nat)), length_seq; [lia|].
  intros i _. apply le_bytes_length.
Qed.

(** *** Where a sample lies in the data section *)

Lemma flat_map_block {A B} (f : A -> list B) c (l : list A) :
  (forall y, length (f y) = c) ->
  forall k x, l !! k = Some x -> take c (drop (k * c) (flat_map f l)) = f x.
Proof.
  intros Hc. induction l as [|a l IH]; intros k x Hk; [done|].
  destruct k as [|k]; cbn [flat_map].
  - injection Hk as ->. cbn [Nat.mul drop]. rewrite <- (Hc x). apply take_app_length.
  - cbn [Nat.mul]. rewrite drop_app_ge by (rewrite Hc; lia).
    rewrite Hc. replace (c + k * c - c)%nat with (k * c)%nat by lia.
    by apply IH.
Qed.

Lemma take_drop_take {A} (l : list A) n i m :
  (i + n <= m)%nat -> take n (drop i (take m l)) = take n (drop i l).
Proof.
  intros H. rewrite !take_drop_commute, take_take. f_equal. f_equal. lia.
Qed.

Lemma frame_bytes_length channels numOfChan offset :
  length (frame_bytes channels numOfChan offset) = (numOfChan * 2)%nat.
Proof.
  unfold frame_bytes.
  rewrite (flat_map_constant_length (c := 2%nat)), length_seq; [lia|].
  intros i _. apply le_bytes_length.
Qed.

(** The two bytes of the sample [frame] of the channel [channel]. *)
Lemma data_section_sample channels numOfChan frames channel frame :
  (channel < numOfChan)%nat -> (frame < frames)%nat ->
  take 2 (drop (2 * (frame * numOfChan + channel))
            (flat_map (frame_bytes channels numOfChan) (seq 0 frames))) =
  sample_bytes (channel_sample channels channel frame).
Proof.
  intros Hchannel Hframe.
  replace (2 * (frame * numOfChan + channel))%nat
    with (frame * (numOfChan * 2) + channel * 2)%nat by lia.
  rewrite <- drop_drop.
  rewrite <- (take_drop_take _ 2 (channel * 2) (numOfChan * 2)) by lia.
  rewrite (flat_map_block _ (numOfChan * 2) _
             (frame_bytes_length channels numOfChan) frame frame)
    by (by apply lookup_seq_lt).
  unfold frame_bytes.
  apply (flat_map_block (fun i => sample_bytes (channel_sample channels i frame)) 2).
  - intros i. apply le_bytes_length.
  - by apply lookup_seq_lt.
Qed.

Lemma wav_header_canonical sampleRate channels dataSize :
  0 <= channels < 2 ^ 15 -> 0 <= sampleRate < 2 ^ 32 ->
  0 <= dataSize -> dataSize + 36 < 2 ^ 32 ->
  wav_header_bytes sampleRate channels dataSize =
  canonical_header channels sampleRate dataSize.
Proof.
  intros Hc Hr Hd Hs. unfold wav_header_bytes, canonical_header.
  rewrite (Z.mod_small (36 + dataSize)), (Z.mod_small channels),
    (Z.mod_small sampleRate), (Z.mod_small (channels * 2)),
    (Z.mod_small dataSize) by lia.
  by replace (sampleRate * 2 * channels) with (sampleRate * channels * 2) by lia.
Qed.

(** C8: for every audio buffer the platform can hold and a WAV header can
    describe (channel count below [2^15], rate and sizes below [2^32]),
    the encoder returns the 44 bytes of the canonical header followed by
    the samples interleaved: the sample [frame] of the channel [channel]
    lies at the sample position [frame * channels + channel] of the data
    section, two bytes each; parsing the header recovers channel count,
    sample rate and sample count (and every other field); and a sample is
    stored as the 16-bit little-endian two's complement of its
    quantization, which for a finite sample is the clamp to [-1, 1],
    scaled by 32768 below zero and by 32767 otherwise, truncated towards
    zero. *)
Theorem wav_encoder_roundtrip (b : AudioBuffer.t) :
  AudioBuffer.wf b ->
  Z.of_nat (AudioBuffer.numberOfChannels b) < 2 ^ 15 ->
  AudioBuffer.sampleRate b < 2 ^ 32 ->
  Z.of_nat (AudioBuffer.length b * AudioBuffer.numberOfChannels b * 2) + 36
    < 2 ^ 32 ->
  let channels := AudioBuffer.numberOfChannels b in
  let samples := (AudioBuffer.length b * channels)%nat in
  exists bytes,
    bufferToWav b = Some (Ok bytes) /\
    length bytes = (44 + 2 * samples)%nat /\
    take 44 bytes =
      canonical_header (Z.of_nat channels) (AudioBuffer.sampleRate b)
        (Z.of_nat (2 * samples)) /\
    parseWavHeader bytes =
      Some {| wav_riffSize := 36 + Z.of_nat (2 * samples);
              wav_channels := Z.of_nat channels;
              wav_sampleRate := AudioBuffer.sampleRate b;
              wav_byteRate :=
                (AudioBuffer.sampleRate b * Z.of_nat channels * 2) mod 2 ^ 32;
              wav_blockAlign := Z.of_nat channels * 2;
              wav_bitsPerSample := 16;
              wav_dataSize := Z.of_nat (2 * samples);
              wav_sampleCount := Z.of_nat samples;
              wav_frames := Z.of_nat (AudioBuffer.length b) |} /\
    (forall channel frame ch s,
       AudioBuffer.channelData b !! channel = Some ch -> ch !! frame = Some s ->
       take 2 (drop (44 + 2 * (frame * channels + channel)) bytes) =
       le_bytes 2 (quantize s mod 2 ^ 16)) /\
    (forall s,
       to_int16 (foldr (fun byte acc => byte + 256 * acc) 0
                   (le_bytes 2 (quantize s mod 2 ^ 16))) = quantize s) /\
    (forall q, quantize (Fin q) = quantize_spec q).
Proof.
  intros (Hnc & Hlen & Hsr & Hall) Hch Hrate Hsize channels samples.
  exists (wav_bytes b). split; [apply bufferToWav_bytes|].
  split; [apply wav_bytes_length|].
  assert (wav_bytes b =
          canonical_header (Z.of_nat channels) (AudioBuffer.sampleRate b)
            (Z.of_nat (2 * samples))
          ++ flat_map (frame_bytes (AudioBuffer.channelData b) channels)
               (seq 0 (AudioBuffer.length b))) as Hbytes.
  { unfold wav_bytes. cbv zeta. fold channels. f_equal.
    replace (AudioBuffer.length b * channels * 2)%nat with (2 * samples)%nat
      by (unfold samples; lia).
    apply wav_header_canonical; unfold samples, channels in *; lia. }
  assert (length (canonical_header (Z.of_nat channels) (AudioBuffer.sampleRate b)
                    (Z.of_nat (2 * samples))) = 44%nat) as Hheader.
  { unfold canonical_header. by rewrite !length_app, !length_map, !le_bytes_length. }
  split; [|split; [|split; [|split]]].
  - rewrite Hbytes, <- Hheader. apply take_app_length.
  - unfold wav_bytes. cbv zeta. rewrite parse_header_bytes. fold channels.
    set (len := AudioBuffer.length b) in *.
    replace (len * channels * 2)%nat with (2 * samples)%nat
      by (unfold samples; lia).
    assert (Z.of_nat (2 * samples) = Z.of_nat samples * 2) as Hdata by lia.
    assert (Z.of_nat samples = Z.of_nat len * Z.of_nat channels) as Hsamples
      by (unfold samples; lia).
    unfold channels in *.
    rewrite (Z.mod_small (36 + _)), (Z.mod_small (Z.of_nat _)),
      (Z.mod_small (AudioBuffer.sampleRate b)), (Z.mod_small (Z.of_nat _ * 2)),
      (Z.mod_small (Z.of_nat (2 * samples))) by lia.
    do 2 f_equal.
    + f_equal. lia.
    + rewrite Hdata. by rewrite Z.div_mul.
    + rewrite Hdata, Hsamples, <- Z.mul_assoc. rewrite Z.div_mul; [done|lia].
  - intros channel frame ch s Hchannel Hs.
    assert (channel < channels)%nat as Hc by (by apply lookup_lt_Some in Hchannel).
    assert (frame < AudioBuffer.length b)%nat as Hf.
    { rewrite <- (Forall_lookup_1 _ _ _ _ Hall Hchannel).
      by apply lookup_lt_Some in Hs. }
    rewrite Hbytes, <- drop_drop, <- Hheader at 1.
    rewrite drop_app_length, data_section_sample by done.
    unfold channel_sample. by rewrite Hchannel, Hs.
  - apply sample_bytes_value.
  - apply quantize_finite.
Qed.

(** The stereo sample: the second frame of the left channel, clamped to
    [-1], lies after the first frame of both channels. *)
Lemma wav_encoder_roundtrip_witness :
  exists bytes,
    bufferToWav stereo_buffer = Some (Ok bytes) /\
    length bytes = 52%nat /\
    parseWavHeader bytes =
      Some {| wav_riffSize := 44; wav_channels := 2; wav_sampleRate := 24000;
              wav_byteRate := 96000; wav_blockAlign := 4; wav_bitsPerSample := 16;
              wav_dataSize := 8; wav_sampleCount := 4; wav_frames := 2 |} /\
    take 2 (drop 46 bytes) = [255; 127] /\
    take 2 (drop 48 bytes) = [0; 128].
Proof.
  destruct (wav_encoder_roundtrip stereo_buffer)
    as (bytes & Hb & Hl & _ & Hp & Hd & _).
  - unfold AudioBuffer.wf.
    split; [vm_compute; lia|split; [vm_compute; lia|split; [reflexivity|]]].
    by repeat constructor.
  - reflexivity.
  - reflexivity.
  - reflexivity.
  - exists bytes. split; [exact Hb|]. split; [exact Hl|]. split; [exact Hp|]. split.
    + exact (Hd 1%nat 0%nat [Fin 1; Fin (-1 # 4)] (Fin 1) eq_refl eq_refl).
    + exact (Hd 0%nat 1%nat [Fin (1 # 2); Fin (-3 # 2)] (Fin (-3 # 2))
               eq_refl eq_refl).
Defined.

End WavFacts.

(** ** The double-precision percentage *)

Module Float64Facts.
Import Float64 Float64Defs.

Lemma up_pos e : 0 < up e.
Proof. unfold up. apply Z.pow_pos_nonneg; lia. Qed.
Lemma dn_pos e : 0 < dn e.
Proof. unfold dn. apply Z.pow_pos_nonneg; lia. Qed.

Lemma pow_shift e1 e2 :
  e1 <= e2 -> up e2 * dn e1 = 2 ^ (e2 - e1) * (up e1 * dn e2).
Proof.
  intros H. unfold up, dn.
  destruct (Z.le_gt_cases 0 e1); destruct (Z.le_gt_cases 0 e2).
  - rewrite (Z.max_r 0 e2), (Z.max_r 0 e1), (Z.max_l 0 (- e1)), (Z.max_l 0 (- e2)) by lia.
    rewrite !Z.pow_0_r, !Z.mul_1_r, <- Z.pow_add_r by lia. f_equal; lia.
  - lia.
  - rewrite (Z.max_r 0 e2), (Z.max_l 0 e1), (Z.max_r 0 (- e1)), (Z.max_l 0 (- e2)) by lia.
    rewrite !Z.pow_0_r, !Z.mul_1_r, <- Z.pow_add_r by lia. f_equal; lia.
  - rewrite (Z.max_l 0 e2), (Z.max_l 0 e1), (Z.max_r 0 (- e1)), (Z.max_r 0 (- e2)) by lia.
    rewrite !Z.pow_0_r, !Z.mul_1_l, <- Z.pow_add_r by lia. f_equal; lia.
Qed.

Lemma pow_ratio x y : 0 <= x -> 0 <= y -> up (x - y) * 2 ^ y = 2 ^ x * dn (x - y).
Proof.
  intros Hx Hy. unfold up, dn. destruct (Z.le_gt_cases y x).
  - rewrite Z.max_r, Z.max_l by lia.
    rewrite Z.pow_0_r, Z.mul_1_r, <- Z.pow_add_r by lia. f_equal; lia.
  - rewrite Z.max_l, Z.max_r by lia.
    rewrite Z.pow_0_r, Z.mul_1_l, <- Z.pow_add_r by lia. f_equal; lia.
Qed.

Lemma div_mono_cross a b c d :
  0 < b -> 0 < d -> a * d <= c * b -> a / b <= c / d.
Proof.
  intros Hb Hd H. apply Z.div_le_lower_bound; [done|].
  pose proof (Z.mul_div_le a b Hb) as Hq.
  apply (Z.mul_le_mono_pos_r _ _ b); [done|].
  apply (Z.mul_le_mono_nonneg_r _ _ d) in Hq; lia.
Qed.

Lemma rhe_mono a b c d :
  0 < b -> 0 < d -> a * d <= c * b ->
  round_half_even a b <= round_half_even c d.
Proof.
  intros Hb Hd H. pose proof (div_mono_cross a b c d Hb Hd H) as Hq.
  unfold round_half_even.
  pose proof (Z.div_mod a b ltac:(lia)). pose proof (Z.mod_pos_bound a b Hb).
  pose proof (Z.div_mod c d ltac:(lia)). pose proof (Z.mod_pos_bound c d Hd).
  set (q1 := a / b) in *. set (r1 := a mod b) in *.
  set (q2 := c / d) in *. set (r2 := c mod d) in *.
  destruct (Z.ltb_spec (2 * r1) b); destruct (Z.ltb_spec (2 * r2) d);
    try destruct (Z.ltb_spec b (2 * r1)); try destruct (Z.ltb_spec d (2 * r2));
    try destruct (Z.even q1) eqn:E1; try destruct (Z.even q2) eqn:E2;
    try lia;
    try (destruct (Z.eq_dec q1 q2) as [Heq|Hne]; [|lia]; exfalso; 
         try (rewrite Heq in E1; congruence); subst q1 q2; nia).
Qed.

Lemma ge_pow_down a b g g' :
  0 < b -> g' <= g -> ge_pow a b g -> ge_pow a b g'.
Proof.
  unfold ge_pow. intros Hb Hg H.
  pose proof (pow_shift g' g Hg) as Hs.
  pose proof (up_pos g). pose proof (dn_pos g).
  pose proof (up_pos g'). pose proof (dn_pos g').
  assert (1 <= 2 ^ (g - g')) as Hp by (apply Z.pow_le_mono_r with (b := 0); lia).
  apply (Z.mul_le_mono_pos_r _ _ (dn g)); [done|].
  transitivity (b * (2 ^ (g - g') * (up g' * dn g))); [nia|].
  rewrite <- Hs. nia.
Qed.

Lemma binade_spec a b :
  0 < a -> 0 < b -> ge_pow a b (binade a b) /\ lt_pow a b (binade a b + 1).
Proof.
  intros Ha Hb. unfold binade.
  pose proof (Z.log2_spec a Ha) as [Ha1 Ha2].
  pose proof (Z.log2_spec b Hb) as [Hb1 Hb2].
  pose proof (Z.log2_nonneg a). pose proof (Z.log2_nonneg b).
  set (la := Z.log2 a) in *. set (lb := Z.log2 b) in *.
  fold (dn (la - lb)). fold (up (la - lb)).
  destruct (Z.ltb_spec (a * dn (la - lb)) (b * up (la - lb))) as [Hlt|Hge].
  - split.
    + unfold ge_pow.
      pose proof (pow_ratio la (Z.succ lb) ltac:(lia) ltac:(lia)) as Hr.
      replace (la - Z.succ lb) with (la - lb - 1) in Hr by lia.
      pose proof (up_pos (la - lb - 1)). pose proof (dn_pos (la - lb - 1)).
      assert (0 < 2 ^ Z.succ lb) by (apply Z.pow_pos_nonneg; lia).
      apply (Z.mul_le_mono_pos_r _ _ (2 ^ Z.succ lb)); [done|].
      set (U := up (la - lb - 1)) in *. set (D := dn (la - lb - 1)) in *.
      set (P := 2 ^ Z.succ lb) in *. set (L := 2 ^ la) in *.
      replace (b * U * P) with (b * (U * P)) by ring. rewrite Hr.
      assert (b * (L * D) <= b * (a * D)) by nia.
      assert (b * (a * D) <= P * (a * D)) by nia.
      lia.
    + unfold lt_pow. by replace (la - lb - 1 + 1) with (la - lb) by lia.
  - split; [exact Hge|].
    unfold lt_pow.
    pose proof (pow_ratio (Z.succ la) lb ltac:(lia) ltac:(lia)) as Hr.
    replace (Z.succ la - lb) with (la - lb + 1) in Hr by lia.
    pose proof (up_pos (la - lb + 1)). pose proof (dn_pos (la - lb + 1)).
    assert (0 < 2 ^ lb) by (apply Z.pow_pos_nonneg; lia).
    apply (Z.mul_lt_mono_pos_r (2 ^ lb)); [done|].
    set (U := up (la - lb + 1)) in *. set (D := dn (la - lb + 1)) in *.
    set (P := 2 ^ lb) in *. set (L := 2 ^ Z.succ la) in *.
    replace (b * U * P) with (b * (U * P)) by ring. rewrite Hr.
    assert (a * D * P <= a * D * b) by nia.
    assert (a * D * b < L * D * b) by nia.
    lia.
Qed.

Lemma binade_mono a b c d :
  0 < a -> 0 < b -> 0 < c -> 0 < d -> a * d <= c * b ->
  binade a b <= binade c d.
Proof.
  intros Ha Hb Hc Hd H.
  destruct (binade_spec a b Ha Hb) as [Hge _].
  destruct (binade_spec c d Hc Hd) as [_ Hlt].
  destruct (Z.le_gt_cases (binade a b) (binade c d)) as [|Hgt]; [done|].
  exfalso.
  apply (ge_pow_down a b _ (binade c d + 1) Hb) in Hge; [|lia].
  unfold ge_pow, lt_pow in *.
  pose proof (up_pos (binade c d + 1)). pose proof (dn_pos (binade c d + 1)).
  set (U := up (binade c d + 1)) in *. set (D := dn (binade c d + 1)) in *.
  assert (b * d * U <= b * c * D) by nia.
  assert (b * c * D < b * d * U) by nia.
  lia.
Qed.

Lemma rhe_lower a b L : 0 < b -> L * b <= a -> L <= round_half_even a b.
Proof.
  intros Hb H. assert (L <= a / b) by (apply Z.div_le_lower_bound; lia).
  unfold round_half_even.
  destruct (2 * (a mod b) <? b); [done|].
  destruct (b <? 2 * (a mod b)); [lia|]. destruct (Z.even (a / b)); lia.
Qed.

Lemma rhe_upper a b U : 0 < b -> a < U * b -> round_half_even a b <= U.
Proof.
  intros Hb H. assert (a / b < U) by (apply Z.div_lt_upper_bound; lia).
  unfold round_half_even.
  destruct (2 * (a mod b) <? b); [lia|].
  destruct (b <? 2 * (a mod b)); [lia|]. destruct (Z.even (a / b)); lia.
Qed.

Lemma nearest_normal a b : 0 < a -> 0 < b -> normal (nearest a b).
Proof.
  intros Ha Hb. destruct (binade_spec a b Ha Hb) as [Hge Hlt].
  unfold ge_pow, lt_pow in *. unfold normal, nearest. cbn [mant].
  set (g := binade a b) in *. set (e := g - 52).
  fold (dn e). fold (up e).
  pose proof (up_pos e). pose proof (dn_pos e).
  pose proof (up_pos g). pose proof (dn_pos g).
  pose proof (up_pos (g + 1)). pose proof (dn_pos (g + 1)).
  pose proof (pow_shift e g ltac:(lia)) as Hs1.
  pose proof (pow_shift e (g + 1) ltac:(lia)) as Hs2.
  replace (g - e) with 52 in Hs1 by lia. replace (g + 1 - e) with 53 in Hs2 by lia.
  split.
  - apply rhe_lower; [lia|].
    apply (Z.mul_le_mono_pos_r _ _ (dn g)); [done|].
    replace (2 ^ 52 * (b * up e) * dn g) with (b * (2 ^ 52 * (up e * dn g))) by ring.
    rewrite <- Hs1. nia.
  - apply rhe_upper; [lia|].
    apply (Z.mul_lt_mono_pos_r (dn (g + 1))); [done|].
    replace (2 ^ 53 * (b * up e) * dn (g + 1))
      with (b * (2 ^ 53 * (up e * dn (g + 1)))) by ring.
    rewrite <- Hs2. nia.
Qed.

Lemma le_mk m1 e1 m2 e2 :
  e1 <= e2 -> m1 <= m2 * 2 ^ (e2 - e1) -> le (mk m1 e1) (mk m2 e2).
Proof.
  intros He Hm. unfold le, num, den. cbn [mant expo].
  fold (up e1). fold (up e2). fold (dn e1). fold (dn e2).
  pose proof (pow_shift e1 e2 He) as Hs.
  pose proof (up_pos e1). pose proof (dn_pos e2).
  replace (m2 * up e2 * dn e1) with (m2 * (up e2 * dn e1)) by ring.
  rewrite Hs. nia.
Qed.

Lemma nearest_mono a b c d :
  0 < a -> 0 < b -> 0 < c -> 0 < d -> a * d <= c * b ->
  le (nearest a b) (nearest c d).
Proof.
  intros Ha Hb Hc Hd H.
  pose proof (binade_mono a b c d Ha Hb Hc Hd H) as Hg.
  pose proof (nearest_normal a b Ha Hb) as [_ Hm1].
  pose proof (nearest_normal c d Hc Hd) as [Hm2 _].
  unfold nearest in *. cbn [mant] in Hm1, Hm2.
  set (e1 := binade a b - 52) in *. set (e2 := binade c d - 52) in *.
  apply le_mk; [lia|].
  destruct (Z.eq_dec e1 e2) as [Heq|Hne].
  - rewrite <- Heq, Z.sub_diag, Z.pow_0_r, Z.mul_1_r.
    fold (dn e1). fold (up e1).
    pose proof (up_pos e1). pose proof (dn_pos e1).
    apply rhe_mono; nia.
  - assert (2 <= 2 ^ (e2 - e1)) as Hp.
    { change 2 with (2 ^ 1) at 1. apply Z.pow_le_mono_r; lia. }
    change (2 ^ 53) with (2 ^ 52 * 2) in Hm1. nia.
Qed.

Lemma num_pos x : normal x -> 0 < num x.
Proof.
  intros [H _]. unfold num. fold (up (expo x)). pose proof (up_pos (expo x)).
  assert (0 < mant x) by lia. nia.
Qed.

Lemma den_pos x : 0 < den x.
Proof. apply dn_pos. Qed.

Lemma of_int_mono a b : 0 < a -> a <= b -> le (of_int a) (of_int b).
Proof. intros Ha Hab. apply nearest_mono; lia. Qed.

Lemma of_int_normal a : 0 < a -> normal (of_int a).
Proof. intros Ha. by apply nearest_normal. Qed.

Lemma div_normal x y : normal x -> normal y -> normal (div x y).
Proof.
  intros Hx Hy. pose proof (num_pos x Hx). pose proof (num_pos y Hy).
  pose proof (den_pos x). pose proof (den_pos y).
  apply nearest_normal; nia.
Qed.

Lemma mul_normal x y : normal x -> normal y -> normal (mul x y).
Proof.
  intros Hx Hy. pose proof (num_pos x Hx). pose proof (num_pos y Hy).
  pose proof (den_pos x). pose proof (den_pos y).
  apply nearest_normal; nia.
Qed.

Lemma div_mono_l x y z :
  normal x -> normal y -> normal z -> le x y -> le (div x z) (div y z).
Proof.
  intros Hx Hy Hz H. unfold le in H.
  pose proof (num_pos x Hx). pose proof (num_pos y Hy). pose proof (num_pos z Hz).
  pose proof (den_pos x). pose proof (den_pos y). pose proof (den_pos z).
  apply nearest_mono; nia.
Qed.

Lemma mul_mono_l x y z :
  normal x -> normal y -> normal z -> le x y -> le (mul x z) (mul y z).
Proof.
  intros Hx Hy Hz H. unfold le in H.
  pose proof (num_pos x Hx). pose proof (num_pos y Hy). pose proof (num_pos z Hz).
  pose proof (den_pos x). pose proof (den_pos y). pose proof (den_pos z).
  apply nearest_mono; nia.
Qed.

Lemma Math_round_mono x y : le x y -> Math_round x <= Math_round y.
Proof.
  intros H. unfold le in H. unfold Math_round.
  pose proof (den_pos x). pose proof (den_pos y).
  apply div_mono_cross; nia.
Qed.

Lemma percent_mono (k k' n : nat) :
  (1 <= k)%nat -> (k <= k')%nat -> (1 <= n)%nat -> percent k n <= percent k' n.
Proof.
  intros Hk Hkk Hn. unfold percent.
  assert (normal (of_int (Z.of_nat k))) by (apply of_int_normal; lia).
  assert (normal (of_int (Z.of_nat k'))) by (apply of_int_normal; lia).
  assert (normal (of_int (Z.of_nat n))) by (apply of_int_normal; lia).
  assert (normal (of_int 100)) by (by apply of_int_normal).
  apply Math_round_mono, mul_mono_l; try done; try (by apply div_normal).
  apply div_mono_l; try done. apply of_int_mono; lia.
Qed.

Lemma Math_round_nonneg x : normal x -> 0 <= Math_round x.
Proof.
  intros Hx. unfold Math_round. pose proof (num_pos x Hx). pose proof (den_pos x).
  apply Z.div_pos; lia.
Qed.

Lemma percent_nonneg (k n : nat) : (1 <= k)%nat -> (1 <= n)%nat -> 0 <= percent k n.
Proof.
  intros Hk Hn. unfold percent. apply Math_round_nonneg, mul_normal.
  - apply div_normal; apply of_int_normal; lia.
  - by apply of_int_normal.
Qed.

Lemma div_self x : normal x -> div x x = mk (2 ^ 52) (-52).
Proof.
  intros Hx. pose proof (num_pos x Hx). pose proof (den_pos x).
  unfold div. rewrite (Z.mul_comm (den x) (num x)).
  set (A := num x * den x). assert (0 < A) by (subst A; nia).
  unfold nearest, binade. rewrite Z.sub_diag.
  change (Z.max 0 (- 0)) with 0. change (Z.max 0 0) with 0.
  rewrite Z.pow_0_r, Z.mul_1_r, Z.ltb_irrefl.
  change (0 - 52) with (-52). change (Z.max 0 (- -52)) with 52.
  change (Z.max 0 (-52)) with 0. rewrite Z.pow_0_r, Z.mul_1_r.
  f_equal. unfold round_half_even.
  rewrite (Z.mul_comm A), Z.div_mul, Z.mod_mul by lia.
  destruct (Z.ltb_spec (2 * 0) A); [done|lia].
Qed.

Lemma percent_full (n : nat) : (1 <= n)%nat -> percent n n = 100.
Proof.
  intros Hn. unfold percent. rewrite div_self by (apply of_int_normal; lia).
  by vm_compute.
Qed.

Lemma binade_int z : 0 < z -> binade z 1 = Z.log2 z.
Proof.
  intros Hz. unfold binade. change (Z.log2 1) with 0. rewrite Z.sub_0_r.
  pose proof (Z.log2_nonneg z). pose proof (Z.log2_spec z Hz) as [Hl _].
  rewrite Z.max_l, Z.max_r, Z.pow_0_r by lia.
  destruct (Z.ltb_spec (z * 1) (1 * 2 ^ Z.log2 z)); [lia|done].
Qed.

(** An integer below [2 ^ 53] is a double. *)
Lemma of_int_exact z :
  0 < z < 2 ^ 53 -> num (of_int z) = z * den (of_int z).
Proof.
  intros [Hz Hb]. unfold of_int, nearest, num, den. cbn [mant expo].
  rewrite binade_int by done.
  assert (Z.log2 z < 53) by (by apply Z.log2_lt_pow2).
  pose proof (Z.log2_nonneg z).
  set (e := Z.log2 z - 52).
  rewrite (Z.max_r 0 (- e)), (Z.max_l 0 e), Z.pow_0_r, !Z.mul_1_r by lia.
  unfold round_half_even. rewrite Z.div_1_r, Z.mod_1_r. done.
Qed.

Lemma percent_mono_cross (a b c d : nat) :
  (1 <= a)%nat -> (1 <= b)%nat -> (1 <= c)%nat -> (1 <= d)%nat ->
  Z.of_nat a < 2 ^ 53 -> Z.of_nat b < 2 ^ 53 ->
  Z.of_nat c < 2 ^ 53 -> Z.of_nat d < 2 ^ 53 ->
  (a * d <= c * b)%nat -> percent a b <= percent c d.
Proof.
  intros Ha Hb Hc Hd Ha' Hb' Hc' Hd' H. unfold percent.
  set (A := of_int (Z.of_nat a)). set (B := of_int (Z.of_nat b)).
  set (C := of_int (Z.of_nat c)). set (D := of_int (Z.of_nat d)).
  assert (normal A) by (apply of_int_normal; lia).
  assert (normal B) by (apply of_int_normal; lia).
  assert (normal C) by (apply of_int_normal; lia).
  assert (normal D) by (apply of_int_normal; lia).
  assert (normal (of_int 100)) by (by apply of_int_normal).
  apply Math_round_mono, mul_mono_l; try done; try (by apply div_normal).
  pose proof (of_int_exact (Z.of_nat a) ltac:(lia)) as Ea.
  pose proof (of_int_exact (Z.of_nat b) ltac:(lia)) as Eb.
  pose proof (of_int_exact (Z.of_nat c) ltac:(lia)) as Ec.
  pose proof (of_int_exact (Z.of_nat d) ltac:(lia)) as Ed.
  fold A in Ea. fold B in Eb. fold C in Ec. fold D in Ed.
  pose proof (num_pos A ltac:(done)). pose proof (num_pos B ltac:(done)).
  pose proof (num_pos C ltac:(done)). pose proof (num_pos D ltac:(done)).
  pose proof (den_pos A). pose proof (den_pos B).
  pose proof (den_pos C). pose proof (den_pos D).
  apply nearest_mono; nia.
Qed.

(** The product [(k / n) * 100] of the model is the one of IEEE 754
    binary64 arithmetic: checked for all [k <= n <= 64]. *)
Lemma product_is_binary64 :
  forallb (fun n => forallb (fun k => agrees_with_ieee (Z.of_nat k) (Z.of_nat n))
                      (seq 1 n))
    (seq 1 64) = true.
Proof. vm_compute. reflexivity. Qed.

Lemma percent_of_hundred (f : nat) :
  (1 <= f <= 100)%nat -> percent f 100 = Z.of_nat f.
Proof.
  intros Hf.
  assert (forallb (fun f => percent f 100 =? Z.of_nat f) (seq 1 100) = true)
    as Hall by (by vm_compute).
  rewrite forallb_forall in Hall.
  apply Z.eqb_eq, Hall, in_seq. lia.
Qed.

(** The percentage is never more than one off: it lies between the
    integers around [100 * k / n]. *)
Lemma percent_bounds (k n : nat) :
  (1 <= k <= n)%nat -> Z.of_nat n < 2 ^ 53 ->
  (100 * Z.of_nat k) / Z.of_nat n <= percent k n
  <= - ((- (100 * Z.of_nat k)) / Z.of_nat n).
Proof.
  intros Hk Hn.
  set (F := (100 * Z.of_nat k) / Z.of_nat n).
  set (C := - ((- (100 * Z.of_nat k)) / Z.of_nat n)).
  assert (0 <= F <= 100) as HF.
  { subst F. split; [apply Z.div_pos; lia|].
    apply Z.div_le_upper_bound; lia. }
  assert (F * Z.of_nat n <= 100 * Z.of_nat k) as HFn.
  { subst F. rewrite Z.mul_comm. apply Z.mul_div_le. lia. }
  assert (100 * Z.of_nat k <= C * Z.of_nat n) as HCn.
  { subst C. pose proof (Z.mul_div_le (- (100 * Z.of_nat k)) (Z.of_nat n) ltac:(lia)).
    nia. }
  assert (1 <= C <= 100) as HC.
  { split; [nia|]. subst C.
    assert (- 100 <= - (100 * Z.of_nat k) / Z.of_nat n); [|lia].
    apply Z.div_le_lower_bound; lia. }
  split.
  - destruct (Z.eq_dec F 0) as [->|HF0]; [apply percent_nonneg; lia|].
    rewrite <- (Z2Nat.id F) by lia.
    rewrite <- (percent_of_hundred (Z.to_nat F)) by lia.
    apply percent_mono_cross; try lia. 
  - rewrite <- (Z2Nat.id C) by lia.
    rewrite <- (percent_of_hundred (Z.to_nat C)) by lia.
    apply percent_mono_cross; try lia.
Qed.

End Float64Facts.

(** ** The conversion attempt *)

Module AttemptFacts.
Import Orchestrator Scheduler AttemptDefs.

Lemma progressUpdates_S total i k :
  progressUpdates total i (S k) =
  markProgress (Float64.percent (S i) total) :: progressUpdates total (S i) k.
Proof.
  unfold progressUpdates. cbn [seq map]. f_equal.
  - by rewrite Nat.add_1_r.
  - rewrite <- seq_shift, map_map. apply map_ext. intros j.
    by rewrite Nat.add_succ_r.
Qed.

Lemma rendered_app tr1 tr2 : rendered (tr1 ++ tr2) = rendered tr1 ++ rendered tr2.
Proof. apply omap_app. Qed.

Lemma requested_app tr1 tr2 :
  requested (tr1 ++ tr2) = requested tr1 ++ requested tr2.
Proof. apply omap_app. Qed.

Lemma started_app tr1 tr2 : started (tr1 ++ tr2) = started tr1 ++ started tr2.
Proof. apply omap_app. Qed.

(** One turn of the loop. *)
Lemma synthesizeChunks_cons env cid total i chunk rest acc w :
  synthesizeChunks env cid total i (chunk :: rest) acc w =
  match chunkOutcome env (clock w) chunk with
  | Throw e =>
      (Throw e,
       {| chapters := chapters w;
          clock := S (clock w);
          trace := trace w ++ [Requested (prompt chunk)] |})
  | Ok b =>
      let chs := updateChapter cid
                   (markProgress (Float64.percent (S i) total)) (chapters w) in
      synthesizeChunks env cid total (S i) rest (acc ++ [b])
        {| chapters := chs;
           clock := S (clock w);
           trace := (trace w ++ [Requested (prompt chunk)]) ++ [Rendered chs] |}
  end.
Proof.
  cbn [synthesizeChunks]. unfold bind, record, ask, setChapters, chunkOutcome.
  cbn [clock chapters trace].
  by destruct (audioOfResponse env _).
Qed.

(** The loop over the chunks: [k] chunks go through, their buffers are
    gathered in order, the progress is updated after each, and the loop
    ends after the last chunk or at the first one that fails. *)
Lemma loop_normal_form env cid total chunks :
  forall i acc w,
  exists k buffers,
    length buffers = k /\ (k <= length chunks)%nat /\
    (forall j, (j < k)%nat ->
       exists chunk b,
         chunks !! j = Some chunk /\ buffers !! j = Some b /\
         chunkOutcome env (clock w + j) chunk = Ok b) /\
    let run := synthesizeChunks env cid total i chunks acc w in
    chapters (snd run) = applyAll cid (progressUpdates total i k) (chapters w) /\
    rendered (trace (snd run)) =
      rendered (trace w) ++ states cid (progressUpdates total i k) (chapters w) /\
    started (trace (snd run)) = started (trace w) /\
    match fst run with
    | Ok audioBuffers =>
        k = length chunks /\ audioBuffers = acc ++ buffers /\
        requested (trace (snd run)) = requested (trace w) ++ map prompt chunks /\
        clock (snd run) = (clock w + k)%nat
    | Throw e =>
        (exists chunk, chunks !! k = Some chunk /\
                       chunkOutcome env (clock w + k) chunk = Throw e) /\
        requested (trace (snd run)) =
          requested (trace w) ++ map prompt (take (S k) chunks) /\
        clock (snd run) = (clock w + S k)%nat
    end.
Proof.
  induction chunks as [|chunk rest IH]; intros i acc w.
  - exists 0%nat, []. simpl. rewrite !app_nil_r, Nat.add_0_r.
    repeat split; try done. intros j Hj. lia.
  - rewrite synthesizeChunks_cons.
    destruct (chunkOutcome env (clock w) chunk) as [e|b] eqn:Hout.
    + exists 0%nat, []. cbn [fst snd chapters trace clock].
      rewrite rendered_app, requested_app, started_app. simpl.
      rewrite !app_nil_r, Nat.add_0_r.
      repeat split; try done; try lia.
      by exists chunk.
    + cbv zeta.
      set (w2 := {| chapters := _; clock := _; trace := _ |}).
      destruct (IH (S i) (acc ++ [b]) w2) as (k & buffers & Hlen & Hk & Hok & Hrun).
      exists (S k), (b :: buffers).
      split; [simpl; lia|]. split; [simpl; lia|]. split.
      { intros [|j] Hj.
        - exists chunk, b. by rewrite Nat.add_0_r.
        - destruct (Hok j) as (c' & b' & ? & ? & Hc'); [lia|].
          exists c', b'. repeat split; try done.
          subst w2. simpl in Hc'. by rewrite Nat.add_succ_r. }
      cbv zeta in Hrun |- *.
      destruct Hrun as (Hch & Hren & Hst & Hres).
      rewrite progressUpdates_S. cbn [applyAll fold_left states].
      split; [exact Hch|]. split.
      { rewrite Hren. subst w2. cbn [trace chapters].
        rewrite !rendered_app. simpl. by rewrite <- !app_assoc. }
      split.
      { rewrite Hst. subst w2. cbn [trace].
        rewrite !started_app. simpl. by rewrite !app_nil_r. }
      destruct (fst (synthesizeChunks env cid total (S i) rest (acc ++ [b]) w2))
        as [e|bs].
      * destruct Hres as ((c' & Hc' & Hfail) & Hreq & Hclock).
        split.
        { exists c'. split; [done|]. subst w2. simpl in Hfail.
          by rewrite Nat.add_succ_r. }
        split.
        { rewrite Hreq. subst w2. cbn [trace].
          rewrite !requested_app. simpl. by rewrite <- !app_assoc. }
        rewrite Hclock. subst w2. simpl. lia.
      * destruct Hres as (-> & -> & Hreq & Hclock).
        split; [done|]. split; [by rewrite <- app_assoc|]. split.
        { rewrite Hreq. subst w2. cbn [trace].
          rewrite !requested_app. simpl. by rewrite <- !app_assoc. }
        rewrite Hclock. subst w2. simpl. lia.
Qed.

(** *** The ways an attempt can go *)

(** [convertChapter] past its guard, step by step. *)
Lemma convertChapter_eq env chapter w :
  refsReady env = true ->
  convertChapter env chapter w =
  let chs1 := updateChapter (id chapter) markConverting (chapters w) in
  let w2 :=
    {| chapters := chs1;
       clock := S (clock w);
       trace := ((trace w ++ [Started (id chapter)]) ++ [Rendered chs1])
                  ++ [Extracted (pageNumber chapter) (endPageNumber chapter)] |} in
  match getTextForPageRange env (clock w) (pageNumber chapter) (endPageNumber chapter) with
  | Throw e => fail chapter e w2
  | Ok t =>
      match trim t with
      | [] => snd (setChapters (updateChapter (id chapter) (markReady placeholder 0)) w2)
      | _ :: _ =>
          let textChunks := Chunker.chunkText Chunker.TEXT_CHUNK_SIZE t in
          let run := synthesizeChunks env (id chapter) (length textChunks) 0
                       textChunks [] w2 in
          match fst run with
          | Throw e => fail chapter e (snd run)
          | Ok audioBuffers =>
              match Audio.concatAudioBuffers audioBuffers (audioContext env) with
              | Throw e => fail chapter e (snd run)
              | Ok finalBuffer =>
                  snd (setChapters
                         (updateChapter (id chapter)
                            (markReady (Some finalBuffer)
                               (AudioBuffer.duration finalBuffer)))
                         (snd run))
              end
          end
      end
  end.
Proof.
  intros Hrefs. unfold convertChapter, tryBlock, fail. rewrite Hrefs.
  cbn [negb]. unfold bind, record, ask, setChapters, lift.
  cbn [chapters clock trace fst snd].
  destruct (getTextForPageRange env (clock w) _ _) as [e|t]; [done|].
  destruct (trim t) as [|c rest].
  { by rewrite DecoderFacts.createBuffer_placeholder. }
  destruct (synthesizeChunks env (id chapter) _ 0 _ [] _) as [[e|bs] w3];
    cbn [fst snd]; [done|].
  by destruct (Audio.concatAudioBuffers bs (audioContext env)).
Qed.

Lemma applyAll_app cid fs gs chs :
  applyAll cid (fs ++ gs) chs = applyAll cid gs (applyAll cid fs chs).
Proof. apply fold_left_app. Qed.

Lemma states_app cid fs gs chs :
  states cid (fs ++ gs) chs =
  states cid fs chs ++ states cid gs (applyAll cid fs chs).
Proof.
  revert chs. induction fs as [|f fs IH]; intros chs; [done|].
  simpl. by rewrite IH.
Qed.

(** The world after a last update [f] of the chapter. *)
Lemma final_update cid f fs w0 w chs0 :
  chapters w = applyAll cid fs chs0 ->
  rendered (trace w) = rendered (trace w0) ++ states cid fs chs0 ->
  let w' := snd (setChapters (updateChapter cid f) w) in
  chapters w' = applyAll cid (fs ++ [f]) chs0 /\
  rendered (trace w') = rendered (trace w0) ++ states cid (fs ++ [f]) chs0 /\
  started (trace w') = started (trace w) /\
  requested (trace w') = requested (trace w).
Proof.
  intros Hch Hren. cbn [setChapters snd chapters trace].
  rewrite applyAll_app, states_app, rendered_app, started_app, requested_app.
  rewrite Hch, Hren. simpl. by rewrite !app_nil_r, <- !app_assoc.
Qed.

(** Every attempt that passes the guard has one of the five outcomes, and
    the outcome tells the updates of the chapter, the chapter lists
    committed and the requests made. *)
Lemma attempt_normal_form env chapter w :
  refsReady env = true ->
  exists chunks o,
    arises env chapter (clock w) chunks o /\
    let w' := convertChapter env chapter w in
    let fs := updatesOf (length chunks) o in
    chapters w' = applyAll (id chapter) fs (chapters w) /\
    rendered (trace w') = rendered (trace w) ++ states (id chapter) fs (chapters w) /\
    started (trace w') = started (trace w) ++ [id chapter] /\
    requested (trace w') = requested (trace w) ++ requestsOf chunks o.
Proof.
  intros Hrefs. rewrite (convertChapter_eq env chapter w Hrefs). cbv zeta.
  set (chs1 := updateChapter (id chapter) markConverting (chapters w)).
  set (w2 := {| chapters := chs1; clock := _; trace := _ |}).
  assert (chapters w2 = applyAll (id chapter) [markConverting] (chapters w))
    as Hch2 by done.
  assert (rendered (trace w2) =
          rendered (trace w) ++ states (id chapter) [markConverting] (chapters w))
    as Hren2.
  { subst w2. cbn [trace]. rewrite !rendered_app. simpl.
    by rewrite !app_nil_r. }
  assert (started (trace w2) = started (trace w) ++ [id chapter]) as Hst2.
  { subst w2. cbn [trace]. rewrite !started_app. simpl. by rewrite !app_nil_r. }
  assert (requested (trace w2) = requested (trace w)) as Hreq2.
  { subst w2. cbn [trace]. rewrite !requested_app. simpl. by rewrite !app_nil_r. }
  destruct (getTextForPageRange env (clock w) _ _) as [e|t] eqn:Htext.
  { exists [], (ExtractionFailed e). split; [by constructor|].
    destruct (final_update (id chapter) (markError (errorMessage unknownError e))
                [markConverting] w w2 (chapters w) Hch2 Hren2)
      as (H1 & H2 & H3 & H4).
    unfold fail. cbn [updatesOf requestsOf app].
    rewrite H3, H4, Hst2, Hreq2, app_nil_r. done. }
  destruct (trim t) as [|c0 rest0] eqn:Htrim.
  { exists [], Blank. split; [by econstructor|].
    destruct (final_update (id chapter) (markReady placeholder 0)
                [markConverting] w w2 (chapters w) Hch2 Hren2)
      as (H1 & H2 & H3 & H4).
    cbn [updatesOf requestsOf app].
    rewrite H3, H4, Hst2, Hreq2, app_nil_r. done. }
  set (chunks := Chunker.chunkText Chunker.TEXT_CHUNK_SIZE t).
  destruct (loop_normal_form env (id chapter) (length chunks) chunks 0 [] w2)
    as (k & buffers & Hlen & Hk & Hok & Hrun).
  cbv zeta in Hrun. destruct Hrun as (Hch & Hren & Hst & Hres).
  set (run := synthesizeChunks env (id chapter) (length chunks) 0 chunks [] w2) in *.
  assert (chapters (snd run) =
          applyAll (id chapter)
            (markConverting :: progressUpdates (length chunks) 0 k) (chapters w))
    as Hch'.
  { rewrite Hch. done. }
  assert (rendered (trace (snd run)) =
          rendered (trace w) ++
          states (id chapter)
            (markConverting :: progressUpdates (length chunks) 0 k) (chapters w))
    as Hren'.
  { rewrite Hren, Hren2. simpl. by rewrite <- app_assoc. }
  assert (trim t <> []) as Hnonblank by (by rewrite Htrim).
  assert (synthesized env (S (clock w)) chunks k buffers) as Hsyn.
  { split; [done|]. exact Hok. }
  destruct (fst run) as [e|audioBuffers].
  { destruct Hres as ((chunk & Hchunk & Hfail) & Hreq & _).
    exists chunks, (ChunkFailed k e). split; [by econstructor|].
    destruct (final_update (id chapter) (markError (errorMessage unknownError e))
                _ w (snd run) (chapters w) Hch' Hren')
      as (H1 & H2 & H3 & H4).
    unfold fail. cbn [updatesOf requestsOf].
    rewrite H3, H4, Hst, Hst2, Hreq, Hreq2. done. }
  destruct Hres as (-> & -> & Hreq & _). simpl app.
  destruct (Audio.concatAudioBuffers buffers (audioContext env)) as [e|finalBuffer] eqn:Hconcat.
  - exists chunks, (ConcatFailed e). split; [by econstructor|].
    destruct (final_update (id chapter) (markError (errorMessage unknownError e))
                _ w (snd run) (chapters w) Hch' Hren')
      as (H1 & H2 & H3 & H4).
    unfold fail. cbn [updatesOf requestsOf].
    rewrite H3, H4, Hst, Hst2, Hreq, Hreq2. done.
  - exists chunks, (Converted finalBuffer). split; [by econstructor|].
    destruct (final_update (id chapter)
                (markReady (Some finalBuffer) (AudioBuffer.duration finalBuffer))
                _ w (snd run) (chapters w) Hch' Hren')
      as (H1 & H2 & H3 & H4).
    cbn [updatesOf requestsOf].
    rewrite H3, H4, Hst, Hst2, Hreq, Hreq2. done.
Qed.

(** *** Updates leave the other chapters alone *)

Lemma updateChapter_lookup cid f chs i :
  updateChapter cid f chs !! i =
  (fun c => if decide (id c = cid) then f c else c) <$> chs !! i.
Proof. unfold updateChapter. apply list_lookup_fmap. Qed.

Lemma updateChapter_length cid f chs :
  length (updateChapter cid f chs) = length chs.
Proof. apply length_map. Qed.

Lemma agrees_off_refl cid base : agrees_off cid base base.
Proof. by split. Qed.

Lemma agrees_off_update cid f base s :
  agrees_off cid base s -> agrees_off cid base (updateChapter cid f s).
Proof.
  intros [Hlen Hs]. split; [by rewrite updateChapter_length|].
  intros i d Hd Hne. rewrite updateChapter_lookup, (Hs i d Hd Hne). simpl.
  by destruct (decide (id d = cid)).
Qed.

Lemma agrees_off_applyAll cid fs base s :
  agrees_off cid base s -> agrees_off cid base (applyAll cid fs s).
Proof.
  revert s. induction fs as [|f fs IH]; intros s Hs; [done|].
  simpl. by apply IH, agrees_off_update.
Qed.

Lemma agrees_off_states cid fs base s :
  agrees_off cid base s -> Forall (agrees_off cid base) (states cid fs s).
Proof.
  revert s. induction fs as [|f fs IH]; intros s Hs; [constructor|].
  simpl. constructor; [by apply agrees_off_update|].
  by apply IH, agrees_off_update.
Qed.

(** C10: whatever the outcome of an attempt on a chapter [c], every
    chapter list it commits and the one it leaves has the same length as
    the list it started from and, at every position, the very same record
    (id, title, pageNumber, endPageNumber, status, progress, audioBuffer,
    error, duration) for each chapter whose id is not [c]'s. *)
Theorem attempt_frame (env : Env) (c : Chapter) (w : World) :
  let w' := convertChapter env c w in
  exists committed,
    rendered (trace w') = rendered (trace w) ++ committed /\
    Forall (fun s =>
              length s = length (chapters w) /\
              forall i d, chapters w !! i = Some d -> id d <> id c ->
                          s !! i = Some d)
      (committed ++ [chapters w']).
Proof.
  cbv zeta. destruct (refsReady env) eqn:Hrefs.
  - destruct (attempt_normal_form env c w Hrefs)
      as (chunks & o & _ & Hch & Hren & _).
    cbv zeta in Hch, Hren. eexists. split; [exact Hren|].
    apply Forall_app. split.
    + apply agrees_off_states, agrees_off_refl.
    + apply Forall_singleton. rewrite Hch.
      apply agrees_off_applyAll, agrees_off_refl.
  - unfold convertChapter. rewrite Hrefs. simpl. exists [].
    split; [by rewrite app_nil_r|]. apply Forall_singleton. by split.
Qed.

(** *** Blank text *)

Lemma trimStart_blank t : forallb is_whitespace t = true -> trimStart t = [].
Proof.
  induction t as [|c rest IH]; [done|]. simpl.
  destruct (is_whitespace c); [exact IH|done].
Qed.

Lemma trim_blank t : forallb is_whitespace t = true -> trim t = [].
Proof. intros H. unfold trim. by rewrite (trimStart_blank t H). Qed.

(** C7: when the text extracted for the chapter is empty or made of white
    space only, the attempt makes no request to the speech backend and
    leaves the chapter ready, with the one-frame silent placeholder as
    its audio and a duration of 0. *)
Theorem blank_text_short_circuit (env : Env) (c : Chapter) (w : World)
    (t : text) :
  refsReady env = true ->
  getTextForPageRange env (clock w) (pageNumber c) (endPageNumber c) = Ok t ->
  forallb is_whitespace t = true ->
  let w' := convertChapter env c w in
  requested (trace w') = requested (trace w) /\
  length (chapters w') = length (chapters w) /\
  forall i d, chapters w !! i = Some d -> id d = id c ->
    exists d',
      chapters w' !! i = Some d' /\
      status d' = Status.ready /\
      audioBuffer d' = Some (AudioBuffer.mk 24000 1 [[Fin 0]]) /\
      duration d' = Some 0%Q.
Proof.
  intros Hrefs Htext Hblank.
  rewrite (convertChapter_eq env c w Hrefs). cbv zeta.
  rewrite Htext, (trim_blank t Hblank).
  cbn [setChapters snd chapters trace]. split; [|split].
  - rewrite !requested_app. simpl. by rewrite !app_nil_r.
  - by rewrite !updateChapter_length.
  - intros i d Hd Hid. rewrite !updateChapter_lookup, Hd. simpl.
    destruct (decide (id d = id c)) as [_|]; [|done].
    change (id (markConverting d)) with (id d). rewrite decide_True by done.
    eexists. split; [done|]. repeat split; reflexivity.
Qed.

(** *** The chapter under conversion, update after update *)

Lemma applyTo_id fs d : Forall keeps_id fs -> id (applyTo fs d) = id d.
Proof.
  revert d. induction fs as [|f fs IH]; intros d Hfs; [done|].
  apply Forall_cons in Hfs as [Hf Hfs]. simpl. by rewrite IH, Hf.
Qed.

Lemma applyTo_audio fs d :
  Forall keeps_audio fs -> audioBuffer (applyTo fs d) = audioBuffer d.
Proof.
  revert d. induction fs as [|f fs IH]; intros d Hfs; [done|].
  apply Forall_cons in Hfs as [Hf Hfs]. simpl. by rewrite IH, Hf.
Qed.

Lemma applyTo_app fs gs d : applyTo (fs ++ gs) d = applyTo gs (applyTo fs d).
Proof. apply fold_left_app. Qed.

Lemma applyAll_lookup cid fs chs i :
  Forall keeps_id fs ->
  applyAll cid fs chs !! i =
  (fun d => if decide (id d = cid) then applyTo fs d else d) <$> chs !! i.
Proof.
  revert chs. induction fs as [|f fs IH]; intros chs Hfs.
  - simpl. destruct (chs !! i) as [d|]; [|done]. simpl.
    by destruct (decide (id d = cid)).
  - apply Forall_cons in Hfs as [Hf Hfs]. simpl.
    rewrite IH by done. rewrite updateChapter_lookup.
    destruct (chs !! i) as [d|]; [|done]. simpl. f_equal.
    destruct (decide (id d = cid)) as [Heq|Hne].
    + by rewrite decide_True by (by rewrite Hf).
    + by rewrite decide_False.
Qed.

Lemma applyAll_elem cid fs chs d :
  Forall keeps_id fs -> d ∈ applyAll cid fs chs -> id d = cid ->
  exists d1, d1 ∈ chs /\ id d1 = cid /\ d = applyTo fs d1.
Proof.
  intros Hfs Hd Hid. apply list_elem_of_lookup in Hd as [i Hi].
  rewrite applyAll_lookup in Hi by done.
  destruct (chs !! i) as [d1|] eqn:Hd1; [|done].
  simpl in Hi. injection Hi as <-.
  destruct (decide (id d1 = cid)) as [Heq|Hne]; [|done].
  exists d1. split; [|done]. apply list_elem_of_lookup. eauto.
Qed.

(** Each chapter list committed is the result of a prefix of the updates. *)
Lemma states_prefixes cid fs chs s :
  s ∈ states cid fs chs ->
  exists n, (n < length fs)%nat /\ s = applyAll cid (take (S n) fs) chs.
Proof.
  revert chs. induction fs as [|f fs IH]; intros chs Hs.
  - by apply elem_of_nil in Hs.
  - simpl in Hs. apply elem_of_cons in Hs as [->|Hs].
    + exists 0%nat. split; [simpl; lia|done].
    + destruct (IH _ Hs) as (n & Hn & ->).
      exists (S n). split; [simpl; lia|done].
Qed.

Lemma markConverting_keeps_id : keeps_id markConverting.
Proof. by intros d. Qed.
Lemma markProgress_keeps_id p : keeps_id (markProgress p).
Proof. by intros d. Qed.
Lemma markReady_keeps_id b s : keeps_id (markReady b s).
Proof. by intros d. Qed.
Lemma markError_keeps_id m : keeps_id (markError m).
Proof. by intros d. Qed.

Lemma progressUpdates_keeps_id total i k :
  Forall keeps_id (progressUpdates total i k).
Proof.
  unfold progressUpdates. apply Forall_forall. intros f Hf.
  apply list_elem_of_fmap in Hf as (j & -> & _). apply markProgress_keeps_id.
Qed.

Lemma updatesOf_keeps_id total o : Forall keeps_id (updatesOf total o).
Proof.
  unfold updatesOf. constructor; [apply markConverting_keeps_id|].
  destruct o; rewrite ?Forall_app, ?Forall_singleton;
    repeat split;
    auto using progressUpdates_keeps_id, markReady_keeps_id, markError_keeps_id.
Qed.

Lemma progressUpdates_keeps_audio total i k :
  Forall keeps_audio (progressUpdates total i k).
Proof.
  unfold progressUpdates. apply Forall_forall. intros f Hf.
  by apply list_elem_of_fmap in Hf as (j & -> & _).
Qed.

(** The outcome of an attempt whose chunk [k] is the first to fail. *)
Lemma arises_chunk_failure env c now chunks o t k buffers chunk e :
  arises env c now chunks o ->
  getTextForPageRange env now (pageNumber c) (endPageNumber c) = Ok t ->
  trim t <> [] ->
  synthesized env (S now) (Chunker.chunkText Chunker.TEXT_CHUNK_SIZE t) k buffers ->
  Chunker.chunkText Chunker.TEXT_CHUNK_SIZE t !! k = Some chunk ->
  chunkOutcome env (S now + k) chunk = Throw e ->
  chunks = Chunker.chunkText Chunker.TEXT_CHUNK_SIZE t /\ o = ChunkFailed k e.
Proof.
  intros Harises Htext Hnonblank [Hlen Hsyn] Hchunk Hfail.
  assert (forall k' buffers',
            synthesized env (S now) (Chunker.chunkText Chunker.TEXT_CHUNK_SIZE t)
              k' buffers' -> (k' <= k)%nat) as Hle.
  { intros k' buffers' [_ Hsyn']. destruct (decide (k' <= k)%nat); [done|].
    destruct (Hsyn' k) as (chunk' & b & Hc & _ & Hok); [lia|]. congruence. }
  destruct Harises as [e' He'|t' Ht' Hb|t' k' buffers' chunk' e' Ht' Hn Hs' Hc' Hf'
                      |t' buffers' final Ht' Hn Hs' Hcat
                      |t' buffers' e' Ht' Hn Hs' Hcat];
    try congruence.
  - assert (t' = t) as -> by congruence. split; [done|].
    pose proof (Hle _ _ Hs') as Hk'.
    assert (k' = k) as ->.
    { destruct (decide (k' = k)); [done|].
      destruct (Hsyn k') as (chunk'' & b & Hc'' & _ & Hok); [lia|]. congruence. }
    congruence.
  - assert (t' = t) as -> by congruence.
    pose proof (Hle _ _ Hs') as Hk'. apply lookup_lt_Some in Hchunk. lia.
  - assert (t' = t) as -> by congruence.
    pose proof (Hle _ _ Hs') as Hk'. apply lookup_lt_Some in Hchunk. lia.
Qed.

(** C4: when the chunk [k] is the first whose synthesis or decoding
    fails, the attempt has made the requests for the chunks up to [k]
    and for no later one, no chapter list it commits or leaves has
    another audio buffer than before the attempt (nothing of what was
    decoded is exposed), and the chapter is left in the status [error]
    with the message of the failure. *)
Theorem chunk_failure_aborts (env : Env) (c : Chapter) (w : World) (t : text)
    (k : nat) (buffers : list AudioBuffer.t) (chunk : text) (e : thrown) :
  refsReady env = true ->
  getTextForPageRange env (clock w) (pageNumber c) (endPageNumber c) = Ok t ->
  trim t <> [] ->
  let chunks := Chunker.chunkText Chunker.TEXT_CHUNK_SIZE t in
  synthesized env (S (clock w)) chunks k buffers ->
  chunks !! k = Some chunk ->
  chunkOutcome env (S (clock w) + k) chunk = Throw e ->
  let w' := convertChapter env c w in
  requested (trace w') = requested (trace w) ++ map prompt (take (S k) chunks) /\
  (exists committed,
      rendered (trace w') = rendered (trace w) ++ committed /\
      Forall (fun s =>
                forall i d, chapters w !! i = Some d ->
                  exists d', s !! i = Some d' /\ audioBuffer d' = audioBuffer d)
        (committed ++ [chapters w'])) /\
  (forall i d, chapters w !! i = Some d -> id d = id c ->
     exists d',
       chapters w' !! i = Some d' /\
       status d' = Status.error /\
       error d' = Some (errorMessage unknownError e)) /\
  (forall message, e = ErrorObj message ->
     errorMessage unknownError e = message).
Proof.
  intros Hrefs Htext Hnonblank chunks Hsyn Hchunk Hfail w'.
  destruct (attempt_normal_form env c w Hrefs)
    as (chunks' & o & Harises & Hch & Hren & _ & Hreq).
  destruct (arises_chunk_failure env c (clock w) chunks' o t k buffers chunk e
              Harises Htext Hnonblank Hsyn Hchunk Hfail) as [-> ->].
  cbv zeta in Hch, Hren, Hreq. fold chunks in Hch, Hren, Hreq. fold w' in Hch, Hren, Hreq.
  set (fs := updatesOf (length chunks) (ChunkFailed k e)) in *.
  assert (Forall keeps_id fs) as Hids by apply updatesOf_keeps_id.
  assert (Forall keeps_audio fs) as Haudio.
  { subst fs. unfold updatesOf. constructor; [done|].
    apply Forall_app. split; [apply progressUpdates_keeps_audio|].
    by apply Forall_singleton. }
  assert (forall fs', Forall keeps_id fs' -> Forall keeps_audio fs' ->
            forall i d, chapters w !! i = Some d ->
              exists d', applyAll (id c) fs' (chapters w) !! i = Some d' /\
                         audioBuffer d' = audioBuffer d) as Hkeep.
  { intros fs' Hi Ha i d Hd. rewrite applyAll_lookup, Hd by done. simpl.
    eexists. split; [done|]. destruct (decide (id d = id c)); [|done].
    by apply applyTo_audio. }
  split; [exact Hreq|]. split; [|split].
  - eexists. split; [exact Hren|]. apply Forall_app. split.
    + apply Forall_forall. intros s Hs.
      apply states_prefixes in Hs as (n & _ & ->).
      apply Hkeep; by apply Forall_take.
    + apply Forall_singleton. rewrite Hch. by apply Hkeep.
  - intros i d Hd Hid. rewrite Hch, applyAll_lookup, Hd by done. simpl.
    rewrite decide_True by done. eexists. split; [done|].
    subst fs. unfold updatesOf.
    change (applyTo (markConverting :: ?l) ?x) with (applyTo l (markConverting x)).
    by rewrite applyTo_app.
  - by intros message ->.
Qed.

(** *** Progress *)

#[local] Opaque Float64.percent.

Lemma lookupChapter_update cid f chs :
  keeps_id f ->
  lookupChapter cid (updateChapter cid f chs) = f <$> lookupChapter cid chs.
Proof.
  intros Hf. unfold lookupChapter, updateChapter.
  induction chs as [|d chs IH]; [done|]. simpl.
  destruct (decide (id d = cid)) as [Heq|Hne].
  - rewrite !bool_decide_eq_true_2; [done|done|by rewrite Hf].
  - by rewrite !bool_decide_eq_false_2.
Qed.

Lemma states_progress cid fs chs d :
  Forall keeps_id fs -> lookupChapter cid chs = Some d ->
  map (progressOf cid) (states cid fs chs) = progressLog fs d.
Proof.
  revert chs d. induction fs as [|f fs IH]; intros chs d Hfs Hd; [done|].
  apply Forall_cons in Hfs as [Hf Hfs]. simpl.
  assert (lookupChapter cid (updateChapter cid f chs) = Some (f d)) as Hd'.
  { by rewrite lookupChapter_update, Hd. }
  f_equal.
  - unfold progressOf. by rewrite Hd'.
  - by apply IH.
Qed.

Lemma applyAll_progress cid fs chs d :
  Forall keeps_id fs -> lookupChapter cid chs = Some d ->
  progressOf cid (applyAll cid fs chs) = progress (applyTo fs d).
Proof.
  revert chs d. induction fs as [|f fs IH]; intros chs d Hfs Hd.
  - unfold progressOf. simpl. by rewrite Hd.
  - apply Forall_cons in Hfs as [Hf Hfs]. simpl. apply IH; [done|].
    by rewrite lookupChapter_update, Hd.
Qed.

Lemma progressLog_app fs gs d :
  progressLog (fs ++ gs) d = progressLog fs d ++ progressLog gs (applyTo fs d).
Proof.
  revert d. induction fs as [|f fs IH]; intros d; [done|].
  simpl. by rewrite IH.
Qed.

Lemma progressLog_updates total i k d :
  progressLog (progressUpdates total i k) d =
  map (fun j => Some (Float64.percent (i + j) total)) (seq 1 k).
Proof.
  revert i d. induction k as [|k IH]; intros i d; [done|].
  rewrite progressUpdates_S. cbn [progressLog seq map]. f_equal.
  - by rewrite Nat.add_1_r.
  - rewrite IH, <- (seq_shift k 1), map_map. apply map_ext. intros j.
    by rewrite Nat.add_succ_r.
Qed.

Lemma applyTo_updates_progress total k d :
  progress d = Some 0 ->
  progress (applyTo (progressUpdates total 0 k) d) = Some (progressAfter total k).
Proof.
  intros Hd. destruct k as [|k]; [exact Hd|].
  unfold progressUpdates. rewrite seq_S, map_app, applyTo_app.
  cbn [map applyTo fold_left progress markProgress progressAfter Nat.add].
  reflexivity.
Qed.

Lemma applyTo_updates_status total i k d :
  status (applyTo (progressUpdates total i k) d) = status d.
Proof.
  revert i d. induction k as [|k IH]; intros i d; [done|].
  rewrite progressUpdates_S. simpl. by rewrite IH.
Qed.

(** The log of every shape of attempt, [final] being the last update. *)
Lemma progressLog_attempt total k final d :
  (forall x, progress (final x) = progress x) ->
  progressLog (markConverting :: progressUpdates total 0 k ++ [final]) d =
  Some 0 :: map (fun j => Some (Float64.percent j total)) (seq 1 k)
    ++ [Some (progressAfter total k)].
Proof.
  intros Hfinal. cbn [progressLog]. f_equal.
  rewrite progressLog_app, progressLog_updates. f_equal.
  simpl. by rewrite Hfinal, applyTo_updates_progress.
Qed.

Lemma chunkText_nonempty limit t : t <> [] -> Chunker.chunkText limit t <> [].
Proof.
  intros Ht Hnil.
  pose proof (ChunkerFacts.chunkText_concat limit t) as Hc.
  rewrite Hnil, ChunkerFacts.sentences_concat in Hc. simpl in Hc.
  unfold Chunker.surviving_text in Hc.
  destruct (Chunker.drop_terminators t); congruence.
Qed.

Lemma trim_nonblank_nonempty t : trim t <> [] -> t <> [].
Proof. by intros H ->. Qed.

Lemma updatesOf_log total o d :
  progressLog (updatesOf total o) d =
  Some 0 :: map (fun j => Some (Float64.percent j total)) (seq 1 (completedOf total o))
    ++ [Some (progressAfter total (completedOf total o))].
Proof.
  destruct o as [e| |k e|b|e]; cbn [updatesOf completedOf].
  - exact (progressLog_attempt total 0 (markError (errorMessage unknownError e)) d
             (fun _ => eq_refl)).
  - exact (progressLog_attempt total 0 (markReady placeholder 0) d
             (fun _ => eq_refl)).
  - exact (progressLog_attempt total k (markError (errorMessage unknownError e)) d
             (fun _ => eq_refl)).
  - exact (progressLog_attempt total total
             (markReady (Some b) (AudioBuffer.duration b)) d (fun _ => eq_refl)).
  - exact (progressLog_attempt total total
             (markError (errorMessage unknownError e)) d (fun _ => eq_refl)).
Qed.

Lemma updatesOf_progress total o d :
  progress (applyTo (updatesOf total o) d) =
  Some (progressAfter total (completedOf total o)).
Proof.
  unfold updatesOf.
  change (applyTo (markConverting :: ?l) ?x) with (applyTo l (markConverting x)).
  destruct o as [e| |k e|b|e]; cbn [completedOf]; rewrite ?applyTo_app.
  - exact (applyTo_updates_progress total 0 (markConverting d) eq_refl).
  - exact (applyTo_updates_progress total 0 (markConverting d) eq_refl).
  - exact (applyTo_updates_progress total k (markConverting d) eq_refl).
  - exact (applyTo_updates_progress total total (markConverting d) eq_refl).
  - exact (applyTo_updates_progress total total (markConverting d) eq_refl).
Qed.

Lemma updatesOf_status_error total o d :
  match o with Blank | Converted _ => False | _ => True end ->
  status (applyTo (updatesOf total o) d) = Status.error.
Proof.
  unfold updatesOf.
  change (applyTo (markConverting :: ?l) ?x) with (applyTo l (markConverting x)).
  destruct o; try done; intros _; by rewrite ?applyTo_app.
Qed.

Lemma arises_completed env c now chunks o :
  arises env c now chunks o -> (completedOf (length chunks) o <= length chunks)%nat.
Proof.
  destruct 1; simpl; try lia.
  match goal with H : _ !! _ = Some _ |- _ => apply lookup_lt_Some in H end. lia.
Qed.

Lemma arises_total env c now chunks o t :
  arises env c now chunks o ->
  getTextForPageRange env now (pageNumber c) (endPageNumber c) = Ok t ->
  trim t <> [] ->
  chunks = Chunker.chunkText Chunker.TEXT_CHUNK_SIZE t.
Proof. destruct 1; intros Ht Hn; congruence. Qed.

(** After chunk 23 of 40 the progress is 57, while [100 * 23 / 40 = 57.5]
    rounds to 58: the quotient [23 / 40] is not a double, and the product
    of its nearest double by 100 falls just below 57.5. *)
Lemma percent_23_of_40 :
  Float64.percent 23 40 = 57 /\ Float64.exact_percent 23 40 = 58.
Proof. by vm_compute. Qed.

(** C6, as stated, fails: in an attempt on a chapter of 40 chunks, all of
    them synthesized, the progress committed after chunk 23 is 57 and not
    the rounding 58 of [100 * 23 / 40]. *)
Lemma progress_is_not_the_exact_rounding :
  ~ Forall
      (fun k =>
         map (progressOf (id (Samples.chapter_at 1)))
           (rendered
              (trace (convertChapter Samples.long_env (Samples.chapter_at 1)
                        Samples.sample_world))) !! S k =
         Some (Some (Float64.exact_percent k 40)))
      (seq 1 40).
Proof.
  intros Hall. rewrite Forall_lookup in Hall.
  specialize (Hall 22%nat 23%nat eq_refl). cbv beta in Hall.
  assert (map (progressOf (id (Samples.chapter_at 1)))
            (rendered
               (trace (convertChapter Samples.long_env (Samples.chapter_at 1)
                         Samples.sample_world))) !! 24%nat = Some (Some 57))
    as Hcommitted by (vm_compute; reflexivity).
  rewrite Hcommitted, (proj2 percent_23_of_40) in Hall. discriminate Hall.
Qed.

Lemma lookupChapter_applyAll cid fs chs d :
  Forall keeps_id fs -> lookupChapter cid chs = Some d ->
  lookupChapter cid (applyAll cid fs chs) = Some (applyTo fs d).
Proof.
  revert chs d. induction fs as [|f fs IH]; intros chs d Hfs Hd; [done|].
  apply Forall_cons in Hfs as [Hf Hfs]. cbn [applyAll fold_left applyTo].
  apply IH; [done|]. by rewrite lookupChapter_update, Hd.
Qed.

Lemma states_length cid fs chs : length (states cid fs chs) = length fs.
Proof.
  revert chs. induction fs as [|f fs IH]; intros chs; [done|].
  simpl. by rewrite IH.
Qed.

(** The loop over the chunks when the first [k] chunks go through and
    the loop ends there, on the last chunk or on a chunk that fails. *)
Lemma loop_run env cid total chunks :
  forall i acc w k buffers,
    length buffers = k ->
    (forall j, (j < k)%nat ->
       exists chunk b,
         chunks !! j = Some chunk /\ buffers !! j = Some b /\
         chunkOutcome env (clock w + j) chunk = Ok b) ->
    (k = length chunks \/
     exists chunk e, chunks !! k = Some chunk /\
                     chunkOutcome env (clock w + k) chunk = Throw e) ->
    let run := synthesizeChunks env cid total i chunks acc w in
    chapters (snd run) = applyAll cid (progressUpdates total i k) (chapters w) /\
    trace (snd run) =
      trace w ++
      completions (take k chunks)
        (states cid (progressUpdates total i k) (chapters w)) ++
      failingRequest chunks k.
Proof.
  induction chunks as [|chunk rest IH]; intros i acc w k buffers Hlen Hok Hend.
  - assert (k = 0%nat) as -> by (by destruct Hend as [->|(? & ? & ? & _)]).
    simpl. by rewrite app_nil_r.
  - rewrite synthesizeChunks_cons. destruct k as [|k].
    + destruct Hend as [Hk|(chunk' & e & Hchunk & Hfail)]; [done|].
      injection Hchunk as <-. rewrite Nat.add_0_r in Hfail. rewrite Hfail.
      split; reflexivity.
    + destruct (Hok 0%nat) as (chunk' & b & Hchunk & Hb & Hout); [lia|].
      injection Hchunk as <-. rewrite Nat.add_0_r in Hout. rewrite Hout.
      cbv zeta.
      set (chs := updateChapter cid (markProgress (Float64.percent (S i) total))
                    (chapters w)).
      set (w2 := {| chapters := chs; clock := _; trace := _ |}).
      destruct buffers as [|b' buffers]; [done|].
      destruct (IH (S i) (acc ++ [b]) w2 k buffers) as [Hch Htr].
      * simpl in Hlen. lia.
      * intros j Hj. destruct (Hok (S j)) as (cj & bj & Hcj & Hbj & Houtj); [lia|].
        exists cj, bj. repeat split; try done.
        subst w2. cbn [clock]. by rewrite Nat.add_succ_l, <- Nat.add_succ_r.
      * destruct Hend as [Hk|(cf & e & Hcf & Hfail)].
        -- left. simpl in Hk. lia.
        -- right. exists cf, e. split; [done|].
           subst w2. cbn [clock]. by rewrite Nat.add_succ_l, <- Nat.add_succ_r.
      * rewrite progressUpdates_S. cbn [applyAll fold_left states].
        fold chs. split; [exact Hch|].
        rewrite Htr. subst w2. cbn [trace chapters take].
        unfold completions, failingRequest. cbn [zip_with concat lookup list_lookup].
        by rewrite <- !app_assoc.
Qed.

(** C6 (amended): an attempt first commits the chapter with the progress
    0.  With a blank text there is no chunk and the chapter is left ready
    with the progress 0.  Otherwise, when the first [k] chunks of [total]
    are synthesized and decoded and the attempt ends there (on the last
    chunk or on one that fails), the attempt commits the progress once
    after each of these chunks, after the request for it and before the
    next request; the progress after chunk [j] is [Math.round] of the
    double-precision product [(j / total) * 100], an integer between the
    integers around [100 * j / total] (it can be one less than the rounding
    of the exact quotient on a tie) that never decreases from one chunk to
    the next; and it is 100 once all chunks are through. *)
Theorem progress_within_attempt (env : Env) (c d0 : Chapter) (w : World) :
  refsReady env = true ->
  lookupChapter (id c) (chapters w) = Some d0 ->
  let w' := convertChapter env c w in
  let opening first :=
    [Started (id c); Rendered first;
     Extracted (pageNumber c) (endPageNumber c)] in
  (exists first rest,
     rendered (trace w') = rendered (trace w) ++ first :: rest /\
     progressOf (id c) first = Some 0) /\
  (forall t,
     getTextForPageRange env (clock w) (pageNumber c) (endPageNumber c) = Ok t ->
     trim t = [] ->
     exists first final,
       trace w' = trace w ++ opening first ++ [Rendered final] /\
       chapters w' = final /\
       progressOf (id c) first = Some 0 /\
       progressOf (id c) final = Some 0 /\
       forall d, lookupChapter (id c) final = Some d -> status d = Status.ready) /\
  (forall t k buffers,
     getTextForPageRange env (clock w) (pageNumber c) (endPageNumber c) = Ok t ->
     trim t <> [] ->
     let chunks := Chunker.chunkText Chunker.TEXT_CHUNK_SIZE t in
     let total := length chunks in
     synthesized env (S (clock w)) chunks k buffers ->
     (k = total \/
      exists chunk e, chunks !! k = Some chunk /\
                      chunkOutcome env (S (clock w) + k) chunk = Throw e) ->
     (1 <= total)%nat /\ (k <= total)%nat /\
     exists first committed final,
       trace w' =
         trace w ++ opening first ++ completions (take k chunks) committed
           ++ failingRequest chunks k ++ [Rendered final] /\
       chapters w' = final /\
       length committed = k /\
       progressOf (id c) first = Some 0 /\
       (forall j chs, committed !! j = Some chs ->
          progressOf (id c) chs = Some (Float64.percent (S j) total)) /\
       (forall j j' chs chs',
          (j <= j')%nat -> committed !! j = Some chs -> committed !! j' = Some chs' ->
          exists p p',
            progressOf (id c) chs = Some p /\ progressOf (id c) chs' = Some p' /\
            0 <= p <= p' /\ p' <= 100) /\
       progressOf (id c) final = Some (progressAfter total k) /\
       (k = total -> progressOf (id c) final = Some 100)) /\
  (forall total j j', (1 <= j)%nat -> (j <= j')%nat -> (j' <= total)%nat ->
     0 <= Float64.percent j total <= Float64.percent j' total) /\
  (forall total j, (1 <= j <= total)%nat -> Z.of_nat total < 2 ^ 53 ->
     (100 * Z.of_nat j) / Z.of_nat total <= Float64.percent j total
     <= - ((- (100 * Z.of_nat j)) / Z.of_nat total)).
Proof.
  intros Hrefs Hd0 w' opening.
  set (first := updateChapter (id c) markConverting (chapters w)).
  assert (lookupChapter (id c) first = Some (markConverting d0)) as Hfirst.
  { unfold first. by rewrite lookupChapter_update, Hd0. }
  assert (progressOf (id c) first = Some 0) as Hzero.
  { unfold progressOf. by rewrite Hfirst. }
  assert (forall f chs d,
            keeps_id f -> lookupChapter (id c) chs = Some d ->
            progressOf (id c) (updateChapter (id c) f chs) = progress (f d))
    as Hupdate.
  { intros f chs d Hf Hd. unfold progressOf.
    by rewrite lookupChapter_update, Hd. }
  split; [|split; [|split; [|split]]].
  - destruct (attempt_normal_form env c w Hrefs) as (chunks & o & _ & _ & Hren & _).
    cbv zeta in Hren. fold w' in Hren. unfold updatesOf in Hren.
    cbn [states] in Hren. fold first in Hren. eauto.
  - intros t Ht Hblank. exists first. eexists. subst w'.
    rewrite (convertChapter_eq env c w Hrefs). cbv zeta. rewrite Ht, Hblank.
    fold first. cbn [setChapters snd chapters trace].
    split; [by rewrite <- !app_assoc|]. split; [done|]. split; [done|].
    split; [by rewrite (Hupdate _ _ _ (markReady_keeps_id _ _) Hfirst)|].
    intros d. rewrite lookupChapter_update, Hfirst by apply markReady_keeps_id.
    by intros [= <-].
  - intros t k buffers Ht Hnonblank chunks total [Hlen Hsyn] Hend.
    assert (1 <= total)%nat as Htotal.
    { pose proof (chunkText_nonempty Chunker.TEXT_CHUNK_SIZE t
                    (trim_nonblank_nonempty t Hnonblank)) as Hne.
      unfold total. fold chunks in Hne. destruct chunks; [done|simpl; lia]. }
    assert (k <= total)%nat as Hk.
    { destruct Hend as [->|(chunk & e & Hchunk & _)]; [done|].
      apply lookup_lt_Some in Hchunk. unfold total. lia. }
    split; [exact Htotal|]. split; [exact Hk|].
    set (w2 :=
           {| chapters := first;
              clock := S (clock w);
              trace := ((trace w ++ [Started (id c)]) ++ [Rendered first])
                         ++ [Extracted (pageNumber c) (endPageNumber c)] |}).
    destruct (loop_run env (id c) total chunks 0 [] w2 k buffers Hlen Hsyn Hend)
      as [Hch Htr].
    cbv zeta in Hch, Htr. cbn [chapters trace w2] in Hch, Htr.
    set (run := synthesizeChunks env (id c) total 0 chunks [] w2) in *.
    set (committed := states (id c) (progressUpdates total 0 k) first) in *.
    assert (lookupChapter (id c) (chapters (snd run)) =
            Some (applyTo (progressUpdates total 0 k) (markConverting d0))) as Hlast.
    { rewrite Hch.
      apply lookupChapter_applyAll; [apply progressUpdates_keeps_id|exact Hfirst]. }
    assert (progress (applyTo (progressUpdates total 0 k) (markConverting d0)) =
            Some (progressAfter total k)) as Hafter
      by (by apply applyTo_updates_progress).
    assert (exists f,
              keeps_id f /\ (forall d, progress (f d) = progress d) /\
              w' =
              snd (setChapters (updateChapter (id c) f) (snd run)))
      as (f & Hf & Hfp & Hw').
    { subst w'. rewrite (convertChapter_eq env c w Hrefs). cbv zeta.
      rewrite Ht. destruct (trim t) as [|c0 rest0]; [done|].
      fold first w2 chunks total run. unfold fail.
      destruct (fst run) as [e|audioBuffers].
      - eexists. split; [apply markError_keeps_id|]. by split.
      - destruct (Audio.concatAudioBuffers audioBuffers (audioContext env))
          as [e|finalBuffer].
        + eexists. split; [apply markError_keeps_id|]. by split.
        + eexists. split; [apply markReady_keeps_id|]. by split. }
    exists first, committed, (updateChapter (id c) f (chapters (snd run))).
    assert (progressOf (id c) (updateChapter (id c) f (chapters (snd run))) =
            Some (progressAfter total k)) as Hfinal.
    { by rewrite (Hupdate _ _ _ Hf Hlast), Hfp. }
    assert (length committed = k) as Hcommitted.
    { unfold committed, progressUpdates.
      by rewrite states_length, length_map, length_seq. }
    assert (forall j chs, committed !! j = Some chs ->
              progressOf (id c) chs = Some (Float64.percent (S j) total)) as Hvalues.
    { intros j chs Hj.
      pose proof (states_progress (id c) (progressUpdates total 0 k) first
                    (markConverting d0) (progressUpdates_keeps_id total 0 k) Hfirst)
        as Hlog.
      fold committed in Hlog. rewrite progressLog_updates in Hlog.
      assert (map (progressOf (id c)) committed !! j = Some (progressOf (id c) chs))
        as Hthere.
      { change (map ?g ?l) with (g <$> l). by rewrite list_lookup_fmap, Hj. }
      rewrite Hlog in Hthere. change (map ?g ?l) with (g <$> l) in Hthere.
      rewrite list_lookup_fmap in Hthere.
      destruct (seq 1 k !! j) as [n|] eqn:Hn; [|done].
      apply lookup_seq in Hn as [-> _]. simpl in Hthere. by injection Hthere as <-. }
    split; [|split; [|split; [|split; [|split; [|split; [|split]]]]]].
    + rewrite Hw'. cbn [setChapters snd trace]. rewrite Htr.
      unfold opening. by rewrite <- !app_assoc.
    + by rewrite Hw'.
    + exact Hcommitted.
    + exact Hzero.
    + exact Hvalues.
    + intros j j' chs chs' Hjj Hj Hj'.
      exists (Float64.percent (S j) total), (Float64.percent (S j') total).
      split; [by apply Hvalues|]. split; [by apply Hvalues|].
      apply lookup_lt_Some in Hj'. rewrite Hcommitted in Hj'.
      split; [split|].
      * apply Float64Facts.percent_nonneg; lia.
      * apply Float64Facts.percent_mono; lia.
      * rewrite <- (Float64Facts.percent_full total) by lia.
        apply Float64Facts.percent_mono; lia.
    + exact Hfinal.
    + intros ->. rewrite Hfinal. unfold total in *.
      destruct (length chunks) as [|n] eqn:Hn; [lia|].
      cbn [progressAfter]. f_equal. apply Float64Facts.percent_full. lia.
  - intros total j j' Hj Hjj Hj'. split.
    + apply Float64Facts.percent_nonneg; lia.
    + apply Float64Facts.percent_mono; lia.
  - intros total j Hj Hbound. by apply Float64Facts.percent_bounds.
Qed.

(** *** The sample session *)

Lemma attempt_frame_witness :
  exists committed,
    rendered (trace (convertChapter (Samples.sample_env 2) (Samples.chapter_at 1)
                       Samples.sample_world)) =
      rendered (trace Samples.sample_world) ++ committed /\
    Forall (fun s =>
              length s = length (chapters Samples.sample_world) /\
              forall i d, chapters Samples.sample_world !! i = Some d ->
                          id d <> id (Samples.chapter_at 1) ->
                          s !! i = Some d)
      (committed ++
         [chapters (convertChapter (Samples.sample_env 2) (Samples.chapter_at 1)
                      Samples.sample_world)]).
Proof.
  exact (attempt_frame (Samples.sample_env 2) (Samples.chapter_at 1)
           Samples.sample_world).
Defined.

Lemma blank_text_short_circuit_witness :
  requested (trace (convertChapter (Samples.sample_env 2) (Samples.chapter_at 0)
                      Samples.sample_world)) =
    requested (trace Samples.sample_world).
Proof.
  apply (blank_text_short_circuit (Samples.sample_env 2) (Samples.chapter_at 0)
           Samples.sample_world Samples.blank_pages); reflexivity.
Defined.

Lemma chunk_failure_aborts_witness :
  requested (trace (convertChapter (Samples.sample_env 2) (Samples.chapter_at 1)
                      Samples.sample_world)) =
    requested (trace Samples.sample_world) ++
      map prompt
        (take 2 (Chunker.chunkText Chunker.TEXT_CHUNK_SIZE Samples.long_text)).
Proof.
  refine (proj1 (chunk_failure_aborts (Samples.sample_env 2) (Samples.chapter_at 1)
                   Samples.sample_world Samples.long_text 1
                   [AudioBuffer.mk 24000 2 [[Fin (-32768 # 32768); Fin (32767 # 32768)]]]
                   Samples.long_sentence NoAudioData _ _ _ _ _ _)).
  - reflexivity.
  - reflexivity.
  - vm_compute. discriminate.
  - split; [reflexivity|]. intros j Hj.
    assert (j = 0%nat) as -> by lia.
    exists Samples.long_sentence, (AudioBuffer.mk 24000 2 [[Fin (-32768 # 32768); Fin (32767 # 32768)]]).
    split; [|split]; vm_compute; reflexivity.
  - vm_compute. reflexivity.
  - vm_compute. reflexivity.
Defined.

(** The second sample chapter: three chunks, all of them read. *)
Lemma progress_within_attempt_witness :
  progressOf (id (Samples.chapter_at 1))
    (chapters (convertChapter (Samples.sample_env 99) (Samples.chapter_at 1)
                 Samples.sample_world)) = Some 100.
Proof.
  destruct (progress_within_attempt (Samples.sample_env 99) (Samples.chapter_at 1)
              (Samples.chapter_at 1) Samples.sample_world)
    as (_ & _ & Hchunks & _); [reflexivity .. |].
  set (b := AudioBuffer.mk 24000 2 [[Fin (-32768 # 32768); Fin (32767 # 32768)]]).
  destruct (Hchunks Samples.long_text 3%nat [b; b; b])
    as (_ & _ & first & committed & final & _ & Hfinal & _ & _ & _ & _ & _ & Hfull).
  - reflexivity.
  - vm_compute. discriminate.
  - split; [reflexivity|]. intros j Hj.
    destruct j as [|[|[|j]]]; [| | |lia];
      (eexists _, b; split; [|split]); vm_compute; reflexivity.
  - left. vm_compute. reflexivity.
  - rewrite Hfinal. apply Hfull. vm_compute. reflexivity.
Defined.

End AttemptFacts.

(** ** The bulk scheduler *)

Module SchedulerFacts.
Import Orchestrator Scheduler AttemptDefs AttemptFacts SchedulerDefs.

(** *** The queue *)

Lemma insertByPage_perm c l : insertByPage c l ≡ₚ c :: l.
Proof.
  induction l as [|d l IH]; [done|]. simpl.
  destruct (pageNumber c <=? pageNumber d); [done|].
  rewrite IH. apply Permutation_swap.
Qed.

Lemma sortByPage_perm l : sortByPage l ≡ₚ l.
Proof.
  induction l as [|c l IH]; [done|]. simpl.
  by rewrite insertByPage_perm, IH.
Qed.

Lemma insertByPage_sorted c l :
  Sorted byPage l -> Sorted byPage (insertByPage c l).
Proof.
  induction l as [|d l IH]; intros Hl; simpl.
  - by repeat constructor.
  - destruct (Z.leb_spec (pageNumber c) (pageNumber d)) as [Hle|Hgt].
    + constructor; [done|]. by constructor.
    + apply Sorted_inv in Hl as [Hl Hd]. constructor; [by apply IH|].
      destruct l as [|d' l]; simpl.
      * constructor. unfold byPage. lia.
      * destruct (Z.leb_spec (pageNumber c) (pageNumber d')).
        -- constructor. unfold byPage. lia.
        -- constructor. by apply HdRel_inv in Hd.
Qed.

Lemma sortByPage_sorted l : Sorted byPage (sortByPage l).
Proof.
  induction l as [|c l IH]; simpl; [constructor|by apply insertByPage_sorted].
Qed.

(** The sort keeps chapters of the same page in the order they had. *)
Lemma insertByPage_stable p c l :
  filter (fun d => pageNumber d = p) (insertByPage c l) =
  filter (fun d => pageNumber d = p) (c :: l).
Proof.
  induction l as [|d l IH]; [done|]. simpl.
  destruct (Z.leb_spec (pageNumber c) (pageNumber d)) as [Hle|Hgt]; [done|].
  rewrite filter_cons, IH, !filter_cons.
  destruct (decide (pageNumber d = p)), (decide (pageNumber c = p)); try done.
  lia.
Qed.

Lemma sortByPage_stable p l :
  filter (fun d => pageNumber d = p) (sortByPage l) =
  filter (fun d => pageNumber d = p) l.
Proof.
  induction l as [|c l IH]; [done|]. simpl.
  by rewrite insertByPage_stable, !filter_cons, IH.
Qed.

(** *** One attempt as a stretch of the trace *)

Lemma loop_trace_extends env cid total chunks :
  forall i acc w,
  exists seg, trace (snd (synthesizeChunks env cid total i chunks acc w)) = trace w ++ seg.
Proof.
  induction chunks as [|chunk rest IH]; intros i acc w.
  - exists []. simpl. by rewrite app_nil_r.
  - rewrite synthesizeChunks_cons.
    destruct (chunkOutcome env (clock w) chunk) as [e|b].
    + eexists. reflexivity.
    + cbv zeta. edestruct IH as [seg ->]. cbn [trace].
      eexists. by rewrite <- !app_assoc.
Qed.

Lemma attempt_trace_extends env c w :
  exists seg, trace (convertChapter env c w) = trace w ++ seg.
Proof.
  destruct (refsReady env) eqn:Hrefs.
  - rewrite (convertChapter_eq env c w Hrefs). cbv zeta.
    set (w2 := {| chapters := _; clock := _; trace := _ |}).
    assert (exists seg, trace w2 = trace w ++ seg) as [seg2 Hw2].
    { subst w2. cbn [trace]. eexists. by rewrite <- !app_assoc. }
    destruct (getTextForPageRange env (clock w) _ _) as [e|t].
    { unfold fail. cbn [setChapters snd trace]. rewrite Hw2.
      eexists. by rewrite <- !app_assoc. }
    destruct (trim t) as [|c0 rest0].
    { cbn [setChapters snd trace]. rewrite Hw2. eexists. by rewrite <- !app_assoc. }
    destruct (loop_trace_extends env (id c)
                (length (Chunker.chunkText Chunker.TEXT_CHUNK_SIZE t))
                (Chunker.chunkText Chunker.TEXT_CHUNK_SIZE t) 0 [] w2)
      as [seg3 Hw3].
    destruct (fst (synthesizeChunks _ _ _ _ _ _ _)) as [e|bs].
    { unfold fail. cbn [setChapters snd trace]. rewrite Hw3, Hw2.
      eexists. by rewrite <- !app_assoc. }
    destruct (Audio.concatAudioBuffers bs (audioContext env)) as [e|fb].
    { unfold fail. cbn [setChapters snd trace]. rewrite Hw3, Hw2.
      eexists. by rewrite <- !app_assoc. }
    cbn [setChapters snd trace]. rewrite Hw3, Hw2.
    eexists. by rewrite <- !app_assoc.
  - unfold convertChapter. rewrite Hrefs. simpl. exists []. by rewrite app_nil_r.
Qed.

Lemma last_states cid fs chs :
  fs <> [] -> last (states cid fs chs) = Some (applyAll cid fs chs).
Proof.
  revert chs. induction fs as [|f fs IH]; intros chs Hne; [done|].
  destruct fs as [|g fs]; [done|].
  cbn [states]. rewrite last_cons_cons.
  apply (IH (updateChapter cid f chs)). done.
Qed.

Lemma updatesOf_status_terminal total o d :
  status (applyTo (updatesOf total o) d) = Status.ready \/
  status (applyTo (updatesOf total o) d) = Status.error.
Proof.
  unfold updatesOf.
  change (applyTo (markConverting :: ?l) ?x) with (applyTo l (markConverting x)).
  destruct o; rewrite ?applyTo_app; simpl; auto.
Qed.

Lemma attempt_is_segment env c w :
  refsReady env = true ->
  exists seg,
    trace (convertChapter env c w) = trace w ++ seg /\ attempt_segment c seg.
Proof.
  intros Hrefs. destruct (attempt_trace_extends env c w) as [seg Hseg].
  exists seg. split; [done|].
  destruct (attempt_normal_form env c w Hrefs)
    as (chunks & o & _ & Hch & Hren & Hst & _).
  cbv zeta in Hch, Hren, Hst.
  rewrite Hseg, rendered_app in Hren. apply app_inv_head in Hren.
  rewrite Hseg, started_app in Hst. apply app_inv_head in Hst.
  split; [done|]. exists (applyAll (id c) (updatesOf (length chunks) o) (chapters w)).
  split; [rewrite Hren; by apply last_states|].
  intros d Hd Hid.
  destruct (applyAll_elem _ _ _ _ (updatesOf_keeps_id _ _) Hd Hid) as (d1 & _ & _ & ->).
  apply updatesOf_status_terminal.
Qed.

Lemma convertible_status c :
  convertible c = true <->
  status c <> Status.ready /\ status c <> Status.converting.
Proof. unfold convertible. destruct (status c); intuition congruence. Qed.

Lemma convertQueue_segments env queue :
  refsReady env = true ->
  forall w,
  exists segs,
    trace (convertQueue env queue w) = trace w ++ concat segs /\
    Forall2 attempt_segment (filter (fun c => convertible c = true) queue) segs.
Proof.
  intros Hrefs. induction queue as [|c queue IH]; intros w.
  - exists []. simpl. by rewrite app_nil_r.
  - cbn [convertQueue fold_left]. rewrite filter_cons.
    destruct (convertible c) eqn:Hc.
    + destruct (attempt_is_segment env c w Hrefs) as (seg & Hseg & Hprop).
      destruct (IH (convertChapter env c w)) as (segs & Hsegs & Hall).
      exists (seg :: segs). split.
      * unfold convertQueue in Hsegs. rewrite Hsegs, Hseg. simpl.
        by rewrite <- app_assoc.
      * rewrite decide_True by done. by constructor.
    + rewrite decide_False by congruence. apply IH.
Qed.

Lemma started_segments cs segs :
  Forall2 attempt_segment cs segs -> started (concat segs) = map id cs.
Proof.
  intros Hall. induction Hall as [|c seg cs segs Hseg _ IH]; [done|].
  destruct Hseg as [Hst _]. simpl. by rewrite started_app, Hst, IH.
Qed.

(** A bulk run that no other handler overlaps does what C5 says: it takes
    the selected chapters in ascending page order; of these it converts,
    in that order, exactly those whose status is neither [ready] nor
    [converting]; the trace of the run is the attempts one after the
    other, each with its chapter in a final status (ready or error) in the
    last list it commits, before the next one starts; and this holds
    whatever the collaborators answer, so a failure of one chapter does
    not keep the next from being converted.  (A run that a retry overlaps
    is the matter of [SessionFacts].) *)
Theorem bulk_conversion_order (env : Env) (selectedChapterIds : gset string)
    (w : World) :
  refsReady env = true ->
  let queue := chaptersToConvert (chapters w) selectedChapterIds in
  let converted :=
    filter (fun c => status c <> Status.ready /\ status c <> Status.converting)
      queue in
  let w' := handleConvertSelected env selectedChapterIds w in
  Sorted (fun a b => pageNumber a <= pageNumber b) queue /\
  queue ≡ₚ filter (fun c => id c ∈ selectedChapterIds) (chapters w) /\
  started (trace w') = started (trace w) ++ map id converted /\
  exists segs,
    trace w' = trace w ++ concat segs /\
    Forall2
      (fun c seg =>
         started seg = [id c] /\
         exists final,
           last (rendered seg) = Some final /\
           forall d, d ∈ final -> id d = id c ->
                     status d = Status.ready \/ status d = Status.error)
      converted segs.
Proof.
  intros Hrefs queue converted w'.
  assert (converted = filter (fun c => convertible c = true) queue) as Hconv.
  { subst converted. apply list_filter_iff. intros c. symmetry.
    apply convertible_status. }
  destruct (convertQueue_segments env queue Hrefs w) as (segs & Hsegs & Hall).
  split; [apply sortByPage_sorted|]. split; [apply sortByPage_perm|]. split.
  - subst w'. unfold handleConvertSelected. fold queue.
    rewrite Hsegs, started_app, (started_segments _ _ Hall). by rewrite Hconv.
  - exists segs. split; [exact Hsegs|]. by rewrite Hconv.
Qed.

(** *** The audio buffer and the status *)

Lemma applyTo_status_audio fs d :
  Forall keeps_status_audio fs ->
  status (applyTo fs d) = status d /\ audioBuffer (applyTo fs d) = audioBuffer d.
Proof.
  revert d. induction fs as [|f fs IH]; intros d Hfs; [done|].
  apply Forall_cons in Hfs as [Hf Hfs]. simpl.
  destruct (IH (f d) Hfs) as [-> ->]. apply Hf.
Qed.

Lemma progressUpdates_keep_status_audio total i k :
  Forall keeps_status_audio (progressUpdates total i k).
Proof.
  unfold progressUpdates. apply Forall_forall. intros f Hf.
  by apply list_elem_of_fmap in Hf as (j & -> & _).
Qed.

(** A chapter without audio stays good along the updates of an attempt:
    it is [converting] without audio until the last update, which makes
    it [ready] with audio or [error] without. *)
Lemma shape_good us final x :
  Forall keeps_status_audio us ->
  status x = Status.converting -> audioBuffer x = None ->
  (forall y, audioBuffer y = None -> good (final y)) ->
  forall n, good (applyTo (take n (us ++ [final])) x).
Proof.
  intros Hus Hst Hau Hfinal n.
  destruct (decide (n <= length us)%nat) as [Hle|Hgt].
  - rewrite take_app_le by done.
    destruct (applyTo_status_audio (take n us) x) as [Hs Ha];
      [by apply Forall_take|].
    unfold good. rewrite Hs, Ha, Hst, Hau. split; [by intros [? ?]|done].
  - rewrite take_ge by (rewrite length_app; simpl; lia).
    rewrite applyTo_app. simpl. apply Hfinal.
    destruct (applyTo_status_audio us x Hus) as [_ ->]. done.
Qed.

Lemma updatesOf_prefix_good total o n d :
  audioBuffer d = None ->
  good (applyTo (take (S n) (updatesOf total o)) d).
Proof.
  intros Hd. unfold updatesOf. cbn [take].
  change (applyTo (markConverting :: ?l) ?x) with (applyTo l (markConverting x)).
  assert (forall m y, audioBuffer y = None -> good (markError m y)) as Herror.
  { intros m y Hy. unfold good. simpl. rewrite Hy. split; [by intros [? ?]|done]. }
  assert (forall b s y, good (markReady (Some b) s y)) as Hready.
  { intros b s y. unfold good. simpl. split; [done|by eexists]. }
  destruct o as [e| |k e|b|e].
  - apply (shape_good [] _ (markConverting d)); [constructor|done|done|].
    apply Herror.
  - apply (shape_good [] _ (markConverting d)); [constructor|done|done|].
    intros y _. apply Hready.
  - apply shape_good; auto using progressUpdates_keep_status_audio.
  - apply shape_good; auto using progressUpdates_keep_status_audio.
  - apply shape_good; auto using progressUpdates_keep_status_audio.
Qed.

Lemma applyAll_prefix_good cid fs total o n chs :
  fs = updatesOf total o ->
  (forall d, d ∈ chs -> id d = cid ->
             status d = Status.pending \/ status d = Status.error) ->
  Forall good chs ->
  Forall good (applyAll cid (take (S n) fs) chs).
Proof.
  intros -> Hpre Hgood. apply Forall_lookup. intros i d Hi.
  rewrite applyAll_lookup in Hi by (apply Forall_take, updatesOf_keeps_id).
  destruct (chs !! i) as [d1|] eqn:Hd1; [|done].
  simpl in Hi. injection Hi as <-.
  assert (d1 ∈ chs) as Hin by (apply list_elem_of_lookup; eauto).
  pose proof (proj1 (Forall_forall _ _) Hgood d1 Hin) as Hg.
  destruct (decide (id d1 = cid)) as [Heq|Hne]; [|done].
  apply updatesOf_prefix_good.
  destruct (audioBuffer d1) as [b|] eqn:Hb; [|done].
  exfalso.
  assert (status d1 = Status.ready) as Hr.
  { apply Hg. rewrite Hb. by eexists. }
  destruct (Hpre d1 Hin Heq) as [Hs|Hs]; congruence.
Qed.

(** An attempt on a chapter that is [pending] or in [error] keeps every
    chapter good, in every list it commits and in the one it leaves. *)
Lemma attempt_keeps_good env c w :
  (forall d, d ∈ chapters w -> id d = id c ->
             status d = Status.pending \/ status d = Status.error) ->
  Forall good (chapters w) ->
  Forall (Forall good) (rendered (trace w)) ->
  Forall good (chapters (convertChapter env c w)) /\
  Forall (Forall good) (rendered (trace (convertChapter env c w))).
Proof.
  intros Hpre Hgood Htrace. destruct (refsReady env) eqn:Hrefs.
  - destruct (attempt_normal_form env c w Hrefs)
      as (chunks & o & _ & Hch & Hren & _).
    cbv zeta in Hch, Hren. rewrite Hch, Hren.
    set (fs := updatesOf (length chunks) o).
    split.
    + rewrite <- (take_ge fs (S (length fs))) by lia.
      by eapply applyAll_prefix_good.
    + apply Forall_app. split; [done|].
      apply Forall_forall. intros s Hs.
      apply states_prefixes in Hs as (n & _ & ->).
      by eapply applyAll_prefix_good.
  - unfold convertChapter. rewrite Hrefs. by simpl.
Qed.

(** *** Sessions *)

Lemma applyAll_ids cid fs chs :
  Forall keeps_id fs -> map id (applyAll cid fs chs) = map id chs.
Proof.
  intros Hfs. apply list_eq. intros i.
  change (map id ?l) with (id <$> l).
  rewrite !list_lookup_fmap, applyAll_lookup by done.
  destruct (chs !! i) as [d|]; [|done]. simpl. f_equal.
  destruct (decide (id d = cid)); [by apply applyTo_id|done].
Qed.

Lemma attempt_ids env c w :
  map id (chapters (convertChapter env c w)) = map id (chapters w).
Proof.
  destruct (refsReady env) eqn:Hrefs.
  - destruct (attempt_normal_form env c w Hrefs) as (chunks & o & _ & Hch & _).
    cbv zeta in Hch. rewrite Hch. apply applyAll_ids, updatesOf_keeps_id.
  - unfold convertChapter. by rewrite Hrefs.
Qed.

Lemma applyAll_other cid fs chs d :
  Forall keeps_id fs -> d ∈ applyAll cid fs chs -> id d <> cid -> d ∈ chs.
Proof.
  intros Hfs Hd Hne. apply list_elem_of_lookup in Hd as [i Hi].
  rewrite applyAll_lookup in Hi by done.
  destruct (chs !! i) as [d1|] eqn:Hd1; [|done].
  simpl in Hi. injection Hi as <-.
  destruct (decide (id d1 = cid)) as [Heq|_].
  - exfalso. apply Hne. by rewrite applyTo_id.
  - apply list_elem_of_lookup. eauto.
Qed.

(** A chapter of another id found after an attempt was there before. *)
Lemma attempt_other env c w d :
  d ∈ chapters (convertChapter env c w) -> id d <> id c -> d ∈ chapters w.
Proof.
  intros Hd Hne. destruct (refsReady env) eqn:Hrefs.
  - destruct (attempt_normal_form env c w Hrefs) as (chunks & o & _ & Hch & _).
    cbv zeta in Hch. rewrite Hch in Hd.
    by apply (applyAll_other _ _ _ _ (updatesOf_keeps_id _ _) Hd).
  - unfold convertChapter in Hd. by rewrite Hrefs in Hd.
Qed.

Lemma unique_id chs d d' :
  NoDup (map id chs) -> d ∈ chs -> d' ∈ chs -> id d = id d' -> d = d'.
Proof.
  intros Hnd Hd Hd' Hid.
  apply list_elem_of_lookup in Hd as [i Hi].
  apply list_elem_of_lookup in Hd' as [j Hj].
  assert (i = j) as ->; [|congruence].
  change (map id chs) with (id <$> chs) in Hnd.
  apply (NoDup_lookup _ i j (id d) Hnd); rewrite list_lookup_fmap.
  - by rewrite Hi.
  - by rewrite Hj, Hid.
Qed.

Lemma attempt_invariant env c w :
  session_invariant w ->
  (forall d, d ∈ chapters w -> id d = id c ->
             status d = Status.pending \/ status d = Status.error) ->
  session_invariant (convertChapter env c w).
Proof.
  intros (Hnd & Hgood & Htrace) Hpre.
  destruct (attempt_keeps_good env c w Hpre Hgood Htrace) as [Hg Ht].
  split; [by rewrite attempt_ids|]. done.
Qed.

Lemma retry_invariant env chapterId w :
  session_invariant w ->
  session_invariant (perform env (Retry chapterId) w).
Proof.
  intros Hinv. cbn [perform]. destruct (retryOffered chapterId w) eqn:Hoffer; [|done].
  unfold handleRetry.
  destruct (find _ (chapters w)) as [c|] eqn:Hfind; [|done].
  apply find_some in Hfind as [Hc Hid].
  apply list_elem_of_In in Hc. apply bool_decide_eq_true in Hid.
  unfold retryOffered in Hoffer. apply bool_decide_eq_true in Hoffer.
  apply Exists_exists in Hoffer as (d0 & Hd0 & Hid0 & Hst0).
  apply attempt_invariant; [done|].
  intros d Hd Hdc. right.
  destruct Hinv as (Hnd & _).
  assert (d = d0) as -> by (apply (unique_id (chapters w)); congruence).
  done.
Qed.

Lemma convertQueue_invariant env queue :
  forall w,
    session_invariant w ->
    NoDup (map id queue) ->
    (forall c, c ∈ queue -> forall d, d ∈ chapters w -> id d = id c -> d = c) ->
    session_invariant (convertQueue env queue w).
Proof.
  induction queue as [|c queue IH]; intros w Hinv Hnd Hsame; [done|].
  cbn [convertQueue fold_left].
  change (map id (c :: queue)) with (id c :: map id queue) in Hnd.
  apply NoDup_cons in Hnd as [Hc Hnd].
  destruct (convertible c) eqn:Hconv.
  - apply IH; [|done|].
    + apply attempt_invariant; [done|].
      intros d Hd Hid. rewrite (Hsame c) with (d := d); [|left|done|done].
      unfold convertible in Hconv. destruct (status c); auto; done.
    + intros c' Hc' d Hd Hid.
      apply (Hsame c'); [by right| |done].
      apply (attempt_other env c w); [done|].
      intros Heq. apply Hc. rewrite <- Heq, Hid.
      change (map id queue) with (id <$> queue).
      by apply list_elem_of_fmap_2.
  - apply IH; [done|done|]. intros c' Hc'. apply Hsame. by right.
Qed.

Lemma bulk_invariant env selectedChapterIds w :
  session_invariant w ->
  session_invariant (perform env (ConvertSelected selectedChapterIds) w).
Proof.
  intros Hinv. cbn [perform]. unfold handleConvertSelected.
  pose proof Hinv as (Hnd & _).
  set (selected := filter (fun c => id c ∈ selectedChapterIds) (chapters w)).
  assert (chaptersToConvert (chapters w) selectedChapterIds ≡ₚ selected) as Hperm
    by apply sortByPage_perm.
  assert (NoDup (map id selected)) as Hsel.
  { change (map id ?l) with (id <$> l) in *.
    eapply sublist_NoDup; [exact Hnd|].
    apply fmap_sublist. unfold selected. apply sublist_filter. }
  apply convertQueue_invariant; [done| |].
  - change (map id ?l) with (id <$> l) in *. by rewrite Hperm.
  - intros c Hc d Hd Hid. rewrite Hperm in Hc.
    apply list_elem_of_filter in Hc as [_ Hc].
    by apply (unique_id (chapters w)).
Qed.

Lemma run_invariant env actions :
  forall w, session_invariant w -> session_invariant (run env actions w).
Proof.
  induction actions as [|a actions IH]; intros w Hinv; [done|].
  cbn [run fold_left]. apply IH.
  destruct a; [by apply retry_invariant|by apply bulk_invariant].
Qed.

Lemma chapterList_ids uuid numPages entries :
  (forall i j, uuid i = uuid j -> i = j) ->
  NoDup (map id (Outline.chapterList uuid numPages entries)).
Proof.
  intros Hinj. unfold Outline.chapterList.
  change (map id ?l) with (id <$> l).
  eapply sublist_NoDup; [|apply fmap_sublist, sublist_filter].
  rewrite fmap_imap.
  rewrite (imap_ext _ (fun i _ => uuid i)) by done.
  rewrite imap_seq_0. apply NoDup_fmap_2_strong; [|apply NoDup_seq].
  intros i j _ _. apply Hinj.
Qed.

Lemma loaded_invariant uuid pdf chapterList :
  (forall i j, uuid i = uuid j -> i = j) ->
  Outline.setupChapters uuid pdf = inr chapterList ->
  session_invariant (loaded chapterList).
Proof.
  intros Hinj Hsetup.
  assert (exists entries,
            chapterList = Outline.chapterList uuid (Outline.numPages pdf) entries)
    as [entries ->].
  { unfold Outline.setupChapters in Hsetup.
    destruct (Outline.getOutline pdf) as [e|[[|item items]|]]; try done.
    injection Hsetup as <-. eauto. }
  assert (Forall good (Outline.chapterList uuid (Outline.numPages pdf) entries))
    as Hgood.
  { apply Forall_forall. intros c Hc. unfold Outline.chapterList in Hc.
    apply list_elem_of_filter in Hc as [_ Hc].
    apply list_elem_of_lookup in Hc as [i Hi].
    rewrite list_lookup_imap in Hi.
    destruct (entries !! i); [|done]. simpl in Hi. injection Hi as <-.
    unfold good. simpl. split; [by intros [? ?]|done]. }
  split; [by apply chapterList_ids|]. split; [done|].
  simpl. by repeat constructor.
Qed.

(** *** The sample session *)

Lemma bulk_conversion_order_witness :
  Sorted (fun a b => pageNumber a <= pageNumber b)
    (chaptersToConvert (chapters Samples.sample_world) {["iix"; "ix"]}).
Proof.
  apply (bulk_conversion_order (Samples.sample_env 2) {["iix"; "ix"]}
           Samples.sample_world).
  reflexivity.
Defined.

End SchedulerFacts.

(** ** Overlapping handlers *)

Module SessionFacts.
Import Orchestrator Scheduler Session AttemptDefs SchedulerDefs SessionDefs.

#[local] Opaque Float64.percent.

(** *** A ready chapter has its audio, however the handlers overlap *)

Lemma markConverting_keeps : keeps_ready_audio markConverting.
Proof. intros d _ H. discriminate H. Qed.

Lemma markError_keeps message : keeps_ready_audio (markError message).
Proof. intros d _ H. discriminate H. Qed.

Lemma markProgress_keeps percent : keeps_ready_audio (markProgress percent).
Proof. intros d Hd. exact Hd. Qed.

Lemma markReady_keeps buffer seconds :
  is_Some buffer -> keeps_ready_audio (markReady buffer seconds).
Proof. intros Hb d _ _. exact Hb. Qed.

Lemma commit_sound chapterId f w :
  keeps_ready_audio f -> sound w -> sound (commit chapterId f w).
Proof.
  intros Hf [Hchs Htr].
  assert (Forall ready_has_audio (updateChapter chapterId f (chapters w))) as Hnew.
  { unfold updateChapter. apply Forall_map. eapply Forall_impl; [exact Hchs|].
    intros c Hc. simpl. destruct (decide (id c = chapterId)); [by apply Hf|done]. }
  split; [exact Hnew|].
  unfold commit, setChapters. cbn [snd trace].
  rewrite AttemptFacts.rendered_app. apply Forall_app. split; [exact Htr|].
  by apply Forall_singleton.
Qed.

Lemma caught_sound chapterId err w : sound w -> sound (caught chapterId err w).
Proof. apply commit_sound, markError_keeps. Qed.

Lemma note_sound e w :
  rendered [e] = [] -> sound w -> sound (note e w).
Proof.
  intros He [Hchs Htr]. split; [exact Hchs|].
  unfold note, record. cbn [snd trace].
  by rewrite AttemptFacts.rendered_app, He, app_nil_r.
Qed.

Lemma ask_sound {A} (answer : nat -> result A) w :
  sound w -> sound (snd (ask answer w)).
Proof. intros H. exact H. Qed.

Lemma nextChunk_sound env chapterId total i chunks audioBuffers w :
  sound w -> sound (snd (nextChunk env chapterId total i chunks audioBuffers w)).
Proof.
  intros Hw. destruct chunks as [|chunk rest]; cbn [nextChunk snd].
  - destruct (Audio.concatAudioBuffers audioBuffers (audioContext env)) as [err|finalBuffer].
    + by apply caught_sound.
    + apply commit_sound; [|done]. apply markReady_keeps. by eexists.
  - by apply note_sound.
Qed.

Lemma start_sound env chapter w : sound w -> sound (snd (start env chapter w)).
Proof.
  intros Hw. unfold start. destruct (negb (refsReady env)); [done|].
  cbn [snd]. apply note_sound; [done|].
  apply commit_sound; [apply markConverting_keeps|]. by apply note_sound.
Qed.

Lemma resume_sound env a w : sound w -> sound (snd (resume env a w)).
Proof.
  intros Hw. destruct a as [chapter|chapterId total i chunk rest audioBuffers];
    cbn [resume]; unfold ask.
  - destruct (getTextForPageRange env (clock w) _ _) as [err|t].
    + by apply caught_sound.
    + destruct (trim t).
      * apply commit_sound; [|done]. apply markReady_keeps.
        rewrite DecoderFacts.createBuffer_placeholder. by eexists.
      * by apply nextChunk_sound.
  - destruct (audioOfResponse env _) as [err|audioBuffer].
    + by apply caught_sound.
    + apply nextChunk_sound, commit_sound; [apply markProgress_keeps|done].
Qed.

Lemma nextInQueue_sound env queue :
  forall w, sound w -> sound (snd (nextInQueue env queue w)).
Proof.
  induction queue as [|chapter rest IH]; intros w Hw; [done|].
  cbn [nextInQueue]. destruct (convertible chapter); [|by apply IH].
  pose proof (start_sound env chapter w Hw) as Hstart.
  destruct (start env chapter w) as [[a|] w']; [exact Hstart|by apply IH].
Qed.

Lemma step_sound env s i : sound (world s) -> sound (world (step env s i)).
Proof.
  intros Hw. destruct i as [[chapterId|selectedChapterIds]|k]; cbn [step].
  - destruct (retryOffered chapterId (world s)); [|done].
    destruct (List.find _ _) as [chapter|]; [|done].
    pose proof (start_sound env chapter _ Hw) as Hstart.
    by destruct (start env chapter (world s)) as [[a|] w'].
  - destruct (isBulkConverting s); [done|].
    pose proof (nextInQueue_sound env
                  (chaptersToConvert (chapters (world s)) selectedChapterIds)
                  _ Hw) as Hnext.
    by destruct (nextInQueue env _ (world s)) as [[handler|] w'].
  - destruct (inFlight s !! k) as [[a|a queue]|]; [| |done].
    + pose proof (resume_sound env a _ Hw) as Hres.
      by destruct (resume env a (world s)) as [next w'].
    + pose proof (resume_sound env a _ Hw) as Hres.
      destruct (resume env a (world s)) as [[a'|] w']; [done|].
      pose proof (nextInQueue_sound env queue w' Hres) as Hnext.
      by destruct (nextInQueue env queue w') as [next w''].
Qed.

Lemma play_sound env inputs :
  forall s, sound (world s) -> sound (world (play env inputs s)).
Proof.
  induction inputs as [|i inputs IH]; intros s Hs; [done|].
  cbn [play fold_left]. by apply IH, step_sound.
Qed.

(** *** A handler left alone does what its [await]s say *)

Lemma loop_finishes env chapterId total :
  forall chunks i audioBuffers w,
    exists n,
      ending env (nextChunk env chapterId total i chunks audioBuffers w) n =
      (None, closing env chapterId
               (synthesizeChunks env chapterId total i chunks audioBuffers w)).
Proof.
  induction chunks as [|chunk rest IH]; intros i audioBuffers w.
  - exists 0%nat. reflexivity.
  - rewrite AttemptFacts.synthesizeChunks_cons. unfold chunkOutcome.
    destruct (audioOfResponse env (generateContent env (clock w) (prompt chunk)))
      as [err|audioBuffer] eqn:Hanswer.
    + exists 1%nat. cbn [nextChunk ending finish resume]. unfold ask, note, record.
      cbn [snd clock chapters trace]. by rewrite Hanswer.
    + cbv zeta.
      destruct (IH (S i) (audioBuffers ++ [audioBuffer])
                  (commit chapterId (markProgress (Float64.percent (S i) total))
                     (snd (ask (fun now =>
                                  audioOfResponse env
                                    (generateContent env now (prompt chunk)))
                             (note (Requested (prompt chunk)) w)))))
        as [n Hn].
      exists (S n). cbn [nextChunk ending finish resume]. unfold ask at 1.
      unfold note at 1, record at 1. cbn [snd clock chapters trace].
      rewrite Hanswer. exact Hn.
Qed.

Lemma attempt_finishes env chapter w :
  exists n, ending env (start env chapter w) n = (None, convertChapter env chapter w).
Proof.
  destruct (refsReady env) eqn:Hrefs.
  - rewrite (AttemptFacts.convertChapter_eq env chapter w Hrefs). cbv zeta.
    unfold start. rewrite Hrefs. cbn [negb ending].
    destruct (getTextForPageRange env (clock w) (pageNumber chapter)
                (endPageNumber chapter)) as [err|t] eqn:Htext.
    + exists 1%nat. cbn [finish resume]. unfold ask, note, commit, record, setChapters.
      cbn [snd clock chapters trace]. by rewrite Htext.
    + destruct (trim t) as [|c rest] eqn:Htrim.
      * exists 1%nat. cbn [finish resume].
        unfold ask, note, commit, record, setChapters.
        cbn [snd clock chapters trace].
        by rewrite Htext, Htrim, DecoderFacts.createBuffer_placeholder.
      * destruct (loop_finishes env (id chapter)
                    (length (Chunker.chunkText Chunker.TEXT_CHUNK_SIZE t))
                    (Chunker.chunkText Chunker.TEXT_CHUNK_SIZE t) 0 []
                    (snd (ask (fun now =>
                                 getTextForPageRange env now (pageNumber chapter)
                                   (endPageNumber chapter))
                            (note (Extracted (pageNumber chapter) (endPageNumber chapter))
                               (commit (id chapter) markConverting
                                  (note (Started (id chapter)) w))))))
          as [n Hn].
        exists (S n). cbn [finish resume]. unfold ask at 1.
        unfold note at 1 2, commit at 1, record, setChapters.
        cbn [snd clock chapters trace]. rewrite Htext, Htrim. exact Hn.
  - exists 0%nat. unfold start, convertChapter. by rewrite Hrefs.
Qed.

Lemma play_app env inputs1 inputs2 s :
  play env (inputs1 ++ inputs2) s = play env inputs2 (play env inputs1 s).
Proof. apply fold_left_app. Qed.

Lemma step_retry_alone env a w :
  step env {| world := w; inFlight := [RetryTask a] |} (Resolve 0) =
  {| world := snd (resume env a w);
     inFlight := option_list (RetryTask <$> fst (resume env a w)) |}.
Proof.
  unfold step. cbn [inFlight world].
  change ([RetryTask a] !! 0%nat) with (Some (RetryTask a)). cbv beta iota.
  by destruct (resume env a w) as [[a'|] w'].
Qed.

Lemma step_bulk_alone env a queue w :
  step env {| world := w; inFlight := [BulkTask a queue] |} (Resolve 0) =
  match resume env a w with
  | (Some a, w) => {| world := w; inFlight := [BulkTask a queue] |}
  | (None, w) => install (nextInQueue env queue w)
  end.
Proof.
  unfold step. cbn [inFlight world].
  change ([BulkTask a queue] !! 0%nat) with (Some (BulkTask a queue)).
  cbv beta iota.
  destruct (resume env a w) as [[a'|] w']; [done|].
  by destruct (nextInQueue env queue w') as [[handler|] w''].
Qed.

Lemma play_cons env i inputs s :
  play env (i :: inputs) s = play env inputs (step env s i).
Proof. reflexivity. Qed.

Lemma alone_S n : alone (S n) = Resolve 0 :: alone n.
Proof. reflexivity. Qed.

Lemma alone_add n m : alone (n + m) = alone n ++ alone m.
Proof. apply replicate_add. Qed.

Lemma alone_nothing env n w :
  play env (alone n) {| world := w; inFlight := [] |} =
  {| world := w; inFlight := [] |}.
Proof. induction n as [|n IH]; [done|]. by rewrite alone_S, play_cons. Qed.

Lemma retry_alone env :
  forall n a w w',
    finish env n a w = (None, w') ->
    play env (alone n) {| world := w; inFlight := [RetryTask a] |} =
    {| world := w'; inFlight := [] |}.
Proof.
  induction n as [|n IH]; intros a w w' Hfin; [done|].
  cbn [finish] in Hfin. rewrite alone_S, play_cons, step_retry_alone.
  destruct (resume env a w) as [[a'|] w1]; cbn [fst snd fmap option_fmap option_map option_list].
  - apply (IH a' w1 w' Hfin).
  - injection Hfin as <-. apply alone_nothing.
Qed.

(** The attempt of a bulk run left alone: the run then goes on with the
    queue. *)
Lemma bulk_attempt_alone env queue :
  forall n a w w',
    finish env n a w = (None, w') ->
    exists m,
      (m <= n)%nat /\
      play env (alone m) {| world := w; inFlight := [BulkTask a queue] |} =
      install (nextInQueue env queue w').
Proof.
  induction n as [|n IH]; intros a w w' Hfin; [done|].
  cbn [finish] in Hfin.
  destruct (resume env a w) as [[a'|] w1] eqn:Hres.
  - destruct (IH a' w1 w' Hfin) as (m & Hm & Hplay).
    exists (S m). split; [lia|].
    by rewrite alone_S, play_cons, step_bulk_alone, Hres.
  - injection Hfin as <-. exists 1%nat. split; [lia|].
    by rewrite alone_S, play_cons, step_bulk_alone, Hres.
Qed.

Lemma queue_alone env queue :
  forall w,
    exists m,
      play env (alone m) (install (nextInQueue env queue w)) =
      {| world := convertQueue env queue w; inFlight := [] |}.
Proof.
  induction queue as [|chapter rest IH]; intros w.
  - by exists 0%nat.
  - cbn [nextInQueue]. unfold convertQueue. cbn [fold_left].
    fold (convertQueue env rest).
    destruct (convertible chapter); [|apply IH].
    destruct (attempt_finishes env chapter w) as [n Hn].
    destruct (start env chapter w) as [[a|] w1]; cbn [ending] in Hn.
    + destruct (bulk_attempt_alone env rest n a w1 _ Hn) as (m & _ & Hplay).
      destruct (IH (convertChapter env chapter w)) as [m' Hrest].
      exists (m + m')%nat. rewrite alone_add, play_app.
      change (install (Some (BulkTask a rest), w1))
        with {| world := w1; inFlight := [BulkTask a rest] |}.
      rewrite Hplay. exact Hrest.
    + injection Hn as <-. apply IH.
Qed.

Lemma perform_plays env a w :
  exists inputs,
    play env inputs {| world := w; inFlight := [] |} =
    {| world := perform env a w; inFlight := [] |}.
Proof.
  destruct a as [chapterId|selectedChapterIds]; cbn [perform].
  - destruct (retryOffered chapterId w) eqn:Hoffered; [|by exists []].
    unfold handleRetry.
    destruct (List.find _ (chapters w)) as [chapter|] eqn:Hfind; [|by exists []].
    destruct (attempt_finishes env chapter w) as [n Hn].
    exists (Press (Retry chapterId) :: alone n).
    rewrite play_cons. unfold step. cbn [world inFlight].
    rewrite Hoffered, Hfind.
    destruct (start env chapter w) as [[a|] w1]; cbn [ending] in Hn.
    + by apply retry_alone.
    + injection Hn as <-. apply alone_nothing.
  - unfold handleConvertSelected.
    destruct (queue_alone env (chaptersToConvert (chapters w) selectedChapterIds) w)
      as [m Hm].
    exists (Press (ConvertSelected selectedChapterIds) :: alone m).
    rewrite play_cons. unfold step. cbn [world inFlight isBulkConverting existsb].
    cbv beta iota.
    by destruct (nextInQueue env _ w) as [[handler|] w1].
Qed.

Lemma run_plays env actions :
  forall w,
    exists inputs,
      play env inputs {| world := w; inFlight := [] |} =
      {| world := run env actions w; inFlight := [] |}.
Proof.
  induction actions as [|a actions IH]; intros w; [by exists []|].
  destruct (perform_plays env a w) as [inputs1 H1].
  destruct (IH (perform env a w)) as [inputs2 H2].
  exists (inputs1 ++ inputs2). by rewrite play_app, H1.
Qed.

(** *** Audio buffer and status *)

Lemma sample_uuid_inj i j : Samples.sample_uuid i = Samples.sample_uuid j -> i = j.
Proof.
  revert j. induction i as [|i IH]; intros [|j] H; simpl in H;
    try reflexivity; try discriminate.
  injection H as H. f_equal. by apply IH.
Qed.

(** C2 at the failing input: a retry pressed while a bulk run is in flight
    makes ready a chapter the run still has in its queue with the status it
    had when the run started; the test of line 114, which is there to skip
    a chapter that is ready, reads that stale status, so the run converts
    the chapter again, and the first update of that attempt leaves the
    buffer in place under the status [converting]: the chapter has a
    buffer and is not ready. *)
Lemma retry_during_bulk_keeps_buffer :
  ~ Forall (fun c => is_Some (audioBuffer c) <-> status c = Status.ready)
      (chapters
         (world (play (Samples.sample_env 1) Samples.overlapping_presses
                   (opened Samples.sample_chapters)))).
Proof.
  intros Hall.
  assert (exists c,
            chapters
              (world (play (Samples.sample_env 1) Samples.overlapping_presses
                        (opened Samples.sample_chapters))) !! 2%nat = Some c /\
            status c = Status.converting /\ is_Some (audioBuffer c))
    as (c & Hc & Hstatus & Hbuffer).
  { eexists. split; [vm_compute; reflexivity|]. split; [reflexivity|by eexists]. }
  pose proof (proj1 (Forall_lookup_1 _ _ _ _ Hall Hc) Hbuffer) as Hready.
  rewrite Hstatus in Hready. discriminate Hready.
Qed.

(** C5 at the failing input: with the same presses, just before the bulk
    run is resumed for the last time it has the third chapter in its queue
    with the status [error] it had when the button was pressed, while the
    chapter is ready (the retry has converted it); resumed, the run starts
    an attempt on that ready chapter instead of skipping it, and the
    chapter is [converting] again. *)
Lemma bulk_run_converts_a_ready_chapter :
  let env := Samples.sample_env 1 in
  let before :=
    play env (take 7 Samples.overlapping_presses) (opened Samples.sample_chapters) in
  let after := step env before (Resolve 0) in
  after = play env Samples.overlapping_presses (opened Samples.sample_chapters) /\
  map (fun handler =>
         match handler with
         | BulkTask _ queue => map (fun c => (id c, status c)) queue
         | RetryTask _ => []
         end) (inFlight before) = [[("iix", Status.error)]] /\
  map (fun c => (id c, status c)) (chapters (world before)) =
    [("x", Status.converting); ("ix", Status.pending); ("iix", Status.ready)] /\
  started (trace (world after)) = started (trace (world before)) ++ ["iix"] /\
  map (fun c => (id c, status c)) (chapters (world after)) =
    [("x", Status.ready); ("ix", Status.pending); ("iix", Status.converting)].
Proof. vm_compute. repeat split. Qed.

(** Apart from that race the equivalence of C2 holds.  From the chapter
    list made of the outline, whatever the user presses and whenever, and
    whatever the collaborators answer, a chapter whose status is [ready]
    has an audio buffer, in every chapter list committed and in the one
    left.  When no button is pressed while a handler is in flight (the
    handlers run one after the other, which is a way the presses and
    answers can fall), a chapter has an audio buffer if and only if its
    status is [ready].  [crypto.randomUUID] is taken never to return the
    same identifier twice. *)
Theorem audio_buffer_and_status (env : Env) (uuid : nat -> string)
    (pdf : Outline.PDFDocumentProxy) (chapterList : list Chapter) :
  (forall i j, uuid i = uuid j -> i = j) ->
  Outline.setupChapters uuid pdf = inr chapterList ->
  (forall inputs,
     let w := world (play env inputs (opened chapterList)) in
     Forall (Forall (fun c => status c = Status.ready -> is_Some (audioBuffer c)))
       (rendered (trace w)) /\
     Forall (fun c => status c = Status.ready -> is_Some (audioBuffer c))
       (chapters w)) /\
  (forall actions,
     let w := run env actions (loaded chapterList) in
     (exists inputs,
        play env inputs (opened chapterList) = {| world := w; inFlight := [] |}) /\
     Forall
       (Forall (fun c => is_Some (audioBuffer c) <-> status c = Status.ready))
       (rendered (trace w)) /\
     Forall (fun c => is_Some (audioBuffer c) <-> status c = Status.ready)
       (chapters w)).
Proof.
  intros Hinj Hsetup.
  pose proof (SchedulerFacts.loaded_invariant uuid pdf chapterList Hinj Hsetup)
    as Hloaded.
  split.
  - intros inputs w.
    assert (sound (world (opened chapterList))) as Hsound.
    { destruct Hloaded as (_ & Hgood & Htrace). split.
      - eapply Forall_impl; [exact Hgood|]. intros c Hc Hready. by apply Hc.
      - eapply Forall_impl; [exact Htrace|]. intros chs Hchs.
        eapply Forall_impl; [exact Hchs|]. intros c Hc Hready. by apply Hc. }
    destruct (play_sound env inputs _ Hsound) as [Hchs Htr]. by split.
  - intros actions w. split; [apply run_plays|].
    destruct (SchedulerFacts.run_invariant env actions (loaded chapterList) Hloaded)
      as (_ & Hgood & Htrace).
    by split.
Qed.

Lemma audio_buffer_and_status_witness :
  Forall (fun c => is_Some (audioBuffer c) <-> status c = Status.ready)
    (chapters
       (run (Samples.sample_env 2)
          [ConvertSelected {["x"; "ix"; "iix"]}; Retry "ix"]
          (loaded Samples.sample_chapters))).
Proof.
  apply (audio_buffer_and_status (Samples.sample_env 2) Samples.sample_uuid
           Samples.sample_pdf Samples.sample_chapters sample_uuid_inj).
  reflexivity.
Defined.

End SessionFacts.

(** ** Text extraction *)

Module TextExtractionFacts.
Import Orchestrator Scheduler TextExtraction TextExtractionDefs AttemptDefs.

Lemma rfold_app {A B} (f : B -> A -> result B) l1 l2 b :
  Audio.rfold f (l1 ++ l2) b = (b' <- Audio.rfold f l1 b ;; Audio.rfold f l2 b')%R.
Proof.
  revert b. induction l1 as [|x l1 IH]; intros b; [done|].
  simpl. destruct (f b x) as [e|b']; [done|]. apply IH.
Qed.

Lemma appendPage_prefix pdf acc i :
  appendPage pdf acc i = (t <- appendPage pdf [] i ;; Ok (acc ++ t))%R.
Proof.
  unfold appendPage. destruct (getPage pdf i) as [e|page]; [done|]. simpl.
  by destruct (getTextContent page) as [e|content].
Qed.

Lemma pages_prefix pdf l :
  forall acc,
    Audio.rfold (appendPage pdf) l acc =
    (t <- Audio.rfold (appendPage pdf) l [] ;; Ok (acc ++ t))%R.
Proof.
  induction l as [|i l IH]; intros acc.
  - simpl. by rewrite app_nil_r.
  - simpl. rewrite (appendPage_prefix pdf acc i).
    destruct (appendPage pdf [] i) as [e|t]; [done|]. simpl.
    rewrite (IH (acc ++ t)), (IH t).
    destruct (Audio.rfold (appendPage pdf) l []) as [e|u]; [done|]. simpl.
    by rewrite app_assoc.
Qed.

Lemma getTextForPageRange_app pdf first middle last :
  first <= middle + 1 -> middle <= last ->
  getTextForPageRange pdf first last =
  (head <- getTextForPageRange pdf first middle ;;
   tail <- getTextForPageRange pdf (middle + 1) last ;;
   Ok (head ++ tail))%R.
Proof.
  intros Hfirst Hlast. unfold getTextForPageRange. cbv zeta.
  set (n := numPages pdf).
  destruct (Z.le_gt_cases middle n) as [Hin|Hout].
  - rewrite (Z.min_l middle n) by done.
    replace (Z.min last n - first + 1)
      with ((middle - first + 1) + (Z.min last n - (middle + 1) + 1)) by lia.
    rewrite seqZ_app by lia.
    replace (first + (middle - first + 1)) with (middle + 1) by lia.
    rewrite rfold_app.
    destruct (Audio.rfold (appendPage pdf) (seqZ first (middle - first + 1)) [])
      as [e|head]; [done|].
    simpl. apply pages_prefix.
  - rewrite (Z.min_r middle n), (Z.min_r last n) by lia.
    replace (seqZ (middle + 1) (n - (middle + 1) + 1)) with (@nil Z).
    + destruct (Audio.rfold (appendPage pdf) (seqZ first (n - first + 1)) [])
        as [e|head]; [done|].
      simpl. by rewrite app_nil_r.
    + unfold seqZ. by replace (Z.to_nat (n - (middle + 1) + 1)) with 0%nat by lia.
Qed.

(** The text of a range of pages is the text of its first pages followed
    by the text of the others; when a page cannot be read, the first such
    page decides what is thrown. *)
Theorem extraction_splits (pdf : PDFDocumentProxy) (first middle last : Z) :
  first <= middle + 1 -> middle <= last ->
  getTextForPageRange pdf first last =
  (head <- getTextForPageRange pdf first middle ;;
   tail <- getTextForPageRange pdf (middle + 1) last ;;
   Ok (head ++ tail))%R.
Proof. apply getTextForPageRange_app. Qed.

Lemma extraction_splits_witness :
  getTextForPageRange sample_document 1 3 =
  (head <- getTextForPageRange sample_document 1 1 ;;
   tail <- getTextForPageRange sample_document (1 + 1) 3 ;;
   Ok (head ++ tail))%R.
Proof. apply (extraction_splits sample_document 1 1 3); lia. Defined.

Lemma rfold_ext {A B} (f g : B -> A -> result B) l :
  (forall b x, x ∈ l -> f b x = g b x) ->
  forall b, Audio.rfold f l b = Audio.rfold g l b.
Proof.
  induction l as [|x l IH]; intros Hfg b; [done|]. simpl.
  rewrite (Hfg b x) by left.
  destruct (g b x) as [e|b']; [done|]. apply IH.
  intros b0 y Hy. apply Hfg. by right.
Qed.

(** The extraction reads the pages from the start page to the end page or
    the last page of the document, whichever comes first, and no other:
    two documents that have as many pages and agree on those give the
    same text or throw the same. *)
Theorem extraction_reads_only_its_pages (pdf pdf' : PDFDocumentProxy)
    (first last : Z) :
  numPages pdf = numPages pdf' ->
  (forall i, first <= i <= Z.min last (numPages pdf) -> getPage pdf i = getPage pdf' i) ->
  getTextForPageRange pdf first last = getTextForPageRange pdf' first last.
Proof.
  intros Hn Hpages. unfold getTextForPageRange. cbv zeta. rewrite <- Hn.
  apply rfold_ext. intros acc i Hi. apply elem_of_seqZ in Hi.
  unfold appendPage. rewrite Hpages by lia. done.
Qed.

Lemma extraction_reads_only_its_pages_witness :
  getTextForPageRange sample_document 2 9 = getTextForPageRange damaged_document 2 9.
Proof.
  apply (extraction_reads_only_its_pages sample_document damaged_document 2 9).
  - reflexivity.
  - intros i Hi. simpl. destruct (i =? 1) eqn:Hone; [lia|reflexivity].
Defined.

(** *** Pages with nothing to read *)

Lemma dropped_keep pageHeight item :
  dropped pageHeight item -> keep pageHeight item = false.
Proof.
  destruct item as [str y|]; [|done]. intros [Hblank|[Hnumeric Hfooter]]; simpl.
  - by rewrite (AttemptFacts.trim_blank str Hblank).
  - destruct (trim str) as [|c rest]; [done|].
    by rewrite Hnumeric, Hfooter.
Qed.

Lemma dropped_pageText pageHeight items :
  Forall (dropped pageHeight) items -> pageText pageHeight items = [].
Proof.
  intros Hall. unfold pageText.
  replace (List.filter (keep pageHeight) items) with (@nil TextContentItem); [done|].
  induction Hall as [|item items Hitem _ IH]; [done|].
  simpl. by rewrite (dropped_keep _ _ Hitem).
Qed.

Lemma silent_pages pdf l :
  (forall i, i ∈ l ->
     exists page items,
       getPage pdf i = Ok page /\ getTextContent page = Ok items /\
       Forall (dropped (viewportHeight page)) items) ->
  forall acc,
    Audio.rfold (appendPage pdf) l acc = Ok (acc ++ replicate (length l) 10%N).
Proof.
  induction l as [|i l IH]; intros Hl acc.
  - simpl. by rewrite app_nil_r.
  - destruct (Hl i) as (page & items & Hpage & Hitems & Hdropped); [left|].
    simpl. unfold appendPage at 1. rewrite Hpage. simpl. rewrite Hitems. simpl.
    rewrite (dropped_pageText _ _ Hdropped), IH.
    + by rewrite <- app_assoc.
    + intros j Hj. apply Hl. by right.
Qed.

Lemma line_feeds_blank n : forallb is_whitespace (replicate n 10%N) = true.
Proof. induction n as [|n IH]; [done|exact IH]. Qed.

(** A chapter whose pages show nothing but marked content, blank strings
    and page numbers in the bottom tenth of the page has one line feed per
    page for text; its conversion makes no request to the speech backend
    and leaves it ready with the one-frame silent buffer and no duration to
    show. *)
Theorem silent_chapter_needs_no_speech (pdf : PDFDocumentProxy)
    (context : Audio.AudioContext)
    (generateContent : nat -> text -> result (option text))
    (atob : text -> result text) (c : Chapter) (w : World) :
  silent pdf (pageNumber c) (Z.min (endPageNumber c) (numPages pdf)) ->
  let pages := Z.to_nat (Z.min (endPageNumber c) (numPages pdf) - pageNumber c + 1) in
  let w' := convertChapter (envOf pdf context generateContent atob) c w in
  getTextForPageRange pdf (pageNumber c) (endPageNumber c) =
    Ok (replicate pages 10%N) /\
  requested (trace w') = requested (trace w) /\
  forall i d, chapters w !! i = Some d -> id d = id c ->
    exists d',
      chapters w' !! i = Some d' /\
      status d' = Status.ready /\
      audioBuffer d' = Some (AudioBuffer.mk 24000 1 [[Fin 0]]) /\
      duration d' = Some 0%Q.
Proof.
  intros Hsilent pages w'.
  assert (getTextForPageRange pdf (pageNumber c) (endPageNumber c) =
          Ok (replicate pages 10%N)) as Htext.
  { unfold getTextForPageRange. cbv zeta. rewrite silent_pages.
    - by rewrite length_seqZ.
    - intros i Hi. apply elem_of_seqZ in Hi. apply Hsilent. lia. }
  split; [exact Htext|]. subst w'.
  rewrite (AttemptFacts.convertChapter_eq (envOf pdf context generateContent atob) c w eq_refl).
  cbv zeta. cbn [envOf Orchestrator.getTextForPageRange].
  rewrite Htext, (AttemptFacts.trim_blank _ (line_feeds_blank pages)).
  cbn [setChapters snd chapters trace]. split.
  - rewrite !AttemptFacts.requested_app. simpl. by rewrite !app_nil_r.
  - intros i d Hd Hid. rewrite !AttemptFacts.updateChapter_lookup, Hd. simpl.
    destruct (decide (id d = id c)) as [_|]; [|done].
    change (id (markConverting d)) with (id d). rewrite decide_True by done.
    eexists. split; [done|]. repeat split; reflexivity.
Qed.

Lemma silent_chapter_needs_no_speech_witness :
  requested
    (trace (convertChapter
              (envOf sample_document Samples.sample_context (fun _ _ => Ok None) (fun _ => Ok []))
              first_page_chapter (loaded [first_page_chapter]))) =
  requested (trace (loaded [first_page_chapter])).
Proof.
  apply (silent_chapter_needs_no_speech sample_document Samples.sample_context (fun _ _ => Ok None)
           (fun _ => Ok []) first_page_chapter (loaded [first_page_chapter])).
  intros i Hi. assert (i = 1) as -> by (simpl in Hi; lia).
  eexists _, _. split; [reflexivity|]. split; [reflexivity|].
  apply Forall_cons_2; [|apply Forall_cons_2; [|apply Forall_nil_2]].
  - right. split; vm_compute; reflexivity.
  - left. reflexivity.
Defined.

(** *** Pages that cannot be read *)

Lemma readable_pages pdf l :
  (forall i, i ∈ l -> readable pdf i) ->
  forall acc, exists t, Audio.rfold (appendPage pdf) l acc = Ok t.
Proof.
  induction l as [|i l IH]; intros Hl acc; [by exists acc|].
  destruct (Hl i) as (page & items & Hpage & Hitems); [left|].
  simpl. unfold appendPage at 1. rewrite Hpage. simpl. rewrite Hitems. simpl.
  apply IH. intros j Hj. apply Hl. by right.
Qed.

Lemma unreadable_page pdf acc i e :
  unreadable pdf i e -> appendPage pdf acc i = Throw e.
Proof.
  unfold appendPage. intros [Hpage|(page & Hpage & Hitems)]; rewrite Hpage; [done|].
  simpl. by rewrite Hitems.
Qed.

Lemma unreadable_text pdf first last i e :
  first <= i <= Z.min last (numPages pdf) ->
  (forall j, first <= j < i -> readable pdf j) ->
  unreadable pdf i e ->
  getTextForPageRange pdf first last = Throw e.
Proof.
  intros Hi Hbefore Hfail. unfold getTextForPageRange. cbv zeta.
  replace (Z.min last (numPages pdf) - first + 1)
    with ((i - first) + (1 + (Z.min last (numPages pdf) - i))) by lia.
  rewrite seqZ_app by lia. rewrite rfold_app.
  destruct (readable_pages pdf (seqZ first (i - first))) with (acc := @nil codeunit)
    as [t Ht].
  { intros j Hj. apply elem_of_seqZ in Hj. apply Hbefore. lia. }
  rewrite Ht. simpl.
  replace (first + (i - first)) with i by lia.
  rewrite seqZ_cons by lia. simpl.
  by rewrite (unreadable_page pdf t i e Hfail).
Qed.

(** When a page of the chapter cannot be read (the first such page being
    [i]), the extraction throws what reading that page throws, and the
    conversion of the chapter makes no request to the speech backend and
    leaves the chapter in error with the message thrown. *)
Theorem unreadable_page_fails_the_chapter (pdf : PDFDocumentProxy)
    (context : Audio.AudioContext)
    (generateContent : nat -> text -> result (option text))
    (atob : text -> result text) (c : Chapter) (w : World) (i : Z) (e : thrown) :
  pageNumber c <= i <= Z.min (endPageNumber c) (numPages pdf) ->
  (forall j, pageNumber c <= j < i -> readable pdf j) ->
  unreadable pdf i e ->
  let w' := convertChapter (envOf pdf context generateContent atob) c w in
  getTextForPageRange pdf (pageNumber c) (endPageNumber c) = Throw e /\
  requested (trace w') = requested (trace w) /\
  forall k d, chapters w !! k = Some d -> id d = id c ->
    exists d',
      chapters w' !! k = Some d' /\
      status d' = Status.error /\
      error d' = Some (errorMessage "An unknown error occurred." e) /\
      audioBuffer d' = audioBuffer d.
Proof.
  intros Hi Hbefore Hfail w'.
  pose proof (unreadable_text pdf _ _ i e Hi Hbefore Hfail) as Htext.
  split; [exact Htext|]. subst w'.
  rewrite (AttemptFacts.convertChapter_eq (envOf pdf context generateContent atob) c w eq_refl).
  cbv zeta. cbn [envOf Orchestrator.getTextForPageRange].
  rewrite Htext. unfold fail. cbn [setChapters snd chapters trace]. split.
  - rewrite !AttemptFacts.requested_app. simpl. by rewrite !app_nil_r.
  - intros k d Hd Hid. rewrite !AttemptFacts.updateChapter_lookup, Hd. simpl.
    destruct (decide (id d = id c)) as [_|]; [|done].
    change (id (markConverting d)) with (id d). rewrite decide_True by done.
    eexists. split; [done|]. repeat split; reflexivity.
Qed.

Lemma unreadable_page_fails_the_chapter_witness :
  getTextForPageRange damaged_document 1 1 = Throw (ErrorObj "Page 1 is damaged.").
Proof.
  apply (unreadable_page_fails_the_chapter damaged_document Samples.sample_context (fun _ _ => Ok None)
           (fun _ => Ok []) first_page_chapter (loaded [first_page_chapter]) 1
           (ErrorObj "Page 1 is damaged.")).
  - simpl. lia.
  - intros j Hj. simpl in Hj. lia.
  - left. reflexivity.
Defined.

End TextExtractionFacts.

(** ** The chapters and the pages of the document *)

Module ChapterRangesFacts.
Import Outline OutlineDefs TextExtraction TextExtractionDefs ChapterRangesDefs.

(** *** The outline, flattened *)

Lemma processItem_preorder pdf :
  forall item, processItem pdf item = omap (entryOf pdf) (preorder item).
Proof.
  fix IH 1. intros [title dest items]. cbn [processItem preorder omap list_omap].
  unfold entryOf at 1. cbn [fst snd].
  assert ((fix processItems (l : list OutlineItem) : list (string * Z) :=
             match l with
             | [] => []
             | sub :: rest => processItem pdf sub ++ processItems rest
             end) items =
          omap (entryOf pdf)
            ((fix preorders (l : list OutlineItem) : list (string * option Dest) :=
                match l with
                | [] => []
                | sub :: rest => preorder sub ++ preorders rest
                end) items)) as ->.
  { induction items as [|sub rest IHrest]; [done|].
    rewrite omap_app, <- IHrest, <- (IH sub). reflexivity. }
  by destruct (resolvePageNumber pdf dest).
Qed.

Lemma preorders_flat_map items :
  (fix preorders (l : list OutlineItem) : list (string * option Dest) :=
     match l with
     | [] => []
     | sub :: rest => preorder sub ++ preorders rest
     end) items = flat_map preorder items.
Proof. induction items as [|sub rest IH]; [done|]. simpl. by rewrite IH. Qed.

Lemma processOutline_preorder pdf outlineItems :
  processOutline pdf outlineItems =
  omap (entryOf pdf) (flat_map preorder outlineItems).
Proof.
  unfold processOutline. induction outlineItems as [|item rest IH]; [done|].
  simpl. by rewrite omap_app, <- IH, processItem_preorder.
Qed.

(** [processOutline] returns the entries of the outline in depth-first
    order, each with its title and its page, less those whose destination
    does not resolve to a page: such an entry is left out, and neither its
    sub-entries nor the entries after it are. *)
Theorem outline_is_flattened_in_order (pdf : Outline.PDFDocumentProxy)
    (outlineItems : list OutlineItem) :
  processOutline pdf outlineItems =
    omap (entryOf pdf) (flat_map preorder outlineItems) /\
  map fst (processOutline pdf outlineItems) `sublist_of`
    map fst (flat_map preorder outlineItems) /\
  ((forall entry, entry ∈ flat_map preorder outlineItems ->
      is_Some (resolvePageNumber pdf (snd entry))) ->
   map fst (processOutline pdf outlineItems) =
   map fst (flat_map preorder outlineItems)).
Proof.
  rewrite processOutline_preorder. split; [done|].
  generalize (flat_map preorder outlineItems). intros entries. split.
  - induction entries as [|[title dest] entries IH]; [done|].
    cbn [omap list_omap]. unfold entryOf at 1. cbn [fst snd map].
    destruct (resolvePageNumber pdf dest); simpl.
    + by apply sublist_skip.
    + by apply sublist_cons.
  - induction entries as [|[title dest] entries IH]; intros Hall; [done|].
    cbn [omap list_omap]. unfold entryOf at 1. cbn [fst snd map].
    destruct (Hall (title, dest)) as [pageNumber Hpage]; [left|].
    cbn [snd] in Hpage. rewrite Hpage. simpl. f_equal. apply IH.
    intros entry Hentry. apply Hall. by right.
Qed.

Lemma outline_is_flattened_in_order_witness :
  map fst (processOutline nested_pdf nested_outline) `sublist_of`
  map fst (flat_map preorder nested_outline).
Proof. apply (outline_is_flattened_in_order nested_pdf nested_outline). Defined.

(** *** The page ranges of the chapters *)

Lemma imap_candidates uuid numPages l :
  forall pre,
    map range
      (filter (fun ch => pageNumber ch <= endPageNumber ch)
         (imap (fun i entry =>
                  candidate uuid numPages (pre ++ l) (length pre + i) entry) l)) =
    ranges numPages (map snd l).
Proof.
  induction l as [|entry l IH]; intros pre; [done|].
  cbn [imap map ranges].
  set (c0 := candidate uuid numPages (pre ++ entry :: l) (length pre + 0) entry).
  assert (endPageNumber c0 =
          match map snd l with q :: _ => q - 1 | [] => numPages end) as Hend.
  { subst c0. unfold candidate. cbn [endPageNumber].
    rewrite Nat.add_0_r, lookup_app_r by lia.
    replace (S (length pre) - length pre)%nat with 1%nat by lia.
    by destruct l. }
  rewrite <- Hend.
  assert (map range
            (filter (fun ch => pageNumber ch <= endPageNumber ch)
               (imap ((fun i entry0 =>
                         candidate uuid numPages (pre ++ entry :: l)
                           (length pre + i) entry0) ∘ S) l)) =
          ranges numPages (map snd l)) as Htail.
  { rewrite <- (IH (pre ++ [entry])). do 2 f_equal. apply imap_ext.
    intros i x _. simpl. rewrite <- app_assoc, length_app. simpl.
    f_equal. lia. }
  rewrite filter_cons.
  change (snd entry) with (pageNumber c0).
  destruct (decide (pageNumber c0 <= endPageNumber c0)) as [Hle|Hgt].
  - rewrite bool_decide_true by done. simpl. by rewrite Htail.
  - rewrite bool_decide_false by done. simpl. by rewrite Htail.
Qed.

Lemma chapterList_ranges uuid numPages entries :
  map range (chapterList uuid numPages entries) = ranges numPages (map snd entries).
Proof.
  rewrite OutlineFacts.chapterList_filter.
  exact (imap_candidates uuid numPages entries []).
Qed.

Lemma contiguous_cons a b rs :
  snd a + 1 = fst b -> contiguous (b :: rs) -> contiguous (a :: b :: rs).
Proof.
  intros Hab Hrs [|i] x y Hx Hy; simpl in Hx, Hy.
  - by injection Hx as <-; injection Hy as <-.
  - by apply (Hrs i).
Qed.

Lemma contiguous_singleton a : contiguous [a].
Proof. intros [|i] x y Hx Hy; simpl in Hx, Hy; done. Qed.

Lemma ranges_tile numPages rest :
  forall p,
    Sorted Z.le (p :: rest) -> Forall (fun q => q <= numPages) (p :: rest) ->
    exists e rs,
      ranges numPages (p :: rest) = (p, e) :: rs /\
      contiguous ((p, e) :: rs) /\
      snd <$> last ((p, e) :: rs) = Some numPages.
Proof.
  induction rest as [|q rest IH]; intros p Hsorted Hbound.
  - exists numPages, []. apply Forall_cons in Hbound as [Hp _].
    cbn [ranges]. rewrite bool_decide_true by done.
    split; [done|]. split; [apply contiguous_singleton|done].
  - apply Sorted_inv in Hsorted as [Hsorted Hpq].
    apply HdRel_inv in Hpq.
    apply Forall_cons in Hbound as [_ Hbound].
    destruct (IH q Hsorted Hbound) as (e & rs & Hranges & Hchain & Hlast).
    change (ranges numPages (p :: q :: rest))
      with ((if bool_decide (p <= q - 1) then [(p, q - 1)] else [])
              ++ ranges numPages (q :: rest)).
    rewrite Hranges. destruct (decide (p <= q - 1)) as [Hlt|Heq].
    + rewrite bool_decide_true by done. exists (q - 1), ((q, e) :: rs).
      split; [done|]. split.
      * apply contiguous_cons; [simpl; lia|done].
      * by rewrite last_cons_cons.
    + rewrite bool_decide_false by done. assert (p = q) as -> by lia.
      by exists e, rs.
Qed.

(** When the pages of the outline entries never go backwards and none is
    past the last page of the document, the chapters tile the document from
    the page of the first entry on: the first chapter starts on that page,
    each chapter after it starts on the page that follows the end of the
    one before, and the last one ends on the last page of the document. *)
Theorem chapters_tile_the_document (uuid : nat -> string) (numPages : Z)
    (first : string * Z) (others : list (string * Z)) :
  Sorted Z.le (map snd (first :: others)) ->
  Forall (fun q => q <= numPages) (map snd (first :: others)) ->
  let chs := chapterList uuid numPages (first :: others) in
  pageNumber <$> head chs = Some (snd first) /\
  endPageNumber <$> last chs = Some numPages /\
  forall i c d, chs !! i = Some c -> chs !! S i = Some d ->
                endPageNumber c + 1 = pageNumber d.
Proof.
  intros Hsorted Hbound chs.
  destruct (ranges_tile numPages (map snd others) (snd first) Hsorted Hbound)
    as (e & rs & Hranges & Hchain & Hlast).
  pose proof (chapterList_ranges uuid numPages (first :: others)) as Hmap.
  fold chs in Hmap. cbn [map] in Hmap. rewrite Hranges in Hmap.
  split; [|split].
  - destruct chs as [|c chs']; [done|]. simpl in *. by injection Hmap as -> _ _.
  - rewrite <- Hmap in Hlast. change (map range chs) with (range <$> chs) in Hlast.
    rewrite fmap_last in Hlast. by destruct (last chs).
  - intros i c d Hc Hd. rewrite <- Hmap in Hchain.
    apply (Hchain i (range c) (range d)).
    + change (map range chs) with (range <$> chs).
      by rewrite list_lookup_fmap, Hc.
    + change (map range chs) with (range <$> chs).
      by rewrite list_lookup_fmap, Hd.
Qed.

Lemma chapters_tile_the_document_witness :
  endPageNumber <$> last (chapterList Samples.sample_uuid 3
                            [("Un", 1); ("Un bis", 1); ("Deux", 2)]) = Some 3.
Proof.
  apply (chapters_tile_the_document Samples.sample_uuid 3 ("Un", 1)
           [("Un bis", 1); ("Deux", 2)]).
  - repeat constructor; simpl; lia.
  - repeat constructor; simpl; lia.
Defined.

(** *** The text of the chapters *)

Lemma chapterTexts_prefix pdf chs :
  forall acc,
    Audio.rfold
      (fun fullText c =>
         t <- getTextForPageRange pdf (pageNumber c) (endPageNumber c) ;;
         Ok (fullText ++ t))%R chs acc =
    (t <- chapterTexts pdf chs ;; Ok (acc ++ t))%R.
Proof.
  unfold chapterTexts. induction chs as [|c chs IH]; intros acc.
  - simpl. by rewrite app_nil_r.
  - simpl.
    destruct (getTextForPageRange pdf (pageNumber c) (endPageNumber c)) as [e|t];
      [done|].
    simpl. rewrite (IH (acc ++ t)), (IH t).
    destruct (Audio.rfold _ chs []) as [e|u]; [done|]. simpl.
    by rewrite app_assoc.
Qed.

Lemma chapterTexts_cons pdf c chs :
  chapterTexts pdf (c :: chs) =
  (t <- getTextForPageRange pdf (pageNumber c) (endPageNumber c) ;;
   u <- chapterTexts pdf chs ;;
   Ok (t ++ u))%R.
Proof.
  unfold chapterTexts at 1. simpl.
  destruct (getTextForPageRange pdf (pageNumber c) (endPageNumber c)) as [e|t];
    [done|].
  simpl. apply chapterTexts_prefix.
Qed.

Lemma chapterTexts_chain pdf chs :
  forall c,
    Forall (fun c => pageNumber c <= endPageNumber c) (c :: chs) ->
    contiguous (map range (c :: chs)) ->
    exists e,
      endPageNumber <$> last (c :: chs) = Some e /\
      endPageNumber c <= e /\
      chapterTexts pdf (c :: chs) = getTextForPageRange pdf (pageNumber c) e.
Proof.
  induction chs as [|d chs IH]; intros c Hvalid Hchain.
  - exists (endPageNumber c). split; [done|]. split; [lia|].
    unfold chapterTexts. simpl.
    by destruct (getTextForPageRange pdf (pageNumber c) (endPageNumber c)).
  - apply Forall_cons in Hvalid as [Hc Hvalid].
    destruct (IH d Hvalid) as (e & Hlast & Hle & Htexts).
    { intros i a b Ha Hb. by apply (Hchain (S i)). }
    pose proof (Hchain 0%nat (range c) (range d) eq_refl eq_refl) as Hnext.
    simpl in Hnext.
    apply Forall_cons in Hvalid as [Hd _].
    exists e. split; [by rewrite last_cons_cons|]. split; [lia|].
    rewrite chapterTexts_cons, Htexts, <- Hnext.
    symmetry. apply TextExtractionFacts.getTextForPageRange_app; lia.
Qed.

(** When the pages of the outline entries never go backwards and none is
    past the last page, the texts of the chapters, one after the other, are
    the text of the document from the page of the first entry to the last
    page: every page is read for exactly one chapter, in order; and when a
    page cannot be read, both throw. *)
Theorem chapter_texts_make_the_document (pdf : TextExtraction.PDFDocumentProxy)
    (uuid : nat -> string) (first : string * Z) (others : list (string * Z)) :
  Sorted Z.le (map snd (first :: others)) ->
  Forall (fun q => q <= TextExtraction.numPages pdf) (map snd (first :: others)) ->
  chapterTexts pdf (chapterList uuid (TextExtraction.numPages pdf) (first :: others)) =
  getTextForPageRange pdf (snd first) (TextExtraction.numPages pdf).
Proof.
  intros Hsorted Hbound.
  destruct (ranges_tile (TextExtraction.numPages pdf) (map snd others) (snd first)
              Hsorted Hbound) as (e & rs & Hranges & Hchain & Hlast).
  pose proof (chapterList_ranges uuid (TextExtraction.numPages pdf) (first :: others))
    as Hmap.
  pose proof (OutlineFacts.chapterList_range uuid (TextExtraction.numPages pdf)
                (first :: others)) as Hvalid.
  cbn [map] in Hmap. rewrite Hranges in Hmap.
  destruct (chapterList uuid (TextExtraction.numPages pdf) (first :: others))
    as [|c chs]; [done|].
  rewrite <- Hmap in Hchain, Hlast.
  destruct (chapterTexts_chain pdf chs c Hvalid Hchain) as (e' & Hlast' & _ & ->).
  change (map range (c :: chs)) with (range <$> c :: chs) in Hlast.
  rewrite fmap_last in Hlast.
  destruct (last (c :: chs)) as [d|]; [|done].
  simpl in Hlast, Hlast'. injection Hlast as Hlast. injection Hlast' as Hlast'.
  simpl in Hmap. injection Hmap as Hpage _ _.
  by rewrite Hpage, <- Hlast', Hlast.
Qed.

Lemma chapter_texts_make_the_document_witness :
  chapterTexts sample_document
    (chapterList Samples.sample_uuid 3 [("Un", 1); ("Deux", 2)]) =
  getTextForPageRange sample_document 1 3.
Proof.
  apply (chapter_texts_make_the_document sample_document Samples.sample_uuid
           ("Un", 1) [("Deux", 2)]).
  - repeat constructor; simpl; lia.
  - repeat constructor; simpl; lia.
Defined.

End ChapterRangesFacts.

(** ** Decoded audio, exported *)

Module ExportFacts.
Import Audio DecoderDefs WavDefs ExportDefs.

Lemma quantize_int16 v :
  -32768 <= v <= 32767 -> quantize (Fin (v # 32768)) = exported v.
Proof.
  intros Hv.
  destruct (decide (v = -32768)) as [->|Hmin]; [by vm_compute|].
  destruct (decide (v = 0)) as [->|Hzero]; [by vm_compute|].
  unfold quantize, exported, JS.Math_min, JS.Math_max.
  assert (Qle_bool 1 (v # 32768) = false) as ->.
  { unfold Qle_bool. cbn [Qnum Qden]. apply Z.leb_gt. lia. }
  assert (Qle_bool (v # 32768) (-1) = false) as ->.
  { unfold Qle_bool. cbn [Qnum Qden]. apply Z.leb_gt. lia. }
  unfold JS.is_negative, JS.Qltb.
  destruct (Z.leb_spec v 0) as [Hneg|Hpos].
  - assert (Qle_bool 0 (v # 32768) = false) as ->.
    { unfold Qle_bool. cbn [Qnum Qden]. apply Z.leb_gt. lia. }
    cbn [negb JS.times JS.ToInt32]. unfold JS.Qtrunc, Qmult. cbn [Qnum Qden].
    change (Z.pos (32768 * 1)) with 32768.
    rewrite Z.quot_mul by lia. apply WavFacts.wrap_signed_small. lia.
  - assert (Qle_bool 0 (v # 32768) = true) as ->.
    { unfold Qle_bool. cbn [Qnum Qden]. apply Z.leb_le. lia. }
    cbn [negb JS.times JS.ToInt32]. unfold JS.Qtrunc, Qmult. cbn [Qnum Qden].
    change (Z.pos (32768 * 1)) with 32768.
    rewrite Z.quot_div_nonneg by lia.
    assert (v * 32767 / 32768 = v - 1) as ->.
    { symmetry. apply (Z.div_unique _ _ _ (32768 - v)); lia. }
    apply WavFacts.wrap_signed_small. lia.
Qed.

Lemma to_int16_range lo hi :
  byte lo -> byte hi -> -32768 <= to_int16 (lo + 256 * hi) <= 32767.
Proof.
  unfold byte, to_int16. intros Hlo Hhi.
  destruct (Z.ltb_spec (lo + 256 * hi) 32768); lia.
Qed.

Lemma int16_at_range data k :
  Forall byte data -> -32768 <= int16_at data k <= 32767.
Proof.
  intros Hdata. unfold int16_at.
  destruct (data !! (2 * k)%nat) as [lo|] eqn:Hlo; [|lia].
  destruct (data !! (2 * k + 1)%nat) as [hi|] eqn:Hhi; [|lia].
  apply to_int16_range.
  - eapply Forall_lookup_1; [exact Hdata|exact Hlo].
  - eapply Forall_lookup_1; [exact Hdata|exact Hhi].
Qed.

Lemma flat_map_rows {A} (g : nat -> list A) n m :
  flat_map (fun i => flat_map (fun ch => g (i * n + ch)%nat) (seq 0 n)) (seq 0 m) =
  flat_map g (seq 0 (m * n)).
Proof.
  induction m as [|m IH]; [done|].
  rewrite seq_S, flat_map_app, IH. cbn [flat_map]. rewrite app_nil_r.
  replace (S m * n)%nat with (m * n + n)%nat by lia.
  rewrite seq_app, flat_map_app. f_equal. cbn [Nat.add].
  replace (seq (m * n) n) with (map (fun x => (m * n + x)%nat) (seq 0 n)).
  - by rewrite !flat_map_concat_map, map_map.
  - change (map ?f ?l) with (f <$> l). by rewrite fmap_add_seq, Nat.add_0_r.
Qed.

Lemma int16_elements_samples {A} (f : A -> sample) l :
  int16_elements (flat_map (fun x => sample_bytes (f x)) l) =
  map (fun x => quantize (f x)) l.
Proof.
  induction l as [|x l IH]; [done|].
  cbn [flat_map map]. rewrite <- IH.
  pose proof (WavFacts.sample_bytes_value (f x)) as Hvalue.
  unfold sample_bytes in *. cbn [le_bytes app] in *.
  cbn [foldr] in Hvalue. rewrite Z.mul_0_r, Z.add_0_r in Hvalue.
  cbn [int16_elements]. by rewrite Hvalue.
Qed.

Lemma deinterleaved_sample data sampleRate numChannels frames ch i :
  (ch < numChannels)%nat -> (i < frames)%nat ->
  channel_sample
    (AudioBuffer.channelData (deinterleaved data sampleRate numChannels frames))
    ch i = Fin (int16_at data (i * numChannels + ch) # 32768).
Proof.
  intros Hch Hi. unfold channel_sample, deinterleaved. cbn [AudioBuffer.channelData].
  change (map ?f ?l) with (f <$> l).
  rewrite list_lookup_fmap, lookup_seq_lt by done. simpl.
  change (map ?f ?l) with (f <$> l).
  by rewrite list_lookup_fmap, lookup_seq_lt by done.
Qed.

Lemma flat_map_ext_in {A B} (f g : A -> list B) l :
  (forall x, x ∈ l -> f x = g x) -> flat_map f l = flat_map g l.
Proof.
  induction l as [|x l IH]; intros Hfg; [done|].
  simpl. rewrite Hfg by left. f_equal. apply IH. intros y Hy. apply Hfg. by right.
Qed.

Lemma deinterleaved_data data sampleRate numChannels frames :
  (frames * numChannels <= length data / 2)%nat ->
  flat_map
    (frame_bytes
       (AudioBuffer.channelData (deinterleaved data sampleRate numChannels frames))
       numChannels)
    (seq 0 frames) =
  flat_map (fun k => sample_bytes (Fin (int16_at data k # 32768)))
    (seq 0 (frames * numChannels)).
Proof.
  intros Hlen.
  rewrite <- (flat_map_rows (fun k => sample_bytes (Fin (int16_at data k # 32768)))).
  apply flat_map_ext_in. intros i Hi. apply elem_of_seq in Hi.
  unfold frame_bytes. apply flat_map_ext_in. intros ch Hch. apply elem_of_seq in Hch.
  by rewrite deinterleaved_sample by lia.
Qed.

(** Audio decoded from the 16-bit samples of the backend and exported to
    WAV does not come back as it was: the file holds the samples in their
    order (less a trailing partial frame), every positive one lowered by
    one unit, the others unchanged. *)
Theorem decoded_audio_exports_with_loss (data : list Z) (ctx : AudioContext)
    (sampleRate : Z) (numChannels : nat) (b : AudioBuffer.t) :
  Forall byte data ->
  Z.of_nat (length data) < 2 ^ 32 ->
  decodeAudioData data ctx sampleRate numChannels = Ok b ->
  exists bytes,
    bufferToWav b = Some (Ok bytes) /\
    int16_elements (drop 44 bytes) =
    map exported
      (take (AudioBuffer.length b * numChannels) (int16_elements data)).
Proof.
  intros Hbytes Hsize Hdecoded.
  rewrite (DecoderFacts.decodeAudioData_spec data ctx sampleRate numChannels Hsize)
    in Hdecoded.
  destruct (Nat.odd (length data)); [done|]. cbv zeta in Hdecoded.
  set (frames := (length data / 2 / numChannels)%nat) in Hdecoded.
  assert (frames * numChannels <= length data / 2)%nat as Hlen.
  { unfold frames. rewrite Nat.mul_comm. apply Nat.Div0.mul_div_le. }
  clearbody frames.
  destruct (_ || _); [done|]. injection Hdecoded as <-.
  exists (wav_bytes (deinterleaved data sampleRate numChannels frames)).
  split; [apply WavFacts.bufferToWav_bytes|].
  unfold wav_bytes.
  assert (AudioBuffer.numberOfChannels
            (deinterleaved data sampleRate numChannels frames) = numChannels) as ->.
  { unfold AudioBuffer.numberOfChannels, deinterleaved. simpl.
    by rewrite length_map, length_seq. }
  rewrite drop_app_length'; cycle 1.
  { symmetry. apply WavFacts.wav_header_bytes_length. }
  cbn [AudioBuffer.length deinterleaved].
  rewrite (deinterleaved_data data sampleRate numChannels frames Hlen).
  rewrite int16_elements_samples.
  apply list_eq. intros k.
  change (map ?f ?l) with (f <$> l).
  rewrite !list_lookup_fmap.
  destruct (decide (k < frames * numChannels)%nat) as [Hk|Hk].
  - rewrite lookup_seq_lt, lookup_take_lt by done.
    rewrite DecoderFacts.int16_elements_lookup by lia. simpl.
    f_equal. apply quantize_int16. by apply int16_at_range.
  - rewrite lookup_seq_ge, lookup_take_ge by lia. done.
Qed.

Lemma decoded_audio_exports_with_loss_witness :
  exists bytes,
    bufferToWav sample_decoded = Some (Ok bytes) /\
    int16_elements (drop 44 bytes) = [0; 32766; -32768; -1].
Proof.
  apply (decoded_audio_exports_with_loss sample_pcm Samples.sample_context 24000 1
           sample_decoded).
  - repeat constructor; unfold byte; lia.
  - vm_compute. reflexivity.
  - reflexivity.
Defined.

End ExportFacts.

(** ** Concatenation *)

Module ConcatFacts.
Import Audio ConcatDefs.

Lemma fold_total buffers :
  forall acc,
    fold_left (fun acc buffer => (acc + AudioBuffer.length buffer)%nat) buffers acc =
    (acc + totalLength buffers)%nat.
Proof.
  unfold totalLength. induction buffers as [|b buffers IH]; intros acc; simpl.
  - lia.
  - rewrite IH. lia.
Qed.

Lemma follows_channel first b channel :
  follows first b -> (channel < AudioBuffer.numberOfChannels first)%nat ->
  getChannelData b channel = Ok (channelOf b channel) /\
  length (channelOf b channel) = AudioBuffer.length b.
Proof.
  intros [Hchannels Hlengths] Hch. unfold getChannelData, channelOf.
  destruct (AudioBuffer.channelData b !! channel) as [ch|] eqn:Hlookup.
  - split; [done|]. simpl. by apply (Forall_lookup_1 _ _ _ _ Hlengths Hlookup).
  - apply lookup_ge_None in Hlookup. unfold AudioBuffer.numberOfChannels in *. lia.
Qed.

Lemma totalLength_cons b buffers :
  totalLength (b :: buffers) = (AudioBuffer.length b + totalLength buffers)%nat.
Proof. reflexivity. Qed.

Lemma typed_set_room filled source room :
  (length source <= room)%nat ->
  typed_set (filled ++ replicate room (Fin 0)) source (length filled) =
  Ok ((filled ++ source) ++ replicate (room - length source) (Fin 0)).
Proof.
  intros Hroom. unfold typed_set.
  rewrite length_app, length_replicate.
  rewrite (proj2 (Nat.leb_le _ _)) by lia.
  rewrite take_app_length, drop_app_ge, drop_replicate by lia.
  rewrite <- app_assoc. do 4 f_equal. lia.
Qed.

(** The inner loop: the sources go one after the other into the silence
    that follows what is already there. *)
Lemma inner_loop first channel buffers :
  (channel < AudioBuffer.numberOfChannels first)%nat ->
  Forall (follows first) buffers ->
  forall filled room,
    (totalLength buffers <= room)%nat ->
    rfold
      (fun '(channelData, offset) buffer =>
         source <- getChannelData buffer channel ;;
         channelData <- typed_set channelData source offset ;;
         Ok (channelData, (offset + AudioBuffer.length buffer)%nat))%R
      buffers (filled ++ replicate room (Fin 0), length filled) =
    Ok (filled ++ concat (map (fun b => channelOf b channel) buffers)
          ++ replicate (room - totalLength buffers) (Fin 0),
        (length filled + totalLength buffers)%nat).
Proof.
  intros Hch Hall. induction Hall as [|b buffers Hb _ IH]; intros filled room Hroom.
  - unfold totalLength. simpl. by rewrite Nat.sub_0_r, Nat.add_0_r.
  - rewrite totalLength_cons in *.
    destruct (follows_channel first b channel Hb Hch) as [Hsource Hlength].
    cbn [rfold]. rewrite Hsource. cbn [rbind].
    rewrite typed_set_room by lia. cbn [rbind].
    specialize (IH (filled ++ channelOf b channel)
                  (room - length (channelOf b channel))%nat).
    rewrite length_app, Hlength in IH. rewrite Hlength.
    rewrite IH by lia.
    cbn [map concat]. rewrite <- !app_assoc, Nat.sub_add_distr, Nat.add_assoc.
    reflexivity.
Qed.

(** The outer loop, from the channel [j] on: the channels before it stay
    as they are, the others are filled. *)
Lemma outer_loop first buffers sampleRate :
  Forall (follows first) buffers ->
  forall m j chans,
    (j + m = AudioBuffer.numberOfChannels first)%nat ->
    length chans = AudioBuffer.numberOfChannels first ->
    (forall ch, (j <= ch < AudioBuffer.numberOfChannels first)%nat ->
       chans !! ch = Some (replicate (totalLength buffers) (Fin 0))) ->
    exists chans',
      rfold
        (fun result channel =>
           channelData <- getChannelData result channel ;;
           filled <-
             rfold
               (fun '(channelData, offset) buffer =>
                  source <- getChannelData buffer channel ;;
                  channelData <- typed_set channelData source offset ;;
                  Ok (channelData, (offset + AudioBuffer.length buffer)%nat))
               buffers (channelData, 0%nat) ;;
           Ok (setChannelData result channel (fst filled)))%R
        (seq j m) (AudioBuffer.mk sampleRate (totalLength buffers) chans) =
      Ok (AudioBuffer.mk sampleRate (totalLength buffers) chans') /\
      length chans' = AudioBuffer.numberOfChannels first /\
      (forall ch, (ch < j)%nat -> chans' !! ch = chans !! ch) /\
      (forall ch, (j <= ch < AudioBuffer.numberOfChannels first)%nat ->
         chans' !! ch = Some (concat (map (fun b => channelOf b ch) buffers))).
Proof.
  intros Hall. induction m as [|m IH]; intros j chans Hjm Hlen Hsilent.
  - exists chans. split; [done|]. split; [done|]. split; [done|]. intros ch Hch. lia.
  - cbn [seq rfold]. unfold getChannelData at 1. cbn [AudioBuffer.channelData].
    rewrite (Hsilent j) by lia. cbn [rbind].
    pose proof (inner_loop first j buffers ltac:(lia) Hall [] (totalLength buffers)
                  ltac:(lia)) as Hinner.
    cbn [app length] in Hinner. rewrite Hinner. cbn [rbind fst].
    rewrite Nat.sub_diag, app_nil_r. unfold setChannelData.
    cbn [AudioBuffer.sampleRate AudioBuffer.length AudioBuffer.channelData].
    set (filled := concat (map (fun b => channelOf b j) buffers)).
    destruct (IH (S j) (<[j := filled]> chans)) as (chans' & Hrun & Hlen' & Hbefore & Hafter).
    + lia.
    + by rewrite length_insert.
    + intros ch Hch. rewrite list_lookup_insert_ne by lia. apply Hsilent. lia.
    + exists chans'. split; [exact Hrun|]. split; [exact Hlen'|]. split.
      * intros ch Hch. rewrite Hbefore by lia. apply list_lookup_insert_ne. lia.
      * intros ch Hch. destruct (decide (ch = j)) as [->|Hne].
        -- rewrite Hbefore by lia. apply list_lookup_insert_eq. lia.
        -- apply Hafter. lia.
Qed.

Lemma concatAudioBuffers_several first second rest context :
  concatAudioBuffers (first :: second :: rest) context =
  let buffers := first :: second :: rest in
  (result <- createBuffer context (AudioBuffer.numberOfChannels first)
               (inject_Z
                  (Z.of_nat
                     (fold_left (fun acc buffer => (acc + AudioBuffer.length buffer)%nat)
                        buffers 0%nat)))
               (AudioBuffer.sampleRate first) ;;
   rfold
     (fun result channel =>
        channelData <- getChannelData result channel ;;
        filled <-
          rfold
            (fun '(channelData, offset) buffer =>
               source <- getChannelData buffer channel ;;
               channelData <- typed_set channelData source offset ;;
               Ok (channelData, (offset + AudioBuffer.length buffer)%nat))
            buffers (channelData, 0%nat) ;;
        Ok (setChannelData result channel (fst filled)))
     (seq 0 (AudioBuffer.numberOfChannels first)) result)%R.
Proof. reflexivity. Qed.

Lemma concat_of_several first second rest context :
  let buffers := first :: second :: rest in
  Forall (follows first) buffers ->
  supports context (AudioBuffer.numberOfChannels first)
    (AudioBuffer.sampleRate first) = true ->
  (1 <= totalLength buffers)%nat ->
  Z.of_nat (totalLength buffers) < 2 ^ 32 ->
  exists chans,
    concatAudioBuffers buffers context =
      Ok (AudioBuffer.mk (AudioBuffer.sampleRate first) (totalLength buffers) chans) /\
    length chans = AudioBuffer.numberOfChannels first /\
    forall ch, (ch < AudioBuffer.numberOfChannels first)%nat ->
      chans !! ch = Some (concat (map (fun b => channelOf b ch) buffers)).
Proof.
  intros buffers Hall Hsupported Htotal Hsize.
  assert (1 <= AudioBuffer.numberOfChannels first)%nat as Hchannels.
  { unfold supports in Hsupported.
    destruct (Nat.leb_spec 1 (AudioBuffer.numberOfChannels first)); [done|].
    discriminate Hsupported. }
  change (concatAudioBuffers buffers context)
    with (concatAudioBuffers (first :: second :: rest) context).
  rewrite concatAudioBuffers_several. fold buffers. cbv zeta. clearbody buffers.
  rewrite (fold_total buffers 0). cbn [Nat.add].
  unfold createBuffer.
  assert (Z.to_nat (Qfloor (inject_Z (Z.of_nat (totalLength buffers))) mod 2 ^ 32)
          = totalLength buffers) as ->.
  { rewrite Qfloor_Z, Z.mod_small by lia. apply Nat2Z.id. }
  rewrite Hsupported, (proj2 (Nat.eqb_neq _ 0)) by lia.
  cbn [negb orb rbind].
  destruct (outer_loop first buffers (AudioBuffer.sampleRate first) Hall
              (AudioBuffer.numberOfChannels first) 0
              (replicate (AudioBuffer.numberOfChannels first)
                 (replicate (totalLength buffers) (Fin 0))))
    as (chans & Hrun & Hlen & _ & Hfilled).
  - lia.
  - apply length_replicate.
  - intros ch Hch. apply lookup_replicate_2. lia.
  - exists chans. split; [exact Hrun|]. split; [done|].
    intros ch Hch. apply Hfilled. lia.
Qed.

Lemma concat_any first others context :
  let buffers := first :: others in
  Forall (follows first) buffers ->
  supports context (AudioBuffer.numberOfChannels first)
    (AudioBuffer.sampleRate first) = true ->
  (1 <= totalLength buffers)%nat ->
  Z.of_nat (totalLength buffers) < 2 ^ 32 ->
  exists result,
    concatAudioBuffers buffers context = Ok result /\
    AudioBuffer.sampleRate result = AudioBuffer.sampleRate first /\
    AudioBuffer.length result = totalLength buffers /\
    AudioBuffer.numberOfChannels result = AudioBuffer.numberOfChannels first /\
    forall ch, (ch < AudioBuffer.numberOfChannels first)%nat ->
      AudioBuffer.channelData result !! ch =
      Some (concat (map (fun b => channelOf b ch) buffers)).
Proof.
  intros buffers Hall Hsupported Htotal Hsize.
  destruct others as [|second rest].
  - exists first. split; [done|]. split; [done|]. split.
    { unfold buffers, totalLength. simpl. lia. }
    split; [done|]. intros ch Hch.
    apply Forall_cons in Hall as [Hfirst _].
    destruct (follows_channel first first ch Hfirst Hch) as [Hchannel _].
    unfold getChannelData in Hchannel. unfold buffers. cbn [map concat].
    rewrite app_nil_r.
    destruct (AudioBuffer.channelData first !! ch); [by injection Hchannel as ->|done].
  - destruct (concat_of_several first second rest context Hall Hsupported Htotal Hsize)
      as (chans & Hconcat & Hlen & Hfilled).
    eexists. split; [exact Hconcat|]. by repeat split.
Qed.

(** The concatenation of buffers of an audio context (their channel count
    and rate are among those it takes) keeps every sample, in order: each
    channel of the result is that channel of the first buffer followed by
    that channel of the second, and so on; the result has the rate and the
    channels of the first buffer and as many frames as all buffers
    together. *)
Theorem concatenation_keeps_every_sample (first : AudioBuffer.t)
    (others : list AudioBuffer.t) (context : AudioContext) :
  let buffers := first :: others in
  Forall (follows first) buffers ->
  supports context (AudioBuffer.numberOfChannels first)
    (AudioBuffer.sampleRate first) = true ->
  (1 <= totalLength buffers)%nat ->
  Z.of_nat (totalLength buffers) < 2 ^ 32 ->
  exists result,
    concatAudioBuffers buffers context = Ok result /\
    AudioBuffer.sampleRate result = AudioBuffer.sampleRate first /\
    AudioBuffer.length result = totalLength buffers /\
    AudioBuffer.numberOfChannels result = AudioBuffer.numberOfChannels first /\
    forall ch, (ch < AudioBuffer.numberOfChannels first)%nat ->
      AudioBuffer.channelData result !! ch =
      Some (concat (map (fun b => channelOf b ch) buffers)).
Proof. apply concat_any. Qed.

Lemma concatenation_keeps_every_sample_witness :
  exists result,
    concatAudioBuffers [two_frames (1 # 2) (1 # 4); two_frames 0 (1 # 8)]
      Samples.sample_context = Ok result /\
    AudioBuffer.length result = 4%nat.
Proof.
  destruct (concatenation_keeps_every_sample (two_frames (1 # 2) (1 # 4))
              [two_frames 0 (1 # 8)] Samples.sample_context)
    as (result & Hconcat & _ & Hlength & _).
  - repeat constructor.
  - reflexivity.
  - vm_compute. lia.
  - vm_compute. reflexivity.
  - exists result. split; [exact Hconcat|exact Hlength].
Defined.

End ConcatFacts.

(** ** A conversion that succeeds *)

Module ConvertedFacts.
Import Audio Orchestrator Scheduler AttemptDefs ConcatDefs.

(** *** The shape of decoded audio *)

Lemma setSample_follows rate frames channels b channel i v :
  AudioBuffer.sampleRate b = rate /\ AudioBuffer.length b = frames /\
  length (AudioBuffer.channelData b) = channels /\
  Forall (fun ch => length ch = frames) (AudioBuffer.channelData b) ->
  let b' := setSample b channel i v in
  AudioBuffer.sampleRate b' = rate /\ AudioBuffer.length b' = frames /\
  length (AudioBuffer.channelData b') = channels /\
  Forall (fun ch => length ch = frames) (AudioBuffer.channelData b').
Proof.
  intros (Hrate & Hframes & Hchannels & Hall). unfold setSample. simpl.
  split; [done|]. split; [done|]. split; [by rewrite length_alter|].
  apply Forall_alter; [done|]. intros ch _ Hch. by rewrite length_insert.
Qed.

Lemma decodeAudioData_shape data ctx sampleRate numChannels b :
  decodeAudioData data ctx sampleRate numChannels = Ok b ->
  AudioBuffer.sampleRate b = sampleRate /\
  (1 <= AudioBuffer.length b)%nat /\
  0 < sampleRate /\
  AudioBuffer.numberOfChannels b = numChannels /\
  (1 <= numChannels)%nat /\
  Forall (fun ch => length ch = AudioBuffer.length b) (AudioBuffer.channelData b).
Proof.
  unfold decodeAudioData. destruct (Int16Array_of data) as [e|dataInt16]; [done|].
  cbn [rbind]. unfold createBuffer.
  set (frames := Z.to_nat (Qfloor _ mod 2 ^ 32)).
  destruct (supports ctx numChannels sampleRate) eqn:Hsup; [|done].
  destruct (frames =? 0)%nat eqn:Hf; [done|].
  cbn [negb orb rbind]. intros [= <-].
  apply Nat.eqb_neq in Hf.
  assert ((1 <= numChannels)%nat /\ 0 < sampleRate) as [Hn Hr].
  { unfold supports in Hsup.
    destruct (Nat.leb_spec 1 numChannels), (Z.ltb_spec 0 sampleRate);
      try done; rewrite ?andb_false_r in Hsup; done. }
  set (start := AudioBuffer.mk sampleRate frames
                  (replicate numChannels (replicate frames (Fin 0)))).
  assert (forall (l : list nat) (inner : nat -> list nat) (v : nat -> nat -> sample) b0,
            (AudioBuffer.sampleRate b0 = sampleRate /\ AudioBuffer.length b0 = frames /\
             length (AudioBuffer.channelData b0) = numChannels /\
             Forall (fun ch => length ch = frames) (AudioBuffer.channelData b0)) ->
            let b1 :=
              fold_left
                (fun buffer channel =>
                   fold_left
                     (fun buffer i => setSample buffer channel i (v i channel))
                     (inner channel) buffer) l b0 in
            AudioBuffer.sampleRate b1 = sampleRate /\ AudioBuffer.length b1 = frames /\
            length (AudioBuffer.channelData b1) = numChannels /\
            Forall (fun ch => length ch = frames) (AudioBuffer.channelData b1))
    as Hloops.
  { induction l as [|channel l IH]; intros inner v b0 Hb0; [done|].
    cbn [fold_left]. apply IH. clear IH.
    generalize (inner channel). intros indices. revert b0 Hb0.
    induction indices as [|i indices IHi]; intros b0 Hb0; [done|].
    cbn [fold_left]. apply IHi. by apply setSample_follows. }
  specialize (Hloops (seq 0 numChannels)
                (fun _ => seq 0 (Z.to_nat (Qceiling
                   (Z.of_nat (length dataInt16) # Pos.of_nat numChannels))))
                (fun i channel => read_sample dataInt16 (i * numChannels + channel))
                start).
  destruct Hloops as (Hrate & Hframes & Hchannels & Hall).
  { subst start. simpl. split; [done|]. split; [done|].
    split; [apply length_replicate|].
    apply Forall_replicate. apply length_replicate. }
  cbv zeta in Hrate, Hframes, Hchannels, Hall.
  unfold AudioBuffer.numberOfChannels.
  rewrite Hframes. repeat split; try done; lia.
Qed.

Lemma chunkOutcome_shape env now chunk b :
  chunkOutcome env now chunk = Ok b ->
  AudioBuffer.sampleRate b = 24000 /\
  (1 <= AudioBuffer.length b)%nat /\
  AudioBuffer.numberOfChannels b = 1%nat /\
  Forall (fun ch => length ch = AudioBuffer.length b) (AudioBuffer.channelData b).
Proof.
  unfold chunkOutcome, audioOfResponse.
  destruct (generateContent env now (prompt chunk)) as [e|[[|c data]|]]; try done.
  cbn [rbind]. destruct (decode (atob env) (c :: data)) as [e|bytes]; [done|].
  cbn [rbind]. intros Hdecoded.
  destruct (decodeAudioData_shape bytes (audioContext env) 24000 1 b Hdecoded)
    as (Hrate & Hlength & _ & Hchannels & _ & Hall).
  done.
Qed.

Lemma synthesized_unique env now chunks k buffers buffers' :
  synthesized env now chunks k buffers -> synthesized env now chunks k buffers' ->
  buffers = buffers'.
Proof.
  intros [Hlen Hsyn] [Hlen' Hsyn']. apply list_eq. intros j.
  destruct (decide (j < k)%nat) as [Hj|Hj].
  - destruct (Hsyn j Hj) as (chunk & b & Hchunk & Hb & Hok).
    destruct (Hsyn' j Hj) as (chunk' & b' & Hchunk' & Hb' & Hok').
    rewrite Hb, Hb'. congruence.
  - by rewrite !(proj2 (lookup_ge_None _ _)) by lia.
Qed.

Lemma arises_converted env c now chunks o t buffers final :
  arises env c now chunks o ->
  Orchestrator.getTextForPageRange env now (pageNumber c) (endPageNumber c) = Ok t ->
  trim t <> [] ->
  synthesized env (S now) (Chunker.chunkText Chunker.TEXT_CHUNK_SIZE t)
    (length (Chunker.chunkText Chunker.TEXT_CHUNK_SIZE t)) buffers ->
  concatAudioBuffers buffers (audioContext env) = Ok final ->
  chunks = Chunker.chunkText Chunker.TEXT_CHUNK_SIZE t /\ o = Converted final.
Proof.
  intros Harises Htext Hnonblank Hsyn Hcat.
  destruct Harises as [e' He'|t' Ht' Hb|t' k' buffers' chunk' e' Ht' Hn Hs' Hc' Hf'
                      |t' buffers' final' Ht' Hn Hs' Hcat'
                      |t' buffers' e' Ht' Hn Hs' Hcat'];
    try congruence.
  - assert (t' = t) as -> by congruence.
    destruct Hsyn as [_ Hsyn].
    destruct (Hsyn k') as (chunk & b & Hchunk & _ & Hok).
    { by apply lookup_lt_Some in Hc'. }
    congruence.
  - assert (t' = t) as -> by congruence.
    rewrite (synthesized_unique _ _ _ _ _ _ Hs' Hsyn) in Hcat'. split; [done|].
    congruence.
  - assert (t' = t) as -> by congruence.
    rewrite (synthesized_unique _ _ _ _ _ _ Hs' Hsyn) in Hcat'. congruence.
Qed.

Lemma synthesized_follow env now chunks k buffers first :
  synthesized env now chunks k buffers ->
  AudioBuffer.numberOfChannels first = 1%nat ->
  Forall (follows first) buffers /\
  Forall (fun b => AudioBuffer.sampleRate b = 24000 /\ (1 <= AudioBuffer.length b)%nat
                   /\ AudioBuffer.numberOfChannels b = 1%nat) buffers.
Proof.
  intros [Hlen Hsyn] Hfirst.
  assert (forall b, b ∈ buffers -> exists j chunk, chunkOutcome env (now + j) chunk = Ok b)
    as Hall.
  { intros b Hb. apply list_elem_of_lookup in Hb as [j Hj].
    destruct (Hsyn j) as (chunk & b' & _ & Hb' & Hok).
    { apply lookup_lt_Some in Hj. lia. }
    exists j, chunk. congruence. }
  split; apply Forall_forall; intros b Hb; destruct (Hall b Hb) as (j & chunk & Hok);
    destruct (chunkOutcome_shape env _ chunk b Hok) as (Hrate & Hlength & Hchannels & Hshape).
  - split; [lia|done].
  - done.
Qed.

(** When every chunk of the chapter is synthesized and decoded (and the
    audio stays below [2^32] frames), the attempt makes one request per
    chunk, in the order of the chunks, and leaves the chapter ready with a
    mono buffer at 24000 Hz whose samples are those of the first chunk,
    then those of the second, and so on, and with its duration. *)
Theorem converted_audio_is_the_chunks_in_order (env : Env) (c : Chapter)
    (w : World) (t : text) (buffers : list AudioBuffer.t) :
  refsReady env = true ->
  Orchestrator.getTextForPageRange env (clock w) (pageNumber c) (endPageNumber c)
    = Ok t ->
  trim t <> [] ->
  let chunks := Chunker.chunkText Chunker.TEXT_CHUNK_SIZE t in
  synthesized env (S (clock w)) chunks (length chunks) buffers ->
  Z.of_nat (totalLength buffers) < 2 ^ 32 ->
  let w' := convertChapter env c w in
  exists final,
    concatAudioBuffers buffers (audioContext env) = Ok final /\
    AudioBuffer.sampleRate final = 24000 /\
    AudioBuffer.numberOfChannels final = 1%nat /\
    AudioBuffer.length final = totalLength buffers /\
    AudioBuffer.channelData final !! 0%nat =
      Some (concat (map (fun b => channelOf b 0) buffers)) /\
    requested (trace w') = requested (trace w) ++ map prompt chunks /\
    forall i d, chapters w !! i = Some d -> id d = id c ->
      exists d',
        chapters w' !! i = Some d' /\
        status d' = Status.ready /\
        audioBuffer d' = Some final /\
        duration d' = Some (AudioBuffer.duration final).
Proof.
  intros Hrefs Htext Hnonblank chunks Hsyn Hsize w'.
  assert (chunks <> []) as Hchunks.
  { apply AttemptFacts.chunkText_nonempty.
    by apply AttemptFacts.trim_nonblank_nonempty. }
  destruct buffers as [|first others].
  { destruct Hsyn as [Hlen _]. by destruct chunks. }
  assert (first ∈ first :: others) as Hfirst by left.
  apply list_elem_of_lookup in Hfirst as [j0 Hj0].
  assert (AudioBuffer.numberOfChannels first = 1%nat /\
          AudioBuffer.sampleRate first = 24000) as [Hmono Hrate].
  { destruct Hsyn as [Hlen Hsyn0].
    destruct (Hsyn0 0%nat) as (chunk & b & _ & Hb & Hok).
    { destruct chunks; [done|simpl; lia]. }
    injection Hb as <-.
    by destruct (chunkOutcome_shape env _ chunk first Hok) as (? & _ & ? & _). }
  destruct (synthesized_follow env _ _ _ _ first Hsyn Hmono) as [Hfollow Hshapes].
  destruct (ConcatFacts.concat_any first others (audioContext env))
    as (final & Hcat & Hr & Hl & Hn & Hch).
  - exact Hfollow.
  - rewrite Hmono, Hrate. apply DecoderFacts.supports_guaranteed; lia.
  - apply Forall_cons in Hshapes as [(_ & Hone & _) _].
    rewrite ConcatFacts.totalLength_cons. lia.
  - exact Hsize.
  - exists final. split; [exact Hcat|]. split; [congruence|]. split; [congruence|].
    split; [exact Hl|]. split; [apply Hch; lia|].
    destruct (AttemptFacts.attempt_normal_form env c w Hrefs)
      as (chunks' & o & Harises & Hchapters & _ & _ & Hrequested).
    destruct (arises_converted env c (clock w) chunks' o t (first :: others) final
                Harises Htext Hnonblank Hsyn Hcat) as [-> ->].
    cbv zeta in Hchapters, Hrequested. fold chunks w' in Hchapters, Hrequested.
    split; [exact Hrequested|].
    intros i d Hd Hid. rewrite Hchapters.
    rewrite AttemptFacts.applyAll_lookup by apply AttemptFacts.updatesOf_keeps_id.
    rewrite Hd. simpl. rewrite decide_True by done.
    eexists. split; [done|].
    unfold updatesOf.
    change (applyTo (markConverting :: ?l) ?x) with (applyTo l (markConverting x)).
    rewrite AttemptFacts.applyTo_app. by repeat split.
Qed.

Lemma converted_audio_is_the_chunks_in_order_witness :
  exists final,
    concatAudioBuffers
      [AudioBuffer.mk 24000 2 [[Fin (-32768 # 32768); Fin (32767 # 32768)]]]
      Samples.sample_context = Ok final /\
    AudioBuffer.sampleRate final = 24000.
Proof.
  destruct (converted_audio_is_the_chunks_in_order (Samples.sample_env 99)
              (Samples.chapter_at 2) Samples.sample_world
              (js "Bonjour. Au revoir." ++ [10%N])
              [AudioBuffer.mk 24000 2 [[Fin (-32768 # 32768); Fin (32767 # 32768)]]])
    as (final & Hcat & Hrate & _).
  - reflexivity.
  - reflexivity.
  - vm_compute. discriminate.
  - split; [reflexivity|]. intros j Hj.
    assert (j = 0%nat) as ->.
    { vm_compute in Hj. lia. }
    eexists _, _. split; [|split]; vm_compute; reflexivity.
  - vm_compute. reflexivity.
  - exists final. split; [exact Hcat|exact Hrate].
Defined.

End ConvertedFacts.

(** ** The download *)

Module DownloadFacts.
Import Download DownloadDefs.

Lemma fileName_folded title :
  fileName title = map folded title ++ js ".wav".
Proof.
  unfold fileName, toLowerCase, replace_others. rewrite map_map. f_equal.
  apply map_ext. intros c. unfold folded.
  destruct (is_alnum c); [done|]. reflexivity.
Qed.

Lemma folded_plain c : plain (folded c) = true.
Proof.
  unfold folded, plain, is_alnum, is_lower, is_upper, is_digit.
  destruct (N.leb_spec 97 c), (N.leb_spec c 122), (N.leb_spec 65 c),
    (N.leb_spec c 90), (N.leb_spec 48 c), (N.leb_spec c 57); cbn [andb orb];
    try reflexivity; try lia;
    repeat match goal with
           | |- context [(?a <=? ?b)%N] => destruct (N.leb_spec a b); try lia
           end; reflexivity.
Qed.

(** The name a chapter is downloaded under is its title, code unit by
    code unit, with ASCII letters put in lower case, digits kept and every
    other code unit replaced by an underscore, followed by [.wav].  So it
    is as long as the title plus four code units; before the extension it
    holds lower-case ASCII letters, digits and underscores only (no
    separator, no dot, no space); and two titles are downloaded under the
    same name exactly when they are as long and agree, position by
    position, once folded in this way. *)
Theorem file_name_is_plain (title : text) :
  fileName title = map folded title ++ js ".wav" /\
  (forall i c, title !! i = Some c -> fileName title !! i = Some (folded c)) /\
  length (fileName title) = (length title + 4)%nat /\
  drop (length title) (fileName title) = js ".wav" /\
  Forall (fun c => plain c = true) (take (length title) (fileName title)) /\
  forall title',
    fileName title = fileName title' <-> map folded title = map folded title'.
Proof.
  rewrite fileName_folded. split; [done|].
  split.
  { intros i c Hc. unfold text in *. rewrite lookup_app_l.
    - change (map ?f ?l) with (f <$> l). by rewrite list_lookup_fmap, Hc.
    - rewrite length_map. by apply lookup_lt_Some in Hc. }
  split; [by rewrite length_app, length_map|].
  split. { rewrite drop_app_length'; [done|by rewrite length_map]. }
  split.
  - rewrite take_app_length' by (by rewrite length_map).
    apply Forall_forall. intros c Hc. change (map ?f ?l) with (f <$> l) in Hc.
    apply list_elem_of_fmap in Hc as (c0 & -> & _). apply folded_plain.
  - intros title'. rewrite fileName_folded. split.
    + intros H. by apply app_inv_tail in H.
    + by intros ->.
Qed.

(** The title of a chapter with a space, a colon and two accented
    letters ([201] and [233]). *)
Lemma file_name_is_plain_witness :
  fileName (js "Chapitre 1: " ++ [201%N] ++ js "t" ++ [233%N]) =
  js "chapitre_1___t_.wav".
Proof.
  rewrite (proj1 (file_name_is_plain _)). reflexivity.
Defined.

End DownloadFacts.

(** ** Empty chunks *)

Module ChunkShapeFacts.
Import Chunker ChunkShapeDefs.

Lemma scan_nonempty s :
  forall ph cur, (ph <> Seek -> cur <> []) -> Forall (fun m => m <> []) (scan ph cur s).
Proof.
  induction s as [|c rest IH]; intros ph cur Hcur.
  - destruct ph; simpl; [constructor|..]; constructor; auto; by apply Hcur.
  - destruct ph; simpl; destruct (is_terminator c).
    + by apply IH.
    + by apply IH.
    + apply IH. intros _. by destruct cur.
    + apply IH. intros _. by destruct cur.
    + apply IH. intros _. by destruct cur.
    + constructor; [by apply Hcur|]. by apply IH.
Qed.

Lemma sentences_nonempty t : t <> [] -> Forall (fun m => m <> []) (sentences t).
Proof.
  intros Ht. unfold sentences.
  pose proof (scan_nonempty t Seek [] ltac:(done)) as Hscan.
  fold (match_sentences t) in Hscan.
  destruct (match_sentences t); [by constructor|done].
Qed.

(** Once the current chunk is not empty, every chunk pushed is not empty
    either. *)
Lemma chunk_fold_nonempty limit ss :
  Forall (fun m => m <> []) ss ->
  forall textChunks currentChunk,
    currentChunk <> [] ->
    snd (fold_left (chunk_step limit) ss (textChunks, currentChunk)) <> [] /\
    exists pushed,
      fst (fold_left (chunk_step limit) ss (textChunks, currentChunk)) =
        textChunks ++ pushed /\
      Forall (fun m => m <> []) pushed.
Proof.
  intros Hss. induction Hss as [|s ss Hs _ IH]; intros textChunks currentChunk Hcur.
  - simpl. split; [done|]. exists []. by rewrite app_nil_r.
  - cbn [fold_left].
    change (chunk_step limit (textChunks, currentChunk) s)
      with (if (limit <? length (currentChunk ++ s))%nat
            then (textChunks ++ [currentChunk], s)
            else (textChunks, currentChunk ++ s)).
    destruct (limit <? length (currentChunk ++ s))%nat.
    + destruct (IH (textChunks ++ [currentChunk]) s Hs) as (Hsnd & pushed & Hfst & Hpushed).
      split; [exact Hsnd|]. exists (currentChunk :: pushed).
      split; [by rewrite Hfst, <- app_assoc|]. by constructor.
    + apply IH. by destruct currentChunk.
Qed.

Lemma close_nonempty (st : list text * text) :
  snd st <> [] ->
  (let '(textChunks, currentChunk) := st in
   match currentChunk with
   | [] => textChunks
   | _ :: _ => textChunks ++ [currentChunk]
   end) = fst st ++ [snd st].
Proof. by destruct st as [textChunks [|c rest]]. Qed.

Lemma chunkText_shape limit t :
  t <> [] ->
  exists chunks,
    Forall (fun m => m <> []) chunks /\
    ((long_start limit t /\ chunkText limit t = [] :: chunks) \/
     (~ long_start limit t /\ chunkText limit t = chunks)).
Proof.
  intros Ht. pose proof (sentences_nonempty t Ht) as Hss.
  unfold chunkText, long_start.
  destruct (sentences t) as [|s ss] eqn:Hsentences.
  { unfold sentences in Hsentences. by destruct (match_sentences t). }
  apply Forall_cons in Hss as [Hs Hss].
  cbn [fold_left].
  change (chunk_step limit (@nil text, @nil codeunit) s)
    with (if (limit <? length s)%nat
          then (@nil text ++ [@nil codeunit], s)
          else (@nil text, s)).
  destruct (Nat.ltb_spec limit (length s)) as [Hlong|Hshort].
  - destruct (chunk_fold_nonempty limit ss Hss ([] ++ [[]]) s Hs)
      as (Hsnd & pushed & Hfst & Hpushed).
    rewrite close_nonempty by exact Hsnd.
    exists (pushed ++ [snd (fold_left (chunk_step limit) ss ([] ++ [[]], s))]).
    split.
    + apply Forall_app. split; [done|]. by apply Forall_singleton.
    + left. split; [by exists s, ss|].
      exact (f_equal (fun l => l ++ [snd (fold_left (chunk_step limit) ss
                                            ([] ++ [[]], s))]) Hfst).
  - destruct (chunk_fold_nonempty limit ss Hss [] s Hs)
      as (Hsnd & pushed & Hfst & Hpushed).
    rewrite close_nonempty by exact Hsnd.
    exists (pushed ++ [snd (fold_left (chunk_step limit) ss ([], s))]).
    split.
    + apply Forall_app. split; [done|]. by apply Forall_singleton.
    + right. split.
      * intros (s' & rest' & [= <- <-] & Hlong). lia.
      * exact (f_equal (fun l => l ++ [snd (fold_left (chunk_step limit) ss ([], s))])
                 Hfst).
Qed.

(** No chunk is empty, but for the first one: it is empty exactly when
    the first sentence of the text is longer than the limit on its own (the
    chunker then closes the chunk it has not yet put anything in). *)
Theorem only_the_first_chunk_can_be_empty (limit : nat) (t : text) :
  (forall i chunk, chunkText limit t !! S i = Some chunk -> chunk <> []) /\
  (head (chunkText limit t) = Some [] <-> long_start limit t).
Proof.
  destruct (decide (t = [])) as [->|Ht].
  { split; [done|]. split; [done|]. intros (s & rest & [= <- <-] & Hlong).
    simpl in Hlong. lia. }
  destruct (chunkText_shape limit t Ht)
    as (chunks & Hchunks & [[Hlong ->]|[Hshort ->]]).
  - split; [|done]. intros i chunk Hi. simpl in Hi.
    by apply (Forall_lookup_1 _ _ _ _ Hchunks Hi).
  - split.
    + intros i chunk Hi. by apply (Forall_lookup_1 _ _ _ _ Hchunks Hi).
    + split; [|done]. intros Hhead. destruct chunks as [|c chunks]; [done|].
      apply Forall_cons in Hchunks as [Hc _]. simpl in Hhead. congruence.
Qed.

Lemma only_the_first_chunk_can_be_empty_witness :
  head (chunkText 3 (js "Bonjour. Oui.")) = Some [].
Proof.
  apply (only_the_first_chunk_can_be_empty 3 (js "Bonjour. Oui.")).
  exists (js "Bonjour."), [js " Oui."]. split; [reflexivity|]. simpl. lia.
Defined.

(** When the first sentence of the text of a chapter is longer than
    [TEXT_CHUNK_SIZE], the first request the attempt makes to the speech
    backend is for the empty chunk. *)
Theorem long_first_sentence_requests_empty_chunk (env : Orchestrator.Env)
    (c : Chapter) (w : Orchestrator.World) (t : text) :
  Orchestrator.refsReady env = true ->
  Orchestrator.getTextForPageRange env (Orchestrator.clock w) (pageNumber c)
    (endPageNumber c) = Ok t ->
  Orchestrator.trim t <> [] ->
  long_start TEXT_CHUNK_SIZE t ->
  exists others,
    Scheduler.requested (Orchestrator.trace (Orchestrator.convertChapter env c w)) =
    Scheduler.requested (Orchestrator.trace w) ++ Orchestrator.prompt [] :: others.
Proof.
  intros Hrefs Htext Hnonblank Hlong.
  destruct (AttemptFacts.attempt_normal_form env c w Hrefs)
    as (chunks & o & Harises & _ & _ & _ & Hrequested).
  cbv zeta in Hrequested. rewrite Hrequested.
  pose proof (AttemptFacts.arises_total _ _ _ _ _ t Harises Htext Hnonblank) as ->.
  destruct (chunkText_shape TEXT_CHUNK_SIZE t) as (rest & _ & [[_ Hshape]|[Hshort _]]);
    [by apply AttemptFacts.trim_nonblank_nonempty| |done].
  rewrite Hshape.
  destruct Harises; try congruence; cbn [AttemptDefs.requestsOf take map];
    by eexists.
Qed.

Lemma long_first_sentence_requests_empty_chunk_witness :
  exists others,
    Scheduler.requested
      (Orchestrator.trace
         (Orchestrator.convertChapter long_opening_env (Samples.chapter_at 0)
            Samples.sample_world)) =
    Scheduler.requested (Orchestrator.trace Samples.sample_world)
      ++ Orchestrator.prompt [] :: others.
Proof.
  apply (long_first_sentence_requests_empty_chunk long_opening_env
           (Samples.chapter_at 0) Samples.sample_world long_opening).
  - reflexivity.
  - reflexivity.
  - vm_compute. discriminate.
  - exists long_opening, []. split; [vm_compute; reflexivity|].
    vm_compute. lia.
Defined.

End ChunkShapeFacts.

(** ** The selection *)

Module SelectionFacts.
Import Orchestrator Scheduler Selection SelectionDefs SchedulerDefs.

Lemma selectable_ids_size chapters :
  NoDup (map id chapters) ->
  size (selectableIds chapters) = length (selectableChapters chapters).
Proof.
  intros Hnd. unfold selectableIds. rewrite size_list_to_set.
  - apply length_map.
  - change (map id ?l) with (id <$> l) in *.
    eapply sublist_NoDup; [exact Hnd|]. apply fmap_sublist, sublist_filter.
Qed.

Lemma select_all chapters selected :
  NoDup (map id chapters) ->
  selected ⊆ selectableIds chapters ->
  handleToggleSelectAll chapters selected =
  if decide (selected = selectableIds chapters) then ∅ else selectableIds chapters.
Proof.
  intros Hnd Hsub. unfold handleToggleSelectAll.
  rewrite <- (selectable_ids_size chapters Hnd).
  destruct (decide (selected = selectableIds chapters)) as [->|Hne].
  - by rewrite Nat.eqb_refl.
  - destruct (Nat.eqb_spec (size selected) (size (selectableIds chapters)))
      as [Hsize|Hsize]; [|done].
    exfalso. apply Hne. apply set_subseteq_size_eq; [done|lia].
Qed.

(** When the ids of the chapters are distinct and only selectable chapters
    are selected, the box in the header selects all the chapters that are
    pending or in error, unless all of them are selected already: it then
    clears the selection. *)
Theorem select_all_or_nothing (chapters : list Chapter) (selected : gset string) :
  NoDup (map id chapters) ->
  selected ⊆ selectableIds chapters ->
  (selected = selectableIds chapters ->
   handleToggleSelectAll chapters selected = ∅) /\
  (selected <> selectableIds chapters ->
   handleToggleSelectAll chapters selected = selectableIds chapters /\
   forall c, c ∈ chapters ->
     (id c ∈ handleToggleSelectAll chapters selected <->
      status c = Status.pending \/ status c = Status.error)).
Proof.
  intros Hnd Hsub. rewrite (select_all chapters selected Hnd Hsub). split.
  - intros Hall. by rewrite decide_True.
  - intros Hsome. rewrite decide_False by done. split; [done|].
    intros c Hc. unfold selectableIds. rewrite elem_of_list_to_set.
    change (map id ?l) with (id <$> l). rewrite list_elem_of_fmap. split.
    + intros (d & Hid & Hd). apply list_elem_of_filter in Hd as [Hsel Hd].
      by rewrite (SchedulerFacts.unique_id chapters c d Hnd Hc Hd Hid).
    + intros Hsel. exists c. split; [done|]. by apply list_elem_of_filter.
Qed.

Lemma mixed_selectable : map id (selectableChapters mixed_chapters) = ["a"; "d"].
Proof. reflexivity. Qed.

Lemma select_all_or_nothing_witness :
  handleToggleSelectAll mixed_chapters {["a"]} = selectableIds mixed_chapters.
Proof.
  apply (select_all_or_nothing mixed_chapters {["a"]}).
  - apply (bool_decide_unpack _). by vm_compute.
  - unfold selectableIds. rewrite mixed_selectable. set_solver.
  - unfold selectableIds. rewrite mixed_selectable. intros Heq.
    assert ("d" ∈ ({["a"]} : gset string)) as Hd by (rewrite Heq; set_solver).
    set_solver.
Defined.

(** *** Selecting all, then converting *)

Lemma filter_ext_in {A} (P Q : A -> Prop) `{!forall x, Decision (P x)}
    `{!forall x, Decision (Q x)} (l : list A) :
  (forall x, x ∈ l -> P x <-> Q x) -> filter P l = filter Q l.
Proof.
  induction l as [|x l IH]; intros Hpq; [done|].
  rewrite !filter_cons. rewrite IH by (intros y Hy; apply Hpq; by right).
  destruct (decide (P x)) as [Hp|Hp], (decide (Q x)) as [Hq|Hq]; try done.
  - destruct Hq. apply Hpq; [left|done].
  - destruct Hp. apply Hpq; [left|done].
Qed.

Lemma selected_are_selectable chapters :
  NoDup (map id chapters) ->
  filter (fun c => id c ∈ selectableIds chapters) chapters =
  selectableChapters chapters.
Proof.
  intros Hnd. apply filter_ext_in. intros c Hc.
  unfold selectableIds. rewrite elem_of_list_to_set.
  change (map id ?l) with (id <$> l). rewrite list_elem_of_fmap. split.
  - intros (d & Hid & Hd). apply list_elem_of_filter in Hd as [Hsel Hd].
    by rewrite (SchedulerFacts.unique_id chapters c d Hnd Hc Hd Hid).
  - intros Hsel. exists c. split; [done|]. by apply list_elem_of_filter.
Qed.

Lemma toggle_from_nothing chapters :
  handleToggleSelectAll chapters ∅ = selectableIds chapters.
Proof.
  unfold handleToggleSelectAll, selectableIds. rewrite size_empty.
  destruct (selectableChapters chapters) as [|c l]; [done|]. reflexivity.
Qed.

Lemma filter_all {A} (P : A -> Prop) `{!forall x, Decision (P x)} (l : list A) :
  Forall P l -> filter P l = l.
Proof.
  induction 1 as [|x l Hx _ IH]; [done|].
  by rewrite filter_cons, decide_True, IH.
Qed.

(** With distinct ids and nothing selected, the box in the header and then
    the bulk button start one attempt for each chapter that is pending or
    in error, in ascending order of page, and for no other chapter. *)
Theorem select_all_then_convert (env : Env) (w : World) :
  refsReady env = true ->
  NoDup (map id (chapters w)) ->
  let selection := handleToggleSelectAll (chapters w) ∅ in
  let queue := sortByPage (selectableChapters (chapters w)) in
  started (trace (handleConvertSelected env selection w)) =
    started (trace w) ++ map id queue /\
  Sorted (fun a b => pageNumber a <= pageNumber b) queue /\
  queue ≡ₚ selectableChapters (chapters w).
Proof.
  intros Hrefs Hnd selection queue. subst selection.
  rewrite toggle_from_nothing. unfold handleConvertSelected, chaptersToConvert.
  rewrite (selected_are_selectable (chapters w) Hnd). fold queue.
  split; [|split; [apply SchedulerFacts.sortByPage_sorted
                  |apply SchedulerFacts.sortByPage_perm]].
  destruct (SchedulerFacts.convertQueue_segments env queue Hrefs w)
    as (segs & Htrace & Hsegs).
  rewrite filter_all in Hsegs.
  - by rewrite Htrace, AttemptFacts.started_app,
      (SchedulerFacts.started_segments _ _ Hsegs).
  - apply Forall_forall. intros c Hc.
    assert (c ∈ selectableChapters (chapters w)) as Hsel.
    { by rewrite <- (SchedulerFacts.sortByPage_perm (selectableChapters (chapters w))). }
    apply list_elem_of_filter in Hsel as [[Hp|He] _]; unfold convertible;
      by rewrite ?Hp, ?He.
Qed.

Lemma select_all_then_convert_witness :
  started
    (trace (handleConvertSelected (Samples.sample_env 99)
              (handleToggleSelectAll mixed_chapters ∅) (loaded mixed_chapters))) =
  started (trace (loaded mixed_chapters))
    ++ map id (sortByPage (selectableChapters mixed_chapters)).
Proof.
  apply (select_all_then_convert (Samples.sample_env 99) (loaded mixed_chapters)).
  - reflexivity.
  - apply (bool_decide_unpack _). by vm_compute.
Defined.

End SelectionFacts.

(** ** Playback *)

Module PlaybackFacts.
Import Playback PlaybackDefs.

Lemma stopPlayback_coherent p : coherent p -> coherent (stopPlayback p).
Proof.
  unfold coherent, stopPlayback.
  destruct (currentSourceRef p) as [source|].
  - intros (chapterId & _ & [Hsounding|Hsounding] & _); cbn; (split; [done|]);
      rewrite Hsounding; [|done].
    rewrite filter_cons, decide_False; [done|]. simpl. by intros H.
  - by intros [_ Hsounding].
Qed.

Lemma stopPlayback_created p : created (stopPlayback p) = created p.
Proof. unfold stopPlayback. by destruct (currentSourceRef p). Qed.

Lemma stopPlayback_stops p :
  coherent p ->
  currentlyPlayingId (stopPlayback p) = None /\ sounding (stopPlayback p) = [].
Proof.
  intros Hp. pose proof (stopPlayback_coherent p Hp) as Hstop.
  unfold coherent in Hstop.
  assert (currentSourceRef (stopPlayback p) = None) as Hnone.
  { unfold stopPlayback. by destruct (currentSourceRef p). }
  by rewrite Hnone in Hstop.
Qed.

Lemma handlePlay_coherent contextReady chapter p :
  coherent p -> coherent (handlePlay contextReady chapter p).
Proof.
  intros Hp. unfold handlePlay.
  destruct (audioBuffer chapter); [|done].
  destruct contextReady; [|done]. cbn [negb].
  destruct (decide (currentlyPlayingId p = Some (id chapter))).
  - by apply stopPlayback_coherent.
  - destruct (stopPlayback_stops p Hp) as [_ Hsilent].
    unfold coherent. cbn. exists (id chapter).
    rewrite Hsilent. split; [done|]. split; [by left|]. split; [left|lia].
Qed.

Lemma runsOut_coherent source p : coherent p -> coherent (runsOut source p).
Proof.
  unfold coherent, runsOut. cbn.
  destruct (currentSourceRef p) as [current|].
  - intros (chapterId & Hid & Hsounding & Hrest). exists chapterId.
    split; [done|]. split; [|done].
    destruct Hsounding as [-> | ->]; [|by right].
    rewrite filter_cons. cbn. destruct (decide (current <> source)); [by left|by right].
  - intros [Hid ->]. by split.
Qed.

Lemma ended_coherent source p : coherent p -> coherent (ended source p).
Proof.
  intros Hp. unfold ended.
  destruct (decide (source ∈ map fst (sounding p))) as [|Hsilent]; [done|].
  destruct (decide _) as [[_ Hcurrent]|]; [|done].
  unfold coherent in Hp. rewrite Hcurrent in Hp.
  destruct Hp as (chapterId & _ & [Hsounding|Hsounding] & _).
  - exfalso. apply Hsilent. rewrite Hsounding. simpl. by left.
  - unfold coherent. by cbn.
Qed.

Lemma run_coherent contextReady events :
  forall p, coherent p -> coherent (fold_left (react contextReady) events p).
Proof.
  induction events as [|e events IH]; intros p Hp; [done|].
  simpl. apply IH. destruct e as [chapter|source|source|]; simpl.
  - by apply handlePlay_coherent.
  - by apply runsOut_coherent.
  - by apply ended_coherent.
  - by apply stopPlayback_coherent.
Qed.

(** Whatever is pressed, whichever buffers run out and whenever their
    [ended] events arrive, at most one source sounds at a time; one that
    sounds is the source the player holds and plays the chapter the list
    shows as playing; when no chapter is shown as playing, nothing
    sounds. *)
Theorem one_chapter_at_a_time (contextReady : bool) (events : list event) :
  let p := run contextReady events in
  (length (sounding p) <= 1)%nat /\
  (forall source chapterId,
     (source, chapterId) ∈ sounding p ->
     currentlyPlayingId p = Some chapterId /\ currentSourceRef p = Some source) /\
  (currentlyPlayingId p = None -> sounding p = []).
Proof.
  intros p. pose proof (run_coherent contextReady events initial) as Hp.
  fold (run contextReady events) in Hp. fold p in Hp.
  specialize (Hp ltac:(by split)). unfold coherent in Hp.
  destruct (currentSourceRef p) as [source|].
  - destruct Hp as (chapterId & Hid & [Hsounding|Hsounding] & _);
      rewrite Hsounding, Hid; (split; [simpl; lia|]); (split; [|done]);
      intros source' chapterId' Hin.
    + apply list_elem_of_singleton in Hin. by injection Hin as -> ->.
    + by apply elem_of_nil in Hin.
  - destruct Hp as [Hid Hsounding]. rewrite Hsounding, Hid.
    split; [simpl; lia|]. split; [|done].
    intros source' chapterId' Hin. by apply elem_of_nil in Hin.
Qed.

(** With the audio context in place, pressing play on the chapter shown
    as playing stops the playback, and pressing play on another chapter
    that has audio starts a new source on that chapter, which then sounds
    alone. *)
Theorem play_toggles_and_switches (contextReady : bool) (events : list event)
    (chapter : Chapter) :
  contextReady = true ->
  is_Some (audioBuffer chapter) ->
  let p := run contextReady events in
  let p' := handlePlay contextReady chapter p in
  (currentlyPlayingId p = Some (id chapter) ->
   currentlyPlayingId p' = None /\ sounding p' = []) /\
  (currentlyPlayingId p <> Some (id chapter) ->
   currentlyPlayingId p' = Some (id chapter) /\
   sounding p' = [(created p, id chapter)]).
Proof.
  intros -> [buffer Hbuffer] p p'.
  pose proof (run_coherent true events initial ltac:(by split)) as Hp.
  fold (run true events) in Hp. fold p in Hp.
  destruct (stopPlayback_stops p Hp) as [Hnone Hsilent].
  subst p'. unfold handlePlay. rewrite Hbuffer. cbn [negb]. split.
  - intros Hsame. by rewrite decide_True by done.
  - intros Hother. rewrite decide_False by done. cbn.
    by rewrite Hsilent, stopPlayback_created.
Qed.

(** For instance: the first chapter plays, its buffer runs out, and play
    is pressed on the second chapter before the [ended] event arrives. *)
Lemma play_toggles_and_switches_witness :
  let events := [Play (ready_chapter "a" 1); RunsOut 0] in
  let chapter := ready_chapter "b" 2 in
  let p' := handlePlay true chapter (run true events) in
  currentlyPlayingId p' = Some "b" /\ sounding p' = [(1%nat, "b")].
Proof.
  intros events chapter p'.
  apply (play_toggles_and_switches true events chapter).
  - reflexivity.
  - vm_compute. by eexists.
  - vm_compute. discriminate.
Defined.

End PlaybackFacts.

(** ** What a session leaves alone *)

Module IdentityFacts.
Import Orchestrator Scheduler Session IdentityDefs.

#[local] Opaque Float64.percent.

Lemma commit_same base chapterId f w :
  keeps_identity f -> same_chapters base w -> same_chapters base (commit chapterId f w).
Proof.
  intros Hf [Hchs Htr].
  assert (map identity (updateChapter chapterId f (chapters w)) = map identity base)
    as Hnew.
  { rewrite <- Hchs. unfold updateChapter. rewrite map_map. apply map_ext.
    intros c. by destruct (decide (id c = chapterId)). }
  split; [exact Hnew|].
  unfold commit, setChapters. cbn [snd trace].
  rewrite AttemptFacts.rendered_app. apply Forall_app. split; [exact Htr|].
  by apply Forall_singleton.
Qed.

Lemma note_same base e w :
  rendered [e] = [] -> same_chapters base w -> same_chapters base (note e w).
Proof.
  intros He [Hchs Htr]. split; [exact Hchs|].
  unfold note, record. cbn [snd trace].
  by rewrite AttemptFacts.rendered_app, He, app_nil_r.
Qed.

Lemma caught_same base chapterId err w :
  same_chapters base w -> same_chapters base (caught chapterId err w).
Proof. by apply commit_same. Qed.

Lemma nextChunk_same base env chapterId total i chunks audioBuffers w :
  same_chapters base w ->
  same_chapters base (snd (nextChunk env chapterId total i chunks audioBuffers w)).
Proof.
  intros Hw. destruct chunks as [|chunk rest]; cbn [nextChunk snd].
  - destruct (Audio.concatAudioBuffers audioBuffers (audioContext env)) as [err|finalBuffer].
    + by apply caught_same.
    + by apply commit_same.
  - by apply note_same.
Qed.

Lemma start_same base env chapter w :
  same_chapters base w -> same_chapters base (snd (start env chapter w)).
Proof.
  intros Hw. unfold start. destruct (negb (refsReady env)); [done|].
  cbn [snd]. apply note_same; [done|].
  apply commit_same; [done|]. by apply note_same.
Qed.

Lemma resume_same base env a w :
  same_chapters base w -> same_chapters base (snd (resume env a w)).
Proof.
  intros Hw. destruct a as [chapter|chapterId total i chunk rest audioBuffers];
    cbn [resume]; unfold ask.
  - destruct (Orchestrator.getTextForPageRange env (clock w) _ _) as [err|t].
    + by apply caught_same.
    + destruct (trim t).
      * by apply commit_same.
      * by apply nextChunk_same.
  - destruct (audioOfResponse env _) as [err|audioBuffer].
    + by apply caught_same.
    + by apply nextChunk_same, commit_same.
Qed.

Lemma nextInQueue_same base env queue :
  forall w, same_chapters base w -> same_chapters base (snd (nextInQueue env queue w)).
Proof.
  induction queue as [|chapter rest IH]; intros w Hw; [done|].
  cbn [nextInQueue]. destruct (convertible chapter); [|by apply IH].
  pose proof (start_same base env chapter w Hw) as Hstart.
  destruct (start env chapter w) as [[a|] w']; [exact Hstart|by apply IH].
Qed.

Lemma step_same base env s i :
  same_chapters base (world s) -> same_chapters base (world (step env s i)).
Proof.
  intros Hw. destruct i as [[chapterId|selectedChapterIds]|k]; cbn [step].
  - destruct (retryOffered chapterId (world s)); [|done].
    destruct (List.find _ _) as [chapter|]; [|done].
    pose proof (start_same base env chapter _ Hw) as Hstart.
    by destruct (start env chapter (world s)) as [[a|] w'].
  - destruct (isBulkConverting s); [done|].
    pose proof (nextInQueue_same base env
                  (chaptersToConvert (chapters (world s)) selectedChapterIds)
                  _ Hw) as Hnext.
    by destruct (nextInQueue env _ (world s)) as [[handler|] w'].
  - destruct (inFlight s !! k) as [[a|a queue]|]; [| |done].
    + pose proof (resume_same base env a _ Hw) as Hres.
      by destruct (resume env a (world s)) as [next w'].
    + pose proof (resume_same base env a _ Hw) as Hres.
      destruct (resume env a (world s)) as [[a'|] w']; [done|].
      pose proof (nextInQueue_same base env queue w' Hres) as Hnext.
      by destruct (nextInQueue env queue w') as [next w''].
Qed.

Lemma play_same base env inputs :
  forall s, same_chapters base (world s) ->
            same_chapters base (world (play env inputs s)).
Proof.
  induction inputs as [|i inputs IH]; intros s Hs; [done|].
  cbn [play fold_left]. by apply IH, step_same.
Qed.

(** Whatever the user presses and whenever, and whatever the collaborators
    answer, the chapter list keeps its chapters: every list committed, and
    the list left, has the chapters of the list first shown, in the same
    order, each with its id, title, first page and last page. *)
Theorem session_keeps_the_chapters (env : Env) (chapterList : list Chapter)
    (inputs : list input) :
  let w := world (play env inputs (opened chapterList)) in
  map identity (chapters w) = map identity chapterList /\
  Forall (fun chs => map identity chs = map identity chapterList)
    (rendered (trace w)).
Proof.
  apply (play_same chapterList env inputs (opened chapterList)).
  split; [done|]. simpl. by repeat constructor.
Qed.

End IdentityFacts.
